(** * PitchDecker: the deck builder of [app.py]

    A shallow embedding of the pure core of [app.py] -- the two text
    wrappers, the vertical placement of text blocks and images, the quota
    allocator [target_counts] and the selection stage of the "Build Deck"
    handler -- together with the properties the specification states
    about them.

    Python values are modelled as follows.
    - [int] is [Z].
    - [float] is IEEE 754 binary64: the type [spec_float] of the standard
      library with the operations of [SpecFloat] at precision 53 and
      maximal exponent 1024 (round to nearest, ties to even).
    - [str] is a list of code points, so that [len] counts characters.
    - a [dict] with string keys is an association list in insertion
      order.
    - an exception is a value [Raise e] of the type [result]. *)

From Stdlib Require Import ZArith List Bool Lia String Ascii.
From Stdlib Require Import Permutation Sorted.
From Stdlib Require Import Floats.SpecFloat.
From Stdlib Require Import DecimalString DecimalZ.
From Stdlib Require OrderedTypeEx.
Import ListNotations.
Local Open Scope Z_scope.

(** ** Exceptions *)

Inductive exn : Set :=
| ZeroDivisionError
| OverflowError
| ValueError
| KeyError
| IndexError.

Inductive result (A : Type) : Type :=
| Ok (a : A)
| Raise (e : exn).

Arguments Ok {A} a.
Arguments Raise {A} e.

Definition bind {A B : Type} (r : result A) (k : A -> result B) : result B :=
  match r with
  | Ok a => k a
  | Raise e => Raise e
  end.

Notation "x <- c1 ;; c2" := (bind c1 (fun x => c2))
  (at level 61, c1 at next level, right associativity).

(** [[f(x) for x in l]] where [f] may raise: the first exception wins. *)
Fixpoint mapM {A B : Type} (f : A -> result B) (l : list A) : result (list B) :=
  match l with
  | [] => Ok []
  | x :: l' => y <- f x ;; ys <- mapM f l' ;; Ok (y :: ys)
  end.

(** ** Python floats *)

Module PyFloat.

Definition prec : Z := 53.
Definition emax : Z := 1024.

Definition float : Set := spec_float.

Definition add : float -> float -> float := SFadd prec emax.
Definition sub : float -> float -> float := SFsub prec emax.
Definition mul : float -> float -> float := SFmul prec emax.
(** Every divisor in the modelled code is a nonzero literal, so the
    [ZeroDivisionError] of Python's [/] never arises. *)
Definition div : float -> float -> float := SFdiv prec emax.

Definition ltb : float -> float -> bool := SFltb.
Definition leb : float -> float -> bool := SFleb.
Definition eqb : float -> float -> bool := SFeqb.

(** The binary64 values, among the inhabitants of [spec_float]. *)
Definition valid (x : float) : bool := valid_binary prec emax x.

Definition is_nan (x : float) : bool :=
  match x with S754_nan => true | _ => false end.

(** Neither infinite nor not a number. *)
Definition is_finite (x : float) : bool :=
  match x with
  | S754_zero _ | S754_finite _ _ _ => true
  | _ => false
  end.

(** Nearest double of an integer (ties to even), infinite on overflow. *)
Definition Z2F (n : Z) : float := binary_normalize prec emax n 0 false.

(** Conversion of an [int] operand in mixed arithmetic. *)
Definition of_int (n : Z) : result float :=
  match Z2F n with
  | S754_infinity _ => Raise OverflowError
  | x => Ok x
  end.

(** The decimal literal [n/d]: the double nearest to that rational,
    which is what the correctly rounded quotient of two exactly
    represented integers is. *)
Definition dec (n d : Z) : float := div (Z2F n) (Z2F d).

(** [x / y] on floats, where the divisor is not known to be nonzero. *)
Definition truediv (x y : float) : result float :=
  match y with
  | S754_zero _ => Raise ZeroDivisionError
  | _ => Ok (div x y)
  end.

(** [max(a, b)]: the first argument is kept unless the second is
    strictly greater. *)
Definition max2 (a b : float) : float := if ltb a b then b else a.

(** [min(a, b)]: the first argument is kept unless the second is
    strictly smaller. *)
Definition min2 (a b : float) : float := if ltb b a then b else a.

(** [int(x)]: truncation towards zero. *)
Definition to_int (x : float) : result Z :=
  match x with
  | S754_zero _ => Ok 0
  | S754_finite s m e => Ok (cond_Zopp s (Z.shiftl (Zpos m) e))
  | S754_infinity _ => Raise OverflowError
  | S754_nan => Raise ValueError
  end.

(** [math.floor(x)]. *)
Definition floor (x : float) : result Z :=
  match x with
  | S754_zero _ => Ok 0
  | S754_finite s m e => Ok (Z.shiftl (cond_Zopp s (Zpos m)) e)
  | S754_infinity _ => Raise OverflowError
  | S754_nan => Raise ValueError
  end.

(** Nearest integer of [m * 2^e] for [0 <= m], ties to even. *)
Definition round_half_even (m e : Z) : Z :=
  if 0 <=? e then m * 2 ^ e
  else
    let d := 2 ^ (- e) in
    let q := m / d in
    match 2 * (m mod d) ?= d with
    | Lt => q
    | Gt => q + 1
    | Eq => if Z.even q then q else q + 1
    end.

(** [round(x)] with one argument. *)
Definition round (x : float) : result Z :=
  match x with
  | S754_zero _ => Ok 0
  | S754_finite s m e => Ok (cond_Zopp s (round_half_even (Zpos m) e))
  | S754_infinity _ => Raise OverflowError
  | S754_nan => Raise ValueError
  end.

(** [n * x] and [x - n] for an [int] n and a [float] x. *)
Definition int_mul (n : Z) (x : float) : result float :=
  y <- of_int n ;; Ok (mul y x).
Definition sub_int (x : float) (n : Z) : result float :=
  y <- of_int n ;; Ok (sub x y).
Definition mul_int (x : float) (n : Z) : result float :=
  y <- of_int n ;; Ok (mul x y).

End PyFloat.

(** The float literals of [app.py]. *)
Module Lit.
Import PyFloat.
Definition f0_0  : float := S754_zero false.
Definition f0_08 : float := dec 8 100.
Definition f0_1  : float := dec 1 10.
Definition f0_15 : float := dec 15 100.
Definition f0_2  : float := dec 20 100.
Definition f0_27 : float := dec 27 100.
Definition f0_5  : float := dec 50 100.
Definition f0_6  : float := dec 6 10.
Definition f0_9  : float := dec 9 10.
Definition f1_0  : float := Z2F 1.
Definition f1_35 : float := dec 135 100.
Definition f1_8  : float := dec 18 10.
Definition f2_0  : float := Z2F 2.
Definition f5_2  : float := dec 52 10.
Definition f6_5  : float := dec 65 10.
Definition f9_5  : float := dec 95 10.
Definition f72_0 : float := Z2F 72.
End Lit.

(** ** Python strings *)

Module PyStr.

(** A string is its sequence of code points. *)
Definition str : Set := list N.

Definition len (s : str) : Z := Z.of_nat (List.length s).

(** Transcription of an ASCII literal. *)
Fixpoint of_string (s : string) : str :=
  match s with
  | EmptyString => []
  | String a s' => N_of_ascii a :: of_string s'
  end.

Definition space : N := 32%N.

(** The code points that [str.split()] and [str.strip()] treat as
    white space: U+0009..U+000D, U+001C..U+0020, U+0085, U+00A0,
    U+1680, U+2000..U+200A, U+2028, U+2029, U+202F, U+205F, U+3000. *)
Definition isspace (c : N) : bool :=
  ((9 <=? c) && (c <=? 13) || (28 <=? c) && (c <=? 32)
   || (c =? 133) || (c =? 160) || (c =? 5760)
   || (8192 <=? c) && (c <=? 8202)
   || (c =? 8232) || (c =? 8233) || (c =? 8239) || (c =? 8287)
   || (c =? 12288))%N.

(** [s.split()]: the maximal runs of characters that are not white
    space.  [cur] is the run being read. *)
Fixpoint split_from (cur : str) (s : str) : list str :=
  match s with
  | [] => match cur with [] => [] | _ => [cur] end
  | c :: s' =>
      if isspace c then
        match cur with
        | [] => split_from [] s'
        | _ => cur :: split_from [] s'
        end
      else split_from (cur ++ [c]) s'
  end.

Definition split (s : str) : list str := split_from [] s.

(** [sep.join(l)]. *)
Fixpoint join (sep : str) (l : list str) : str :=
  match l with
  | [] => []
  | [x] => x
  | x :: l' => x ++ sep ++ join sep l'
  end.

Fixpoint lstrip (s : str) : str :=
  match s with
  | [] => []
  | c :: s' => if isspace c then lstrip s' else s
  end.

(** [s.strip()]. *)
Definition strip (s : str) : str := rev (lstrip (rev (lstrip s))).

(** Truth value of a string: it is not empty. *)
Definition truthy (s : str) : bool :=
  match s with [] => false | _ => true end.

End PyStr.

Import PyStr.

(** ** Wrapping helpers *)

(** The [for w in words[1:]] loop of [wrap_chars], on the state
    [(lines, cur)]. *)
Fixpoint wrap_chars_loop (max_chars : Z) (ws : list str)
    (lines : list str) (cur : str) : list str * str :=
  match ws with
  | [] => (lines, cur)
  | w :: ws' =>
      if len cur + 1 + len w <=? max_chars
      then wrap_chars_loop max_chars ws' lines (cur ++ [space] ++ w)
      else wrap_chars_loop max_chars ws' (lines ++ [cur]) w
  end.

Definition wrap_chars (text : str) (max_chars : Z) : list str :=
  match split text with
  | [] => [[]]
  | w0 :: ws =>
      let '(lines, cur) := wrap_chars_loop max_chars ws [] w0 in
      lines ++ [cur]
  end.

(** The [for w in words] loop of [wrap_by_wordcount], on the state
    [(lines, bucket)]. *)
Fixpoint wrap_by_wordcount_loop (max_words : Z) (ws : list str)
    (lines : list str) (bucket : list str) : list str * list str :=
  match ws with
  | [] => (lines, bucket)
  | w :: ws' =>
      if Z.of_nat (List.length bucket) <? max_words
      then wrap_by_wordcount_loop max_words ws' lines (bucket ++ [w])
      else wrap_by_wordcount_loop max_words ws'
             (lines ++ [join [space] bucket]) [w]
  end.

Definition wrap_by_wordcount (text : str) (max_words : Z) : list str :=
  match split text with
  | [] => [[]]
  | words =>
      let '(lines, bucket) := wrap_by_wordcount_loop max_words words [] [] in
      match bucket with
      | [] => lines
      | _ => lines ++ [join [space] bucket]
      end
  end.

(** ** Layout *)

Module Layout.
Import PyFloat Lit.

Definition EMU_PER_INCH : Z := 914400.

(** [a / b] on two [int]s.  The quotient of the two conversions is the
    correctly rounded quotient as long as both operands are below
    2^53 in magnitude, which lengths in EMU are. *)
Definition int_truediv (a b : Z) : result float :=
  if b =? 0 then Raise ZeroDivisionError
  else x <- of_int a ;; y <- of_int b ;; Ok (div x y).

(** The part of a [Presentation] that the layout reads. *)
Record presentation : Set := {
  slide_width : Z;
  slide_height : Z
}.

Definition slide_size_in (prs : presentation) : result (float * float) :=
  w <- int_truediv (slide_width prs) EMU_PER_INCH ;;
  h <- int_truediv (slide_height prs) EMU_PER_INCH ;;
  Ok (w, h).

(** What a helper hands to [add_textbox] (each length still in inches,
    before [Inches]) and the runs it writes, with the content height
    [total_h_in] it was placed by. *)
Record textbox : Set := {
  tb_left : float;
  tb_top : float;
  tb_width : float;
  tb_height : float;
  tb_content_h : float;
  tb_runs : list str
}.

Definition em_dash : str := [8212%N].
Definition bullet_prefix : str := [8226%N; 32%N].
Definition indent_prefix : str := [32%N; 32%N].

Definition sum_Z (l : list Z) : Z := fold_right Z.add 0 l.

(** [[l for l in (lines or ["—"]) if (l or "").strip()] or ["—"]]. *)
Definition nonblank_lines (lines : list str) : list str :=
  let src := match lines with [] => [em_dash] | _ => lines end in
  match filter (fun l => truthy (strip l)) src with
  | [] => [em_dash]
  | raw => raw
  end.

Definition bullet_runs (chunks : list str) : list str :=
  match chunks with
  | [] => []
  | c :: rest => (bullet_prefix ++ c) :: map (fun x => indent_prefix ++ x) rest
  end.

Definition add_left_bullets_vert_center (prs : presentation)
    (lines : list str) (font_pt : Z)
    (left_in right_margin_in top_in bottom_in uplift_ratio : float)
    (wrap_chars_limit : Z) : result textbox :=
  let raw := nonblank_lines lines in
  let wrapped_items := map (fun l => wrap_chars l wrap_chars_limit) raw in
  let total_lines := sum_Z (map (fun w => Z.of_nat (List.length w)) wrapped_items) in
  pt <- int_mul font_pt f1_35 ;;
  let line_height_in := div pt f72_0 in
  total_h_in <- int_mul (Z.max 1 total_lines) line_height_in ;;
  let avail_h := sub bottom_in top_in in
  let base_top := add top_in (max2 f0_0 (div (sub avail_h total_h_in) f2_0)) in
  let shift_up := mul uplift_ratio avail_h in
  let start_top := max2 top_in (sub base_top shift_up) in
  sz <- slide_size_in prs ;;
  let slide_w_in := fst sz in
  let width_in := max2 f1_0 (sub (sub slide_w_in left_in) right_margin_in) in
  Ok {| tb_left := left_in;
        tb_top := start_top;
        tb_width := width_in;
        tb_height := add total_h_in f0_1;
        tb_content_h := total_h_in;
        tb_runs := List.concat (map bullet_runs wrapped_items) |}.

(** Truth value of the optional [box_width_in]. *)
Definition box_width_set (w : option float) : option float :=
  match w with
  | Some (S754_zero _) => None
  | _ => w
  end.

Definition add_center_paragraph (prs : presentation)
    (text : str) (font_pt : Z) (box_width_in : option float)
    (left_in right_margin_in top_in bottom_in uplift_ratio : float)
    (wrap_chars_limit : Z) : result textbox :=
  let chunks :=
    wrap_chars (match text with [] => em_dash | _ => text end) wrap_chars_limit in
  pt <- int_mul font_pt f1_35 ;;
  let line_height_in := div pt f72_0 in
  total_h_in <- int_mul (Z.max 1 (Z.of_nat (List.length chunks))) line_height_in ;;
  let avail_h := sub bottom_in top_in in
  let base_top := add top_in (max2 f0_0 (div (sub avail_h total_h_in) f2_0)) in
  let shift_up := mul uplift_ratio avail_h in
  let start_top := max2 top_in (sub base_top shift_up) in
  sz <- slide_size_in prs ;;
  let slide_w_in := fst sz in
  let width_in :=
    match box_width_set box_width_in with
    | Some w => w
    | None => max2 f1_0 (sub (sub slide_w_in left_in) right_margin_in)
    end in
  let left_in' :=
    match box_width_set box_width_in with
    | Some w => max2 f0_5 (div (sub slide_w_in w) f2_0)
    | None => left_in
    end in
  Ok {| tb_left := left_in';
        tb_top := start_top;
        tb_width := width_in;
        tb_height := add total_h_in f0_2;
        tb_content_h := total_h_in;
        tb_runs := chunks |}.

End Layout.

(** ** The slides of [build_ppt] that place content inline *)

Module BuildPpt.
Import PyFloat Lit Layout.

(** [Inches(x)]: a length in EMU. *)
Definition Inches (x : float) : result Z :=
  y <- mul_int x EMU_PER_INCH ;; to_int y.

Record picture : Set := {
  pic_left : Z;
  pic_top : Z;
  pic_width : Z;
  pic_height : Z
}.

(** Slide 2: the mission image.  [w0] and [h0] are the width and the
    height, in EMU, with which [add_picture] inserted the image. *)
Definition mission_image (prs : presentation) (w0 h0 : Z) : result picture :=
  sz <- slide_size_in prs ;;
  let slide_w_in := fst sz in
  let img_max_w_in := sub slide_w_in f1_8 in
  let img_max_h_in := mul (sub f6_5 f2_0) f0_9 in
  img_w_in <- int_truediv w0 EMU_PER_INCH ;;
  img_h_in <- int_truediv h0 EMU_PER_INCH ;;
  sw <- truediv img_max_w_in img_w_in ;;
  sh <- truediv img_max_h_in img_h_in ;;
  let scale := min2 sw sh in
  w <- (x <- mul_int (mul img_w_in scale) EMU_PER_INCH ;; to_int x) ;;
  h <- (x <- mul_int (mul img_h_in scale) EMU_PER_INCH ;; to_int x) ;;
  w_in <- int_truediv w EMU_PER_INCH ;;
  left <- (x <- mul_int (div (sub slide_w_in w_in) f2_0) EMU_PER_INCH ;; to_int x) ;;
  let content_top := f2_0 in
  let content_bottom := f6_5 in
  let avail_h := sub content_bottom content_top in
  let y_center := sub (add content_top (div avail_h f2_0)) (mul f0_2 avail_h) in
  h_in <- int_truediv h EMU_PER_INCH ;;
  top <- (x <- mul_int (sub y_center (div h_in f2_0)) EMU_PER_INCH ;; to_int x) ;;
  Ok {| pic_left := left; pic_top := top; pic_width := w; pic_height := h |}.

(** Slide 5: the team image in the left panel. *)
Definition team_image (w0 h0 : Z) : result picture :=
  let max_h := sub f6_5 f2_0 in
  img2_w_in <- int_truediv w0 EMU_PER_INCH ;;
  img2_h_in <- int_truediv h0 EMU_PER_INCH ;;
  sw <- truediv f5_2 img2_w_in ;;
  sh <- truediv max_h img2_h_in ;;
  let scale2 := min2 sw sh in
  w <- (x <- mul_int (mul img2_w_in scale2) EMU_PER_INCH ;; to_int x) ;;
  h <- (x <- mul_int (mul img2_h_in scale2) EMU_PER_INCH ;; to_int x) ;;
  left <- Inches f0_9 ;;
  let avail_h2 := sub f6_5 f2_0 in
  let y_center2 := sub (add f2_0 (div avail_h2 f2_0)) (mul f0_2 avail_h2) in
  h_in <- int_truediv h EMU_PER_INCH ;;
  top <- (x <- mul_int (sub y_center2 (div h_in f2_0)) EMU_PER_INCH ;; to_int x) ;;
  Ok {| pic_left := left; pic_top := top; pic_width := w; pic_height := h |}.

(** The top of an image as both slides compute it from the scaled
    height [h] (lines 352-355 and 397-399): the midpoint of the
    region, lifted by 0.20 of its height, minus half the image. *)
Definition image_top (h : Z) : result Z :=
  h_in <- int_truediv h EMU_PER_INCH ;;
  x <- mul_int
         (sub (sub (add f2_0 (div (sub f6_5 f2_0) f2_0)) (mul f0_2 (sub f6_5 f2_0)))
              (div h_in f2_0))
         EMU_PER_INCH ;;
  to_int x.

Definition team_text : str :=
  of_string ("Diverse, resourceful, motivated team, "
             ++ "battle-hardened by 31 years of combined entrepreneurial experience.").

(** Slide 5: the text block to the right of the team image [pic2].
    The text is a parameter here; [build_ppt] passes [team_text]. *)
Definition team_text_block (prs : presentation) (pic2 : picture)
    (text : str) : result textbox :=
  let avail_h2 := sub f6_5 f2_0 in
  sz <- slide_size_in prs ;;
  let slide_w_in := fst sz in
  let gap_in := f0_6 in
  l_in <- int_truediv (pic_left pic2) EMU_PER_INCH ;;
  w_in <- int_truediv (pic_width pic2) EMU_PER_INCH ;;
  let right_text_left := add (add l_in w_in) gap_in in
  let right_text_width := max2 f1_0 (sub (sub slide_w_in right_text_left) f0_9) in
  let team_lines := wrap_by_wordcount text 2 in
  pt <- int_mul 30 f1_35 ;;
  let line_h_in := div pt f72_0 in
  total_h_in <- int_mul (Z.max 1 (Z.of_nat (List.length team_lines))) line_h_in ;;
  let base_top := add f2_0 (max2 f0_0 (div (sub avail_h2 total_h_in) f2_0)) in
  let top_right := sub base_top (mul f0_2 avail_h2) in
  Ok {| tb_left := right_text_left;
        tb_top := top_right;
        tb_width := right_text_width;
        tb_height := add total_h_in f0_2;
        tb_content_h := total_h_in;
        tb_runs := team_lines |}.

End BuildPpt.

(** ** Dictionaries with string keys *)

Module Dict.

Definition dict (V : Type) : Type := list (string * V).

Definition keys {V : Type} (d : dict V) : list string := map fst d.
Definition values {V : Type} (d : dict V) : list V := map snd d.

(** [d[k]]. *)
Fixpoint get {V : Type} (k : string) (d : dict V) : result V :=
  match d with
  | [] => Raise KeyError
  | (k', v) :: d' => if String.eqb k' k then Ok v else get k d'
  end.

(** [d[k] = v]: the entry is replaced in place, or added last. *)
Fixpoint set {V : Type} (k : string) (v : V) (d : dict V) : dict V :=
  match d with
  | [] => [(k, v)]
  | (k', v') :: d' =>
      if String.eqb k' k then (k', v) :: d' else (k', v') :: set k v d'
  end.

End Dict.

(** ** Quota allocator *)

Module Quota.
Import PyFloat Dict.

Definition sum_Z (l : list Z) : Z := fold_right Z.add 0 l.

(** [a < b] on the pairs [(fraction, key)]: the first components
    decide unless they are equal, then the keys do. *)
Definition tuple_ltb (a b : float * string) : bool :=
  if eqb (fst a) (fst b) then String.ltb (snd a) (snd b)
  else ltb (fst a) (fst b).

(** [sorted(l, reverse=True)] as a stable insertion sort: an element
    goes before the first one that it is not smaller than. *)
Fixpoint insert_desc (x : float * string) (l : list (float * string))
    : list (float * string) :=
  match l with
  | [] => [x]
  | y :: l' => if tuple_ltb x y then y :: insert_desc x l' else x :: l
  end.

Definition sorted_reverse (l : list (float * string)) : list (float * string) :=
  fold_right insert_desc [] l.

(** [floors[fracs[i % len(fracs)][1]] += 1]. *)
Definition bump (fracs : list (float * string)) (floors : dict Z) (i : Z)
    : result (dict Z) :=
  match fracs with
  | [] => Raise ZeroDivisionError
  | _ =>
      match nth_error fracs (Z.to_nat (i mod Z.of_nat (List.length fracs))) with
      | None => Raise IndexError
      | Some (_, k) => n <- get k floors ;; Ok (set k (n + 1) floors)
      end
  end.

(** The iterations [i, i+1, ..., i+n-1] of [for i in range(remainder)]. *)
Fixpoint distribute (fracs : list (float * string)) (n : nat) (i : Z)
    (floors : dict Z) : result (dict Z) :=
  match n with
  | O => Ok floors
  | S n' => fl <- bump fracs floors i ;; distribute fracs n' (i + 1) fl
  end.

(** [floor(total * v)], the floor of one category as lines 196-197
    compute it. *)
Definition floor_share (total : Z) (v : float) : result Z :=
  x <- int_mul total v ;; floor x.

(** The dictionary [floors] before the remainder is distributed. *)
Definition floors_of (total : Z) (ratios : dict float) : result (dict Z) :=
  mapM (fun kv => n <- floor_share total (snd kv) ;; Ok (fst kv, n)) ratios.

Definition target_counts (total : Z) (ratios : dict float) : result (dict Z) :=
  raw <- mapM (fun kv => x <- int_mul total (snd kv) ;; Ok (fst kv, x)) ratios ;;
  floors <- mapM (fun kx => n <- floor (snd kx) ;; Ok (fst kx, n)) raw ;;
  let remainder := total - sum_Z (values floors) in
  fr <- mapM (fun k => x <- get k raw ;; n <- get k floors ;;
                       f <- sub_int x n ;; Ok (f, k)) (keys ratios) ;;
  let fracs := sorted_reverse fr in
  distribute fracs (Z.to_nat remainder) 0 floors.

End Quota.

(** ** The "Build Deck" handler, up to the selection *)

Module Build.
Import PyFloat Lit Dict Quota.

(** A row returned by [make_editor]. *)
Record item : Set := {
  it_text : str;
  it_priority : Z;
  it_link : str
}.

Record bullet : Set := {
  text : str;
  priority : Z;
  link : str;
  category : string;
  idx : Z
}.

Definition WHAC_RATIOS : dict float :=
  [("WHAT", f0_5); ("HOW", f0_27); ("SURE", f0_15); ("CYDI", f0_08)]%string.

Definition CATEGORIES : list string := ["WHAT"; "HOW"; "SURE"; "CYDI"]%string.

(** [for idx, b in enumerate(items)], counting from [i]. *)
Fixpoint collect_from (i : Z) (items : list item) (cat : string)
    (linkflag : bool) : list bullet :=
  match items with
  | [] => []
  | b :: rest =>
      {| text := strip (it_text b);
         priority := it_priority b;
         link := if linkflag then strip (it_link b) else [];
         category := cat;
         idx := i |} :: collect_from (i + 1) rest cat linkflag
  end.

(** 1) Collect bullets. *)
Definition collect (what_items how_items sure_items cydi_items : list item)
    : list bullet :=
  collect_from 0 what_items "WHAT"%string false
  ++ collect_from 0 how_items "HOW"%string false
  ++ collect_from 0 sure_items "SURE"%string true
  ++ collect_from 0 cydi_items "CYDI"%string false.

(** 2) Exclude None(0). *)
Definition make_pool (all_bullets : list bullet) : list bullet :=
  filter (fun x => truthy (text x) && (0 <? priority x)) all_bullets.

(** 3) Total to keep (50% of pool). *)
Definition keep_fraction : float := f0_5.

Definition kept_total_of (pool : list bullet) : result Z :=
  x <- int_mul (Z.of_nat (List.length pool)) keep_fraction ;;
  r <- round x ;;
  Ok (Z.max 1 r).

(** 5) Split by category and priority tier: the lists ["H"] and ["M"]
    of a category. *)
Definition tiers : Set := (list bullet * list bullet)%type.

Definition by_cat_init : dict tiers := map (fun c => (c, ([], []))) CATEGORIES.

(** [by_cat[b["category"]][tier].append(b)]. *)
Fixpoint by_cat_append (b : bullet) (d : dict tiers) : result (dict tiers) :=
  match d with
  | [] => Raise KeyError
  | (c, (h, m)) :: d' =>
      if String.eqb c (category b) then
        Ok ((c, if 5 <=? priority b then (h ++ [b], m) else (h, m ++ [b])) :: d')
      else d'' <- by_cat_append b d' ;; Ok ((c, (h, m)) :: d'')
  end.

Fixpoint split_pool (pool : list bullet) (d : dict tiers) : result (dict tiers) :=
  match pool with
  | [] => Ok d
  | b :: rest => d' <- by_cat_append b d ;; split_pool rest d'
  end.

(** [l.sort(key=lambda x: x["idx"])]: stable, ascending. *)
Fixpoint insert_by_idx (x : bullet) (l : list bullet) : list bullet :=
  match l with
  | [] => [x]
  | y :: l' => if idx y <? idx x then y :: insert_by_idx x l' else x :: l
  end.

Definition sort_by_idx (l : list bullet) : list bullet :=
  fold_right insert_by_idx [] l.

Definition sort_tiers (d : dict tiers) : dict tiers :=
  map (fun ct => (fst ct, (sort_by_idx (fst (snd ct)), sort_by_idx (snd (snd ct))))) d.

(** [l[:n]]. *)
Definition slice_to {A : Type} (l : list A) (n : Z) : list A :=
  if 0 <=? n then firstn (Z.to_nat n) l
  else firstn (Z.to_nat (Z.of_nat (List.length l) + n)) l.

(** The body of [for c, cap in targets.items()]. *)
Definition take_for (t : tiers) (cap : Z) : list bullet :=
  let highs := slice_to (fst t) cap in
  let take := highs in
  if Z.of_nat (List.length take) <? cap then
    let need := cap - Z.of_nat (List.length take) in
    let meds := slice_to (snd t) need in
    take ++ meds
  else take.

Definition selected_init : dict (list bullet) := map (fun c => (c, [])) CATEGORIES.

Fixpoint select_loop (by_cat : dict tiers) (targets : dict Z)
    (selected : dict (list bullet)) : result (dict (list bullet)) :=
  match targets with
  | [] => Ok selected
  | (c, cap) :: rest =>
      t <- get c by_cat ;;
      select_loop by_cat rest (set c (take_for t cap) selected)
  end.

(** The bullet selector: steps 5 onwards, for a pool and its targets. *)
Definition select (pool : list bullet) (targets : dict Z)
    : result (dict (list bullet)) :=
  by_cat <- split_pool pool by_cat_init ;;
  select_loop (sort_tiers by_cat) targets selected_init.

Record selection : Type := {
  sel_pool : list bullet;
  sel_kept_total : Z;
  sel_targets : dict Z;
  sel_selected : dict (list bullet)
}.

(** Steps 3 to 5, on the pool. *)
Definition select_from_pool (pool : list bullet) : result selection :=
  kept_total <- kept_total_of pool ;;
  targets <- target_counts kept_total WHAC_RATIOS ;;
  selected <- select pool targets ;;
  Ok {| sel_pool := pool;
        sel_kept_total := kept_total;
        sel_targets := targets;
        sel_selected := selected |}.

(** Steps 1 to 5, on the rows of the four editors. *)
Definition build (what_items how_items sure_items cydi_items : list item)
    : result selection :=
  select_from_pool
    (make_pool (collect what_items how_items sure_items cydi_items)).

End Build.

(** ** The specification's wording

    The placement law of section 4.2, used to compare the places of
    [app.py] that position content vertically, and the guarantees of
    sections 4.3 and 4.4 as predicates on the results of the code. *)

Module Spec.
Import PyFloat Lit Dict Quota Build.

(** availableHeight = bottom - top;
    baseTop = top + max(0, (availableHeight - contentHeight) / 2);
    shiftUp = upliftRatio * availableHeight;
    startTop = max(top, baseTop - shiftUp). *)
Definition vertical_placement (top bottom content_height uplift_ratio : float)
    : float :=
  let available_height := sub bottom top in
  let base_top :=
    add top (max2 f0_0 (div (sub available_height content_height) f2_0)) in
  let shift_up := mul uplift_ratio available_height in
  max2 top (sub base_top shift_up).

(** The guarantees of the quota allocator: the caps are integers
    that are not negative, sum to the total, and are the floor of the
    share or one more. *)
Definition quota_guarantee (total : Z) (ratios : dict float) : Prop :=
  exists floors caps,
    floors_of total ratios = Ok floors
    /\ target_counts total ratios = Ok caps
    /\ keys caps = keys ratios
    /\ Forall (fun kc => 0 <= snd kc) caps
    /\ sum_Z (values caps) = total
    /\ forall k f, get k floors = Ok f ->
          exists c, get k caps = Ok c /\ (c = f \/ c = f + 1).

(** [sum(ratios.values())], added from left to right. *)
Definition ratio_sum (ratios : dict float) : float :=
  fold_left add (values ratios) f0_0.

(** A content region: finite bounds, the top not below the bottom. *)
Definition region (top bottom : float) : Prop :=
  valid top = true /\ valid bottom = true
  /\ is_finite top = true /\ is_finite bottom = true
  /\ leb top bottom = true.

End Spec.

(** ** The rows of an editor *)

Module Editor.
Import Build.

(** A row that [st.data_editor] returns, by the cells the loop of
    [make_editor] reads: a text cell holds a string or nothing
    ([None]), a check box holds a boolean. *)
Record row : Set := {
  bullet_cell : option str;
  high_cell : bool;
  med_cell : bool;
  none_cell : bool;
  link_cell : option str
}.

(** [x or ""]. *)
Definition or_empty (x : option str) : str :=
  match x with
  | Some s => s
  | None => []
  end.

(** [5 if row.get("High (5)") else 3 if row.get("Med (3)") else 0]. *)
Definition priority_of (r : row) : Z :=
  if high_cell r then 5 else if med_cell r then 3 else 0.

(** The body of [for _, row in df.iterrows()]: nothing for a row
    whose bullet is blank, one item otherwise. *)
Definition row_items (include_link : bool) (r : row) : list item :=
  let text := strip (or_empty (bullet_cell r)) in
  if truthy text then
    [{| it_text := text;
        it_priority := priority_of r;
        it_link := if include_link then strip (or_empty (link_cell r)) else [] |}]
  else [].

(** The items that [make_editor] returns for the edited rows. *)
Definition make_editor (include_link : bool) (rows : list row) : list item :=
  flat_map (row_items include_link) rows.

End Editor.

(** ** The payload of the deck *)

Module Payload.
Import Dict Build.

Definition default_downside : str :=
  of_string "The cost of plasma-based fertilizers compared to synthetic fertilizers.".

(** [[x["text"] for x in downsides_items if (x["text"] or "").strip()][:3]],
    replaced by the default when it is empty. *)
Definition downsides_of (downsides_items : list item) : list str :=
  match slice_to (map it_text
                    (filter (fun x => truthy (strip (it_text x))) downsides_items)) 3 with
  | [] => [default_downside]
  | d => d
  end.

(** Equality of two strings, code point by code point. *)
Fixpoint str_eqb (a b : str) : bool :=
  match a, b with
  | [], [] => true
  | x :: a', y :: b' => (x =? y)%N && str_eqb a' b'
  | _, _ => false
  end.

(** [url in sure_links]. *)
Definition contains (sure_links : list str) (url : str) : bool :=
  existsb (str_eqb url) sure_links.

(** The body of [for b in selected["SURE"]]. *)
Definition add_link (sure_links : list str) (b : bullet) : list str :=
  if truthy (link b) then
    let url := strip (link b) in
    if truthy url && negb (contains sure_links url) then sure_links ++ [url]
    else sure_links
  else sure_links.

Definition sure_links_of (sure : list bullet) : list str :=
  fold_left add_link sure [].

(** [payload["slides"]]. *)
Record slides : Set := {
  what_top3 : list str;
  what_rest : list str;
  how : list str;
  downsides : list str;
  sure_texts : list str;
  sure_links : list str;
  cydi : list str
}.

(** Lines 522 to 551, from the selection and the rows of the
    downsides editor. *)
Definition payload_slides (selected : dict (list bullet))
    (downsides_items : list item) : result slides :=
  let downsides := downsides_of downsides_items in
  sure <- get "SURE" selected ;;
  let sure_texts := map text sure in
  let sure_links := sure_links_of sure in
  what <- get "WHAT" selected ;;
  let what_list := map text what in
  hows <- get "HOW" selected ;;
  cydis <- get "CYDI" selected ;;
  Ok {| what_top3 := slice_to what_list 3;
        what_rest := skipn 3 what_list;
        how := map text hows;
        downsides := downsides;
        sure_texts := sure_texts;
        sure_links := sure_links;
        cydi := map text cydis |}.

(** The handler from the rows of the five editors to the payload's
    slides. *)
Definition build_slides (what_items how_items sure_items cydi_items
    downsides_items : list item) : result slides :=
  sel <- build what_items how_items sure_items cydi_items ;;
  payload_slides (sel_selected sel) downsides_items.

End Payload.

(** ** The footer links *)

Module Footer.
Import PyFloat Lit Layout.

(** A run of the footer paragraph: its text and, for a label, the
    address that the code assigns to its hyperlink (an assignment
    that python-pptx refuses is skipped without an error). *)
Record run : Set := {
  run_text : str;
  run_address : option str
}.

(** What [add_footer_links_right] hands to [add_textbox], in inches,
    and the runs of its paragraph. *)
Record footer : Set := {
  ft_left : float;
  ft_top : float;
  ft_width : float;
  ft_height : float;
  ft_runs : list run
}.

(** The text of [f"[{i}]"]. *)
Definition label (i : Z) : str :=
  of_string ("[" ++ NilZero.string_of_int (Z.to_int i) ++ "]")%string.

(** [for i, url in enumerate(links, start=1)], from [i] on. *)
Fixpoint link_runs (i : Z) (links : list str) : list run :=
  match links with
  | [] => []
  | url :: rest =>
      (if 1 <? i then [{| run_text := [space; space]; run_address := None |}]
       else [])
      ++ {| run_text := label i; run_address := Some url |}
         :: link_runs (i + 1) rest
  end.

(** Nothing is added for an empty list of links. *)
Definition add_footer_links_right (prs : presentation) (links : list str)
    (right_margin_in bottom_in : float) : result (option footer) :=
  match links with
  | [] => Ok None
  | _ =>
      sz <- slide_size_in prs ;;
      let slide_w_in := fst sz in
      let left_in := f0_9 in
      let width_in := max2 f1_0 (sub (sub slide_w_in left_in) right_margin_in) in
      Ok (Some {| ft_left := left_in;
                  ft_top := bottom_in;
                  ft_width := width_in;
                  ft_height := f0_5;
                  ft_runs := link_runs 1 links |})
  end.

End Footer.

(** ** Words and lines

    The vocabulary of the statements about the two wrappers. *)

Module Words.
Import PyStr.

(** A word: a non-empty run without white space. *)
Definition is_word (w : str) : Prop :=
  w <> [] /\ Forall (fun c => isspace c = false) w.

Definition joinsp (g : list str) : str := join [space] g.

(** A line of two or more words is within the budget. *)
Definition within_budget (max_chars : Z) (g : list str) : Prop :=
  (2 <= List.length g)%nat -> len (joinsp g) <= max_chars.

End Words.

(** ** Categories and tiers of a pool *)

Module Tiers.
Import Dict Build.

Definition is_high (b : bullet) : bool := 5 <=? priority b.

Definition in_cat (c : string) (b : bullet) : bool := String.eqb c (category b).

Definition in_tier (c : string) (high : bool) (b : bullet) : bool :=
  in_cat c b && Bool.eqb (is_high b) high.

Definition idx_le (a b : bullet) : Prop := idx a <= idx b.

(** The pool lists every category in the order of its editor. *)
Definition input_ordered (pool : list bullet) : Prop :=
  forall c, StronglySorted idx_le (filter (in_cat c) pool).

Definition add_tier (b : bullet) (t : tiers) : tiers :=
  if 5 <=? priority b then (fst t ++ [b], snd t) else (fst t, snd t ++ [b]).

Definition demo_bullet (p i : Z) : bullet :=
  {| text := [65%N]; priority := p; link := []; category := "WHAT"; idx := i |}.

End Tiers.

(** ** Rounding of binary64

    The pieces of [binary_round_aux] named, and the value of a float
    as an integer number of units of the smallest positive float. *)

Module Rounding.
Import PyFloat.

Definition emin : Z := -1074.

(** The record after [k] right shifts of [m], started without flags. *)
Definition shifted (m k : Z) : shr_record :=
  {| shr_m := m / 2 ^ k;
     shr_r := Z.testbit m (k - 1);
     shr_s := negb (m mod 2 ^ (k - 1) =? 0) |}.

Definition start (m : Z) : shr_record :=
  {| shr_m := m; shr_r := false; shr_s := false |}.

(** [m / 2^k] rounded to nearest, ties to even, as [shr] then
    [round_nearest_even] compute it. *)
Definition rne (m k : Z) : Z :=
  let mrs := if 0 <? k then shifted m k else start m in
  round_nearest_even (shr_m mrs) (loc_of_shr_record mrs).

(** The float of sign [s] and value [z * 2^E], for [0 <= z <= 2^53]. *)
Definition rounded (s : bool) (z E : Z) : float :=
  match z with
  | Zpos p =>
      if z <? 2 ^ 53 then
        if E <=? 971 then S754_finite s p E else S754_infinity s
      else
        if E + 1 <=? 971 then S754_finite s (Z.to_pos (2 ^ 52)) (E + 1)
        else S754_infinity s
  | _ => S754_zero s
  end.

(** [x] carries the sign bit [s], or is not a number. *)
Definition sign_is (s : bool) (x : float) : Prop :=
  match x with
  | S754_zero s' | S754_finite s' _ _ | S754_infinity s' => s' = s
  | S754_nan => True
  end.

(** Not negative: a zero, a positive number, plus infinity. *)
Definition nonneg (x : float) : Prop :=
  match x with
  | S754_zero _ => True
  | S754_finite s _ _ | S754_infinity s => s = false
  | S754_nan => False
  end.

(** Not positive, or not a number. *)
Definition nonpos_or_nan (x : float) : Prop :=
  match x with
  | S754_zero _ | S754_nan => True
  | S754_finite s _ _ | S754_infinity s => s = true
  end.

Definition nonneg_or_nan (x : float) : Prop :=
  match x with
  | S754_zero _ | S754_nan => True
  | S754_finite s _ _ | S754_infinity s => s = false
  end.

(** [m * 2^e] counted in units of the smallest positive float. *)
Definition units (m e : Z) : Z := m * 2 ^ (e - emin).

(** The value of a finite float, in those units. *)
Definition ival (x : float) : Z :=
  match x with
  | S754_finite s m e => cond_Zopp s (units (Zpos m) e)
  | _ => 0
  end.

Definition max_float : float :=
  S754_finite false (Z.to_pos (2 ^ 53 - 1)) 971.

(** More units than any finite float has. *)
Definition top_units : Z := units (2 ^ 53) 971.

(** The place of a float on the line of the integers: a finite one
    at its value, the infinite ones beyond every finite one. *)
Definition xval (x : float) : Z :=
  match x with
  | S754_infinity s => cond_Zopp s top_units
  | _ => ival x
  end.

(** [round(n * 0.5)] for a count below 2^53. *)
Definition half_even (n : Z) : Z :=
  if Z.even n then n / 2
  else if Z.even (n / 2) then n / 2 else n / 2 + 1.

End Rounding.

(** ** The round-robin of the allocator *)

Module RoundRobin.
Import PyFloat Dict Quota.

(** The key bumped at step [i]. *)
Definition key_at (fracs : list (float * string)) (i : Z) : option string :=
  match fracs with
  | [] => None
  | _ => option_map snd
           (nth_error fracs (Z.to_nat (i mod Z.of_nat (List.length fracs))))
  end.

(** How often the key [k] is bumped during the steps [i .. i+n-1]. *)
Fixpoint hits (fracs : list (float * string)) (n : nat) (i : Z) (k : string) : Z :=
  match n with
  | O => 0
  | S n' =>
      (match key_at fracs i with
       | Some k' => if String.eqb k' k then 1 else 0
       | None => 0
       end) + hits fracs n' (i + 1) k
  end.

(** How many of [0 .. x-1] are congruent to [p] modulo [L]. *)
Definition turns (L p x : Z) : Z := (x + L - 1 - p) / L.

Definition raw_entry (total : Z) (kv : string * float) : result (string * float) :=
  x <- int_mul total (snd kv) ;; Ok (fst kv, x).

Definition floor_entry (kx : string * float) : result (string * Z) :=
  n <- floor (snd kx) ;; Ok (fst kx, n).

Definition frac_entry (raw : dict float) (floors : dict Z) (k : string)
    : result (float * string) :=
  x <- get k raw ;; n <- get k floors ;; f <- sub_int x n ;; Ok (f, k).

(** [raw[k] - floors[k]] for the ratio [v] of a category, as lines
    196, 197 and 199 compute it. *)
Definition frac_share (total : Z) (v : float) : result float :=
  x <- int_mul total v ;; n <- floor x ;; sub_int x n.

(** [a] stands before [b] in the descending order of the pairs
    (fraction, key): the larger fraction first, and of two equal
    fractions the one with the larger key. *)
Definition precedes (a b : float * string) : Prop :=
  ltb (fst b) (fst a) = true
  \/ (eqb (fst a) (fst b) = true /\ String.ltb (snd b) (snd a) = true).

(** How many of the steps [i = 0, ..., r - 1] of the loop have
    [i % n = j]. *)
Definition steps_at (n j r : Z) : Z :=
  Z.of_nat (List.length
              (filter (fun i => i mod n =? j)
                      (map Z.of_nat (seq 0 (Z.to_nat r))))).

(** A pair whose fraction is a number. *)
Definition number (p : float * string) : Prop :=
  valid (fst p) = true /\ is_nan (fst p) = false.

End RoundRobin.

(** ** Scenarios and sample inputs *)

Module Cases.
Import PyStr PyFloat Lit Layout Dict Quota Build Tiers.

(** The slide of a default presentation, 10 by 7.5 inches. *)
Definition default_slide : presentation :=
  {| slide_width := 9144000; slide_height := 6858000 |}.

(** The image written when an asset is missing: one pixel at 72 dpi. *)
Definition placeholder_side : Z := 12700.

Definition twelve_bullets : list str := repeat (of_string "risk") 12.

Definition two_tenths : dict float := [("a"%string, f0_1); ("b"%string, f0_1)].

(** The tie of [n * 0.5] for an odd [n], rounded to the even neighbour. *)
Definition round_tie (n : Z) : Z :=
  if Z.even (n / 2) then n / 2 else n / 2 + 1.

Definition entry (c : string) (p i : Z) : bullet :=
  {| text := [65%N]; priority := p; link := []; category := c; idx := i |}.

Definition entries (c : string) (p : Z) (n : nat) (i0 : Z) : list bullet :=
  map (fun k => entry c p (i0 + Z.of_nat k)) (seq 0 n).

(** The pool of the scenario: 10 WHAT (6 HIGH then 4 MEDIUM), 6 HOW,
    4 SURE and 2 CYDI. *)
Definition scenario_pool : list bullet :=
  entries "WHAT" 5 6 0 ++ entries "WHAT" 3 4 6
  ++ entries "HOW" 3 6 0 ++ entries "SURE" 3 4 0 ++ entries "CYDI" 3 2 0.

Definition scenario (pool : list bullet) : Prop :=
  Forall (fun b => In (category b) CATEGORIES) pool
  /\ List.length pool = 22%nat
  /\ List.length (filter (in_tier "WHAT" true) pool) = 6%nat
  /\ List.length (filter (in_tier "WHAT" false) pool) = 4%nat
  /\ List.length (filter (in_cat "HOW") pool) = 6%nat
  /\ List.length (filter (in_cat "SURE") pool) = 4%nat
  /\ List.length (filter (in_cat "CYDI") pool) = 2%nat.

Definition blank_item : item := {| it_text := [space]; it_priority := 5; it_link := [] |}.

Definition muted_item : item := {| it_text := [65%N]; it_priority := 0; it_link := [] |}.

End Cases.

(** ** Further vocabulary

    What the statements about the rest of the handler, the payload,
    the editors and the runs of the text blocks are written with. *)

Module Vocabulary.
Import PyStr PyFloat Lit Layout Dict Quota Build Editor Payload Footer.
Import Words Tiers Rounding RoundRobin Cases.

(** The second of two lines starts with a word that did not fit at
    the end of the first. *)
Definition forced (max_chars : Z) (g1 g2 : list str) : Prop :=
  exists w rest, g2 = w :: rest /\ max_chars < len (joinsp g1) + 1 + len w.

(** Every break between two lines of [G] was forced. *)
Fixpoint forced_chain (max_chars : Z) (G : list (list str)) : Prop :=
  match G with
  | g1 :: ((g2 :: _) as tl) => forced max_chars g1 g2 /\ forced_chain max_chars tl
  | _ => True
  end.

Definition unit_one : Z := 2 ^ 1074.

(** The exact sum of the ratios, in units. *)
Definition exact_sum (ratios : dict float) : Z := sum_Z (map ival (values ratios)).



(** An exception, whichever it is. *)
Definition raises {A : Type} (r : result A) : Prop :=
  match r with
  | Raise _ => True
  | Ok _ => False
  end.

Definition two_wholes : dict float := [("a"%string, f1_0); ("b"%string, f1_0)].

(** The bullet that the handler makes of row [i] of an editor. *)
Definition bullet_of (cat : string) (linkflag : bool) (i : Z) (b : item) : bullet :=
  {| text := strip (it_text b);
     priority := it_priority b;
     link := if linkflag then strip (it_link b) else [];
     category := cat;
     idx := i |}.

(** The four editors that feed the pool, with their link flags. *)
Definition editors (what_items how_items sure_items cydi_items : list item)
    : list (string * bool * list item) :=
  [("WHAT"%string, false, what_items); ("HOW"%string, false, how_items);
   ("SURE"%string, true, sure_items); ("CYDI"%string, false, cydi_items)].

Definition high_item : item := {| it_text := [72%N]; it_priority := 5; it_link := [] |}.

Definition med_item : item := {| it_text := [77%N]; it_priority := 3; it_link := [] |}.

(** A row that reaches the pool: its bullet is not blank and High or
    Med is ticked. *)
Definition ticked (r : row) : bool :=
  truthy (strip (or_empty (bullet_cell r))) && (high_cell r || med_cell r).

(** The texts that the rows of one editor contribute to the pool. *)
Definition kept_texts (rows : list row) : list str :=
  map (fun r => strip (or_empty (bullet_cell r))) (filter ticked rows).

(** [s.startswith(p)]. *)
Fixpoint starts_with (p s : str) : bool :=
  match p, s with
  | [], _ => true
  | x :: p', y :: s' => (x =? y)%N && starts_with p' s'
  | _ :: _, [] => false
  end.

(** The runs that carry a link. *)
Definition link_labels (runs : list run) : list run :=
  filter (fun r => match run_address r with Some _ => true | None => false end) runs.

(** [i], [i + 1], ..., [i + n - 1]. *)
Definition count_from (i : Z) (n : nat) : list Z :=
  map (fun k => i + Z.of_nat k) (seq 0 n).

(** The separator that stands before every label but the first. *)
Definition separator : run := {| run_text := [space; space]; run_address := None |}.

End Vocabulary.

(** * Proofs *)

Import Words Tiers Rounding RoundRobin Cases.
Import Vocabulary.

Import PyStr.

(** ** Facts about [split] and [join] *)

Section SplitJoin.

Lemma isspace_space : isspace space = true.
Proof. reflexivity. Qed.

Lemma split_from_app_word (w cur s : str) :
  Forall (fun c => isspace c = false) w ->
  split_from cur (w ++ s) = split_from (cur ++ w) s.
Proof.
  intros Hw. revert cur.
  induction Hw as [| c w Hc _ IH]; intros cur; simpl.
  - now rewrite app_nil_r.
  - rewrite Hc, IH, <- app_assoc. reflexivity.
Qed.

Lemma split_from_words (cur s : str) :
  Forall (fun c => isspace c = false) cur ->
  Forall is_word (split_from cur s).
Proof.
  revert cur. induction s as [| c s IH]; intros cur Hcur; simpl.
  - destruct cur; constructor; [| constructor].
    split; [discriminate | assumption].
  - destruct (isspace c) eqn:Hc.
    + destruct cur.
      * apply IH. constructor.
      * constructor; [split; [discriminate | assumption] |].
        apply IH. constructor.
    + apply IH. apply Forall_app. split; [assumption |].
      constructor; [assumption | constructor].
Qed.

Lemma split_words (s : str) : Forall is_word (split s).
Proof. apply split_from_words. constructor. Qed.

(** Reading a line of words that is followed by a space or by nothing
    gives back the words. *)
Lemma split_joinsp_then (g : list str) (s : str) :
  Forall is_word g ->
  s = [] \/ (exists s', s = space :: s') ->
  split (joinsp g ++ s) = g ++ split s.
Proof.
  unfold split, joinsp. intros Hg Hs.
  induction Hg as [| w g [Hne Hw] Hg IH]; [reflexivity |].
  destruct g as [| w' g'].
  - simpl join. rewrite split_from_app_word by assumption. simpl.
    destruct Hs as [-> | [s' ->]]; simpl.
    + destruct w; [contradiction | reflexivity].
    + destruct w; [contradiction | reflexivity].
  - change (join [space] (w :: w' :: g'))
      with (w ++ [space] ++ join [space] (w' :: g')).
    rewrite <- !app_assoc.
    rewrite split_from_app_word by assumption. simpl.
    destruct w; [contradiction |]. simpl in IH. rewrite IH. reflexivity.
Qed.

Lemma split_nil : split [] = [].
Proof. reflexivity. Qed.

Lemma split_space (s : str) : split (space :: s) = split s.
Proof. reflexivity. Qed.

(** Lines of words, joined by spaces and split again, give back the
    words; an empty line contributes nothing. *)
Lemma split_join_lines (groups : list (list str)) :
  Forall (Forall is_word) groups ->
  split (joinsp (map joinsp groups)) = List.concat groups.
Proof.
  intros H. induction H as [| g groups Hg _ IH]; [reflexivity |].
  destruct groups as [| g' groups'].
  - change (split (joinsp g) = g ++ []).
    rewrite <- (app_nil_r (joinsp g)).
    rewrite split_joinsp_then by auto. reflexivity.
  - change (joinsp (map joinsp (g :: g' :: groups')))
      with (joinsp g ++ [space] ++ joinsp (map joinsp (g' :: groups'))).
    rewrite split_joinsp_then; [| assumption | right; eexists; reflexivity].
    change ([space] ++ joinsp (map joinsp (g' :: groups')))
      with (space :: joinsp (map joinsp (g' :: groups'))).
    rewrite split_space, IH. reflexivity.
Qed.

Lemma len_joinsp_cons (w : str) (g : list str) :
  g <> [] -> len (joinsp (w :: g)) = len w + 1 + len (joinsp g).
Proof.
  intros Hg. destruct g as [| w' g']; [contradiction |].
  change (joinsp (w :: w' :: g')) with (w ++ [space] ++ joinsp (w' :: g')).
  unfold len. rewrite !length_app. simpl List.length. lia.
Qed.

Lemma joinsp_snoc (g : list str) (w : str) :
  g <> [] -> joinsp (g ++ [w]) = joinsp g ++ [space] ++ w.
Proof.
  induction g as [| x g IH]; [contradiction |]. intros _.
  destruct g as [| y g'].
  - reflexivity.
  - change (joinsp ((x :: y :: g') ++ [w]))
      with (x ++ [space] ++ joinsp ((y :: g') ++ [w])).
    rewrite IH by discriminate.
    change (joinsp (x :: y :: g')) with (x ++ [space] ++ joinsp (y :: g')).
    now rewrite <- !app_assoc.
Qed.

End SplitJoin.

Import PyStr.

(** ** The wrappers *)

Section Wrappers.

Variable max_chars : Z.

Lemma wrap_chars_loop_groups (ws : list str) :
  forall (lines : list str) (gcur : list str),
    gcur <> [] -> within_budget max_chars gcur ->
    exists groups glast,
      wrap_chars_loop max_chars ws lines (joinsp gcur)
        = (lines ++ map joinsp groups, joinsp glast)
      /\ gcur ++ ws = List.concat groups ++ glast
      /\ glast <> []
      /\ Forall (fun g => g <> [] /\ within_budget max_chars g) (groups ++ [glast]).
Proof.
  induction ws as [| w ws IH]; intros lines gcur Hne Hb.
  - exists [], gcur. simpl. rewrite !app_nil_r.
    repeat split; auto.
  - change (wrap_chars_loop max_chars (w :: ws) lines (joinsp gcur))
      with (if len (joinsp gcur) + 1 + len w <=? max_chars
            then wrap_chars_loop max_chars ws lines (joinsp gcur ++ [space] ++ w)
            else wrap_chars_loop max_chars ws (lines ++ [joinsp gcur]) w).
    destruct (len (joinsp gcur) + 1 + len w <=? max_chars) eqn:Hfit.
    + apply Z.leb_le in Hfit.
      rewrite <- joinsp_snoc by assumption.
      destruct (IH lines (gcur ++ [w])) as (groups & glast & Hrun & Hcat & Hl & Hall).
      * now destruct gcur.
      * intros _. rewrite joinsp_snoc by assumption.
        unfold len in *. rewrite !length_app. simpl List.length. lia.
      * exists groups, glast. rewrite <- app_assoc in Hcat. auto.
    + destruct (IH (lines ++ [joinsp gcur]) [w]) as (groups & glast & Hrun & Hcat & Hl & Hall).
      * discriminate.
      * intros H. simpl in H. lia.
      * exists (gcur :: groups), glast.
        change (joinsp [w]) with w in Hrun. rewrite Hrun.
        simpl. rewrite <- !app_assoc. simpl.
        repeat split; auto.
        now rewrite <- Hcat.
Qed.

Lemma wrap_chars_groups (text : str) :
  exists groups,
    wrap_chars text max_chars = map joinsp groups
    /\ List.concat groups = split text
    /\ Forall (fun g => (g <> [] \/ split text = []) /\ within_budget max_chars g) groups.
Proof.
  unfold wrap_chars. destruct (split text) as [| w0 ws] eqn:Hsp.
  - exists [[]]. repeat split; auto.
    constructor; [| constructor]. split; [now right |].
    intros H. simpl in H. lia.
  - destruct (wrap_chars_loop_groups ws [] [w0]) as (groups & glast & Hrun & Hcat & Hl & Hall).
    + discriminate.
    + intros H. simpl in H. lia.
    + change (joinsp [w0]) with w0 in Hrun. rewrite Hrun. simpl.
      exists (groups ++ [glast]). repeat split.
      * now rewrite map_app.
      * rewrite concat_app. simpl. rewrite app_nil_r. now rewrite <- Hcat.
      * eapply Forall_impl; [| exact Hall]. intros g [H1 H2]. auto.
Qed.

End Wrappers.

Section WordCount.

Variable max_words : Z.

Lemma wrap_by_wordcount_loop_groups (ws : list str) :
  forall (lines : list str) (bucket : list str),
    exists groups glast,
      wrap_by_wordcount_loop max_words ws lines bucket
        = (lines ++ map joinsp groups, glast)
      /\ bucket ++ ws = List.concat groups ++ glast.
Proof.
  induction ws as [| w ws IH]; intros lines bucket.
  - exists [], bucket. simpl. now rewrite !app_nil_r.
  - change (wrap_by_wordcount_loop max_words (w :: ws) lines bucket)
      with (if Z.of_nat (List.length bucket) <? max_words
            then wrap_by_wordcount_loop max_words ws lines (bucket ++ [w])
            else wrap_by_wordcount_loop max_words ws
                   (lines ++ [join [space] bucket]) [w]).
    destruct (Z.of_nat (List.length bucket) <? max_words).
    + destruct (IH lines (bucket ++ [w])) as (groups & glast & Hrun & Hcat).
      exists groups, glast. rewrite <- app_assoc in Hcat. auto.
    + destruct (IH (lines ++ [join [space] bucket]) [w])
        as (groups & glast & Hrun & Hcat).
      exists (bucket :: groups), glast. rewrite Hrun.
      simpl. rewrite <- !app_assoc. simpl. split; [reflexivity |].
      now rewrite <- Hcat.
Qed.

Lemma wrap_by_wordcount_groups (text : str) :
  exists groups,
    wrap_by_wordcount text max_words = map joinsp groups
    /\ List.concat groups = split text.
Proof.
  unfold wrap_by_wordcount. destruct (split text) as [| w0 ws] eqn:Hsp.
  - exists [[]]. auto.
  - destruct (wrap_by_wordcount_loop_groups (w0 :: ws) [] [])
      as (groups & glast & Hrun & Hcat).
    rewrite Hrun. simpl app in *. destruct glast as [| x glast].
    + exists groups. rewrite app_nil_r in Hcat. auto.
    + exists (groups ++ [x :: glast]). rewrite map_app, concat_app.
      simpl. rewrite app_nil_r. auto.
Qed.

End WordCount.

Lemma concat_groups_words (groups : list (list str)) (text : str) :
  List.concat groups = split text -> Forall (Forall is_word) groups.
Proof.
  intros H. pose proof (split_words text) as Hw. rewrite <- H in Hw.
  clear H. induction groups as [| g groups IH]; constructor.
  - simpl in Hw. apply Forall_app in Hw. tauto.
  - apply IH. simpl in Hw. apply Forall_app in Hw. tauto.
Qed.

Lemma split_joinsp (g : list str) : Forall is_word g -> split (joinsp g) = g.
Proof.
  intros H. rewrite <- (app_nil_r (joinsp g)).
  rewrite split_joinsp_then by auto. apply app_nil_r.
Qed.

Lemma map_split_joinsp (groups : list (list str)) :
  Forall (Forall is_word) groups -> map split (map joinsp groups) = groups.
Proof.
  intros H. induction H as [| g groups Hg _ IH]; [reflexivity |].
  simpl. now rewrite split_joinsp, IH.
Qed.

(** C6: the lines of wrap_chars, split into words and put end to
    end, are the words of the text, so no word is split or lost; a
    line of two or more words is no longer than max_chars, and a line
    longer than max_chars has a single word, one of the words of the
    text. *)
Theorem wrap_chars_budget (text : str) (max_chars : Z) :
  List.concat (map split (wrap_chars text max_chars)) = split text
  /\ Forall (fun line =>
       ((2 <= List.length (split line))%nat -> len line <= max_chars)
       /\ (max_chars < len line -> (List.length (split line) <= 1)%nat)
       /\ (0 <= max_chars -> max_chars < len line ->
           split line = [line] /\ In line (split text)))
     (wrap_chars text max_chars).
Proof.
  destruct (wrap_chars_groups max_chars text) as (groups & Hrun & Hcat & Hall).
  pose proof (concat_groups_words _ _ Hcat) as Hwords.
  rewrite Hrun. split.
  - now rewrite map_split_joinsp.
  - apply Forall_map. rewrite Forall_forall in *. intros g Hg.
    destruct (Hall g Hg) as [Hne Hb]. specialize (Hwords g Hg).
    rewrite split_joinsp by assumption. unfold within_budget in Hb.
    split; [exact Hb |]. split.
    + intros Hlong. destruct (le_lt_dec (List.length g) 1); [assumption |].
      assert (len (joinsp g) <= max_chars) by (apply Hb; lia). lia.
    + intros Hpos Hlong.
      destruct g as [| w [| w' g']].
      * simpl in Hlong. unfold len in Hlong. simpl in Hlong. lia.
      * split; [reflexivity |]. rewrite <- Hcat. apply in_concat.
        exists [w]. split; [assumption | now left].
      * assert (len (joinsp (w :: w' :: g')) <= max_chars)
          by (apply Hb; simpl; lia). lia.
Qed.

(** C7: joining the lines of either wrapper with a space and
    splitting the result on white space gives back the words of the
    text, in order. *)
Theorem wrap_round_trip (text : str) (max_chars max_words : Z) :
  split (join [space] (wrap_chars text max_chars)) = split text
  /\ split (join [space] (wrap_by_wordcount text max_words)) = split text.
Proof.
  split.
  - destruct (wrap_chars_groups max_chars text) as (groups & Hrun & Hcat & _).
    rewrite Hrun. fold (joinsp (map joinsp groups)).
    rewrite split_join_lines by (eapply concat_groups_words; eassumption).
    assumption.
  - destruct (wrap_by_wordcount_groups max_words text) as (groups & Hrun & Hcat).
    rewrite Hrun. fold (joinsp (map joinsp groups)).
    rewrite split_join_lines by (eapply concat_groups_words; eassumption).
    assumption.
Qed.

Import PyStr.

(** ** More on the wrappers *)

Section Greedy.

Variable max_chars : Z.

Lemma wrap_chars_loop_forced (ws : list str) :
  forall (lines : list str) (gcur : list str),
    gcur <> [] ->
    exists groups glast tail,
      wrap_chars_loop max_chars ws lines (joinsp gcur)
        = (lines ++ map joinsp groups, joinsp glast)
      /\ gcur ++ ws = List.concat groups ++ glast
      /\ hd [] (groups ++ [glast]) = gcur ++ tail
      /\ forced_chain max_chars (groups ++ [glast]).
Proof.
  induction ws as [| w ws IH]; intros lines gcur Hne.
  - exists [], gcur, []. simpl. rewrite !app_nil_r. auto.
  - change (wrap_chars_loop max_chars (w :: ws) lines (joinsp gcur))
      with (if len (joinsp gcur) + 1 + len w <=? max_chars
            then wrap_chars_loop max_chars ws lines (joinsp gcur ++ [space] ++ w)
            else wrap_chars_loop max_chars ws (lines ++ [joinsp gcur]) w).
    destruct (len (joinsp gcur) + 1 + len w <=? max_chars) eqn:Hfit.
    + rewrite <- joinsp_snoc by assumption.
      destruct (IH lines (gcur ++ [w])) as (groups & glast & tail & Hrun & Hcat & Hhd & Hch).
      * now destruct gcur.
      * exists groups, glast, (w :: tail). rewrite <- !app_assoc in *. auto.
    + apply Z.leb_gt in Hfit.
      destruct (IH (lines ++ [joinsp gcur]) [w])
        as (groups & glast & tail & Hrun & Hcat & Hhd & Hch).
      * discriminate.
      * exists (gcur :: groups), glast, [].
        change (joinsp [w]) with w in Hrun. rewrite Hrun.
        cbn [map List.concat app hd]. rewrite <- !app_assoc, app_nil_r.
        split; [reflexivity |]. split; [now rewrite <- Hcat |].
        split; [reflexivity |].
        destruct (groups ++ [glast]) as [| g2 tl] eqn:E.
        { now destruct groups. }
        cbn [forced_chain hd] in *. split; [| exact Hch].
        exists w, tail. split; [exact Hhd | lia].
Qed.

Lemma forced_chain_adjacent (G : list (list str)) :
  forall pre g1 g2 post,
    G = pre ++ g1 :: g2 :: post -> forced_chain max_chars G -> forced max_chars g1 g2.
Proof.
  induction G as [| g G IH]; intros pre g1 g2 post HG Hch.
  - now destruct pre.
  - destruct pre as [| p pre]; cbn [app] in HG; injection HG as -> ->.
    + cbn [forced_chain] in Hch. tauto.
    + apply (IH pre g1 g2 post eq_refl).
      destruct (pre ++ g1 :: g2 :: post) eqn:E; [now destruct pre |].
      cbn [forced_chain] in Hch. tauto.
Qed.

End Greedy.

Lemma map_eq_adjacent {A B : Type} (f : A -> B) (G : list A) :
  forall (pre : list B) (l1 l2 : B) (post : list B),
    map f G = pre ++ l1 :: l2 :: post ->
    exists Gpre g1 g2 Gpost,
      G = Gpre ++ g1 :: g2 :: Gpost /\ f g1 = l1 /\ f g2 = l2.
Proof.
  intros pre l1 l2 post H.
  apply map_eq_app in H. destruct H as (Gpre & G1 & -> & _ & H).
  destruct G1 as [| g1 [| g2 Gpost]]; try discriminate.
  cbn [map] in H. injection H as H1 H2 _.
  exists Gpre, g1, g2, Gpost. auto.
Qed.

(** X13: wrap_chars breaks a line only when it has to: of two
    successive lines, the first word of the second did not fit at the
    end of the first within max_chars. *)
Theorem wrap_chars_greedy (text : str) (max_chars : Z)
    (pre : list str) (l1 l2 : str) (post : list str) :
  wrap_chars text max_chars = pre ++ l1 :: l2 :: post ->
  exists w rest,
    split l2 = w :: rest /\ max_chars < len l1 + 1 + len w.
Proof.
  unfold wrap_chars. destruct (split text) as [| w0 ws] eqn:Hsp.
  - intros H. destruct pre as [| ? [| ? ?]]; discriminate.
  - destruct (wrap_chars_loop_forced max_chars ws [] [w0])
      as (groups & glast & tail & Hrun & Hcat & _ & Hch); [discriminate |].
    change (joinsp [w0]) with w0 in Hrun. rewrite Hrun. cbn [app].
    intros H.
    assert (Hmap : map joinsp (groups ++ [glast]) = pre ++ l1 :: l2 :: post)
      by (now rewrite map_app).
    destruct (map_eq_adjacent _ _ _ _ _ _ Hmap) as (Gpre & g1 & g2 & Gpost & HG & <- & <-).
    destruct (forced_chain_adjacent max_chars _ _ _ _ _ HG Hch) as (w & rest & -> & Hlt).
    exists w, rest. split; [| exact Hlt].
    apply split_joinsp.
    assert (Hwords : Forall (Forall is_word) (groups ++ [glast])).
    { apply (concat_groups_words _ text). rewrite concat_app. cbn [List.concat].
      rewrite app_nil_r, <- Hcat, Hsp. reflexivity. }
    rewrite HG in Hwords. apply Forall_app in Hwords. destruct Hwords as [_ Hw].
    inversion Hw as [| ? ? _ Hw']; subst. now inversion Hw'.
Qed.

Lemma wrap_chars_greedy_witness :
  exists w rest,
    split (of_string "cc dd") = w :: rest
    /\ 5 < len (of_string "aa bb") + 1 + len w.
Proof.
  apply (wrap_chars_greedy (of_string "aa bb cc dd") 5 [] _ _ []).
  reflexivity.
Defined.

(** X12: wrap_chars returns one empty line for a text without a
    word; otherwise it returns at least one line and at most as many
    lines as words, none of them empty, each its own words joined by
    single spaces. *)
Theorem wrap_chars_lines (text : str) (max_chars : Z) :
  let lines := wrap_chars text max_chars in
  (split text = [] -> lines = [[]])
  /\ (1 <= List.length lines)%nat
  /\ (split text <> [] ->
        (List.length lines <= List.length (split text))%nat
        /\ Forall (fun line => line <> [] /\ line = join [space] (split line)) lines).
Proof.
  intros lines. subst lines.
  destruct (wrap_chars_groups max_chars text) as (groups & Hrun & Hcat & Hall).
  pose proof (concat_groups_words _ _ Hcat) as Hwords.
  split; [| split].
  - intros Hnil. unfold wrap_chars. now rewrite Hnil.
  - unfold wrap_chars. destruct (split text); [simpl; lia |].
    destruct (wrap_chars_loop _ _ _ _). rewrite length_app. simpl. lia.
  - intros Hne. rewrite Hrun. rewrite length_map, <- Hcat.
    split.
    + clear - Hall Hne. induction Hall as [| g groups [[Hg | Hg] _] _ IH];
        [simpl; lia | | contradiction].
      cbn [List.concat]. rewrite length_app. destruct g; [contradiction |].
      simpl. lia.
    + rewrite Forall_map, Forall_forall. intros g Hg.
      rewrite Forall_forall in Hall, Hwords.
      destruct (Hall g Hg) as [[Hgne | Hnil] _]; [| contradiction].
      specialize (Hwords g Hg). rewrite split_joinsp by assumption.
      split; [| reflexivity].
      destruct g as [| w g']; [contradiction |].
      inversion Hwords as [| ? ? [Hw _] _]; subst.
      unfold joinsp. cbn [join]. destruct g'; [assumption |].
      destruct w; [contradiction | discriminate].
Qed.

Section Buckets.

Variable max_words : Z.
Hypothesis max_words_pos : 1 <= max_words.

Lemma wrap_by_wordcount_loop_full (ws : list str) :
  forall (lines : list str) (bucket : list str),
    Z.of_nat (List.length bucket) <= max_words ->
    exists groups glast,
      wrap_by_wordcount_loop max_words ws lines bucket
        = (lines ++ map joinsp groups, glast)
      /\ bucket ++ ws = List.concat groups ++ glast
      /\ Forall (fun g => Z.of_nat (List.length g) = max_words) groups
      /\ Z.of_nat (List.length glast) <= max_words
      /\ (bucket ++ ws <> [] -> glast <> []).
Proof.
  induction ws as [| w ws IH]; intros lines bucket Hb.
  - exists [], bucket. simpl. rewrite !app_nil_r. auto.
  - change (wrap_by_wordcount_loop max_words (w :: ws) lines bucket)
      with (if Z.of_nat (List.length bucket) <? max_words
            then wrap_by_wordcount_loop max_words ws lines (bucket ++ [w])
            else wrap_by_wordcount_loop max_words ws
                   (lines ++ [join [space] bucket]) [w]).
    destruct (Z.of_nat (List.length bucket) <? max_words) eqn:Hlt.
    + apply Z.ltb_lt in Hlt.
      destruct (IH lines (bucket ++ [w]))
        as (groups & glast & Hrun & Hcat & Hfull & Hlast & Hne).
      { rewrite length_app. simpl. lia. }
      exists groups, glast. rewrite <- app_assoc in Hcat, Hne. auto.
    + apply Z.ltb_ge in Hlt.
      destruct (IH (lines ++ [join [space] bucket]) [w])
        as (groups & glast & Hrun & Hcat & Hfull & Hlast & Hne).
      { simpl. lia. }
      exists (bucket :: groups), glast. rewrite Hrun.
      cbn [map List.concat]. rewrite <- !app_assoc. cbn [app].
      split; [reflexivity |]. split; [now rewrite <- Hcat |].
      split; [constructor; [lia | assumption] |].
      split; [assumption |]. intros _. apply Hne. discriminate.
Qed.

End Buckets.

Lemma length_concat_full {A : Type} (groups : list (list A)) (k : Z) :
  Forall (fun g => Z.of_nat (List.length g) = k) groups ->
  Z.of_nat (List.length (List.concat groups)) = k * Z.of_nat (List.length groups).
Proof.
  induction 1 as [| g groups Hg _ IH]; [simpl; lia |].
  cbn [List.concat List.length]. rewrite length_app. lia.
Qed.

(** X10: for max_words >= 1 and a text with W words, W >= 1,
    wrap_by_wordcount returns ceil(W / max_words) lines; every line
    but the last has exactly max_words words, and the last has
    between 1 and max_words. *)
Theorem wrap_by_wordcount_lines (text : str) (max_words : Z) :
  1 <= max_words -> split text <> [] ->
  let W := Z.of_nat (List.length (split text)) in
  exists init last,
    wrap_by_wordcount text max_words = init ++ [last]
    /\ Z.of_nat (List.length init) + 1 = (W + max_words - 1) / max_words
    /\ Forall (fun line => Z.of_nat (List.length (split line)) = max_words) init
    /\ 1 <= Z.of_nat (List.length (split last)) <= max_words.
Proof.
  intros Hmax Hne W. unfold wrap_by_wordcount.
  destruct (split text) as [| w0 ws] eqn:Hsp; [contradiction |].
  destruct (wrap_by_wordcount_loop_full max_words Hmax (w0 :: ws) [] [])
    as (groups & glast & Hrun & Hcat & Hfull & Hlast & Hnl); [simpl; lia |].
  rewrite Hrun. cbn [app] in *. specialize (Hnl ltac:(discriminate)).
  destruct glast as [| x glast]; [contradiction |].
  assert (Hwords : Forall (Forall is_word) (groups ++ [x :: glast])).
  { apply (concat_groups_words _ text). rewrite concat_app. cbn [List.concat].
    rewrite app_nil_r, <- Hcat, Hsp. reflexivity. }
  apply Forall_app in Hwords. destruct Hwords as [Hwg Hwl].
  inversion Hwl as [| ? ? Hwl' _]; subst.
  exists (map joinsp groups), (joinsp (x :: glast)).
  split; [reflexivity |]. rewrite length_map, split_joinsp by assumption.
  split; [| split].
  - subst W. rewrite Hcat, length_app, Nat2Z.inj_add.
    rewrite (length_concat_full groups max_words Hfull).
    set (g := Z.of_nat (List.length groups)) in *.
    set (r := Z.of_nat (List.length (x :: glast))) in *.
    assert (Hr : 1 <= r) by (subst r; simpl; lia).
    apply Z.div_unique with (r := r - 1); lia.
  - rewrite Forall_map. rewrite Forall_forall in *. intros g Hg.
    rewrite split_joinsp by auto. auto.
  - simpl in *. lia.
Qed.

Lemma wrap_by_wordcount_lines_witness :
  exists init last,
    wrap_by_wordcount (of_string "a b c d e") 2 = init ++ [last]
    /\ Z.of_nat (List.length init) + 1 = 3.
Proof.
  destruct (wrap_by_wordcount_lines (of_string "a b c d e") 2)
    as (init & last & Hrun & Hlen & _).
  - lia.
  - discriminate.
  - exists init, last. split; [exact Hrun | exact Hlen].
Defined.

Lemma wrap_by_wordcount_loop_never (max_words : Z) (ws : list str) :
  max_words <= 0 ->
  forall (lines bucket : list str) (w : str),
    wrap_by_wordcount_loop max_words (ws ++ [w]) lines bucket
      = (lines ++ joinsp bucket :: ws, [w]).
Proof.
  intros Hmax. induction ws as [| x ws IH]; intros lines bucket w.
  - cbn [app wrap_by_wordcount_loop].
    now rewrite (proj2 (Z.ltb_ge _ _)) by lia.
  - cbn [app wrap_by_wordcount_loop].
    rewrite (proj2 (Z.ltb_ge _ _)) by lia.
    rewrite IH, <- app_assoc. reflexivity.
Qed.

(** X11: with max_words zero or negative and a text that has words,
    wrap_by_wordcount returns an empty first line and then every
    word on a line of its own. *)
Theorem wrap_by_wordcount_nonpositive (text : str) (max_words : Z) :
  max_words <= 0 -> split text <> [] ->
  wrap_by_wordcount text max_words = [] :: split text.
Proof.
  intros Hmax Hne. unfold wrap_by_wordcount.
  destruct (split text) as [| w0 ws] eqn:Hsp; [contradiction |].
  destruct (exists_last (l := w0 :: ws) ltac:(discriminate)) as (ws' & w & Hlast).
  rewrite Hlast, wrap_by_wordcount_loop_never by assumption.
  reflexivity.
Qed.

Lemma wrap_by_wordcount_nonpositive_witness :
  wrap_by_wordcount (of_string "two words") 0
    = [of_string ""; of_string "two"; of_string "words"].
Proof.
  apply (wrap_by_wordcount_nonpositive (of_string "two words") 0).
  - lia.
  - discriminate.
Defined.

(** ** Facts about dictionaries *)

Module DictFacts.
Import Dict.

Lemma get_set_eq {V : Type} (k : string) (v : V) (d : dict V) :
  get k (set k v d) = Ok v.
Proof.
  induction d as [| [k' v'] d IH]; simpl.
  - now rewrite String.eqb_refl.
  - destruct (String.eqb k' k) eqn:E; simpl; rewrite E; auto.
Qed.

Lemma get_set_neq {V : Type} (k k' : string) (v : V) (d : dict V) :
  k <> k' -> get k' (set k v d) = get k' d.
Proof.
  intros Hne. induction d as [| [k0 v0] d IH]; simpl.
  - destruct (String.eqb k k') eqn:E; [| reflexivity].
    apply String.eqb_eq in E. contradiction.
  - destruct (String.eqb k0 k) eqn:E; simpl.
    + apply String.eqb_eq in E. subst k0.
      destruct (String.eqb k k') eqn:E'; [| reflexivity].
      apply String.eqb_eq in E'. contradiction.
    + now rewrite IH.
Qed.

Lemma get_In {V : Type} (k : string) (d : dict V) :
  In k (keys d) -> exists v, get k d = Ok v.
Proof.
  induction d as [| [k' v'] d IH]; simpl; [contradiction |].
  intros [-> | H].
  - rewrite String.eqb_refl. eauto.
  - destruct (String.eqb k' k); eauto.
Qed.

Lemma get_Ok_In {V : Type} (k : string) (v : V) (d : dict V) :
  get k d = Ok v -> In (k, v) d.
Proof.
  induction d as [| [k' v'] d IH]; simpl; [discriminate |].
  destruct (String.eqb k' k) eqn:E.
  - apply String.eqb_eq in E. subst. intros [= ->]. now left.
  - auto.
Qed.

Lemma get_NoDup {V : Type} (k : string) (v : V) (d : dict V) :
  NoDup (keys d) -> In (k, v) d -> get k d = Ok v.
Proof.
  induction d as [| [k' v'] d IH]; simpl; [contradiction |].
  intros Hnd [[= -> ->] | Hin].
  - now rewrite String.eqb_refl.
  - inversion Hnd as [| ? ? Hnotin Hnd']; subst.
    destruct (String.eqb k' k) eqn:E.
    + apply String.eqb_eq in E. subst k'. exfalso. apply Hnotin.
      change k with (fst (k, v)). now apply in_map.
    + auto.
Qed.

Lemma keys_set_In {V : Type} (k : string) (v : V) (d : dict V) :
  In k (keys d) -> keys (set k v d) = keys d.
Proof.
  induction d as [| [k' v'] d IH]; simpl; [contradiction |].
  intros H. destruct (String.eqb k' k) eqn:E; simpl; [reflexivity |].
  f_equal. apply IH. destruct H as [-> | H]; [| assumption].
  now rewrite String.eqb_refl in E.
Qed.

End DictFacts.

(** ** The bullet selector *)

Module SelectFacts.
Import Dict DictFacts Build.

(** *** Splitting the pool *)

Lemma by_cat_append_get (b : bullet) (d : dict tiers) :
  In (category b) (keys d) ->
  exists d',
    by_cat_append b d = Ok d'
    /\ keys d' = keys d
    /\ forall c, get c d' =
         bind (get c d) (fun t => Ok (if in_cat c b then add_tier b t else t)).
Proof.
  induction d as [| [c0 [h m]] d IH]; simpl; [contradiction |].
  intros Hin. destruct (String.eqb c0 (category b)) eqn:E.
  - apply String.eqb_eq in E. subst c0.
    eexists. split; [reflexivity |]. split; [reflexivity |].
    intros c. simpl. unfold in_cat. destruct (String.eqb (category b) c) eqn:E'.
    + apply String.eqb_eq in E'. subst c. rewrite String.eqb_refl. simpl.
      unfold add_tier. simpl. now destruct (5 <=? priority b).
    + simpl. destruct (get c d) as [t |]; simpl; [| reflexivity].
      rewrite String.eqb_sym, E'. reflexivity.
  - destruct IH as (d' & Hrun & Hkeys & Hget).
    { destruct Hin as [-> | Hin]; [| assumption].
      now rewrite String.eqb_refl in E. }
    rewrite Hrun. simpl. eexists. split; [reflexivity |]. split.
    + simpl. now rewrite Hkeys.
    + intros c. simpl. destruct (String.eqb c0 c) eqn:E'.
      * apply String.eqb_eq in E'. subst c. simpl. unfold in_cat. now rewrite E.
      * apply Hget.
Qed.

Lemma filter_in_tier_cons (c : string) (high : bool) (b : bullet) (l : list bullet) :
  filter (in_tier c high) (b :: l) =
    (if in_tier c high b then [b] else []) ++ filter (in_tier c high) l.
Proof. simpl. now destruct (in_tier c high b). Qed.

Lemma split_pool_get (pool : list bullet) :
  forall d : dict tiers,
    Forall (fun b => In (category b) (keys d)) pool ->
    exists d',
      split_pool pool d = Ok d'
      /\ keys d' = keys d
      /\ forall c t, get c d = Ok t ->
           get c d' = Ok (fst t ++ filter (in_tier c true) pool,
                          snd t ++ filter (in_tier c false) pool).
Proof.
  induction pool as [| b pool IH]; intros d Hall.
  - exists d. simpl. repeat split; auto.
    intros c [h m] ->. simpl. now rewrite !app_nil_r.
  - inversion Hall as [| ? ? Hb Hrest]; subst.
    destruct (by_cat_append_get b d Hb) as (d1 & Hrun1 & Hkeys1 & Hget1).
    destruct (IH d1) as (d2 & Hrun2 & Hkeys2 & Hget2).
    { now rewrite Hkeys1. }
    exists d2. split; [simpl; rewrite Hrun1; exact Hrun2 |].
    split; [congruence |].
    intros c t Ht. specialize (Hget1 c). rewrite Ht in Hget1. simpl in Hget1.
    rewrite (Hget2 c _ Hget1). rewrite !filter_in_tier_cons.
    unfold in_tier, is_high, add_tier.
    destruct (in_cat c b); simpl; [| reflexivity].
    destruct (5 <=? priority b); simpl; now rewrite <- ?app_assoc.
Qed.

Lemma get_by_cat_init (c : string) :
  In c CATEGORIES -> get c by_cat_init = Ok ([], []).
Proof.
  intros H. simpl in H.
  destruct H as [<- | [<- | [<- | [<- | []]]]]; reflexivity.
Qed.

Lemma get_sort_tiers (c : string) (d : dict tiers) :
  get c (sort_tiers d) =
    bind (get c d) (fun t => Ok (sort_by_idx (fst t), sort_by_idx (snd t))).
Proof.
  induction d as [| [c0 t] d IH]; simpl; [reflexivity |].
  destruct (String.eqb c0 c); auto.
Qed.

(** *** Sorting by index *)

Lemma insert_by_idx_perm (x : bullet) (l : list bullet) :
  Permutation (insert_by_idx x l) (x :: l).
Proof.
  induction l as [| y l IH]; simpl; [reflexivity |].
  destruct (idx y <? idx x); [| reflexivity].
  rewrite IH. apply perm_swap.
Qed.

Lemma sort_by_idx_perm (l : list bullet) : Permutation (sort_by_idx l) l.
Proof.
  induction l as [| x l IH]; simpl; [reflexivity |].
  rewrite insert_by_idx_perm. now constructor.
Qed.

Lemma insert_by_idx_sorted (x : bullet) (l : list bullet) :
  StronglySorted idx_le l -> StronglySorted idx_le (insert_by_idx x l).
Proof.
  induction 1 as [| y l Hl IH Hy]; simpl.
  - repeat constructor.
  - destruct (idx y <? idx x) eqn:E.
    + constructor; [assumption |].
      apply Z.ltb_lt in E.
      rewrite Forall_forall. intros z Hz.
      apply (Permutation_in _ (insert_by_idx_perm x l)) in Hz.
      destruct Hz as [<- | Hz].
      * unfold idx_le. lia.
      * rewrite Forall_forall in Hy. auto.
    + apply Z.ltb_ge in E. constructor.
      * now constructor.
      * constructor; [assumption |].
        eapply Forall_impl; [| exact Hy]. unfold idx_le. intros; lia.
Qed.

Lemma sort_by_idx_sorted (l : list bullet) : StronglySorted idx_le (sort_by_idx l).
Proof.
  induction l as [| x l IH]; simpl; [constructor |].
  now apply insert_by_idx_sorted.
Qed.

Lemma sort_by_idx_id (l : list bullet) :
  StronglySorted idx_le l -> sort_by_idx l = l.
Proof.
  induction 1 as [| x l Hl IH Hx]; [reflexivity |].
  simpl. rewrite IH. destruct l as [| y l']; [reflexivity |].
  simpl. inversion Hx as [| ? ? Hxy _]; subst. unfold idx_le in Hxy.
  destruct (idx y <? idx x) eqn:E; [| reflexivity].
  apply Z.ltb_lt in E. lia.
Qed.

End SelectFacts.

Module SelectFacts2.
Import Dict DictFacts Build SelectFacts.

(** *** Filling a cap *)

Lemma take_for_firstn (h m : list bullet) (cap : Z) :
  0 <= cap ->
  take_for (h, m) cap =
    firstn (Z.to_nat cap) h ++ firstn (Z.to_nat cap - List.length h) m.
Proof.
  intros Hcap. unfold take_for, slice_to. simpl fst. simpl snd.
  destruct (0 <=? cap) eqn:E; [| apply Z.leb_gt in E; lia].
  rewrite length_firstn.
  destruct (Z.of_nat (Nat.min (Z.to_nat cap) (List.length h)) <? cap) eqn:Hlt.
  - apply Z.ltb_lt in Hlt.
    destruct (0 <=? cap - Z.of_nat (Nat.min (Z.to_nat cap) (List.length h))) eqn:E2;
      [| apply Z.leb_gt in E2; lia].
    do 2 f_equal. lia.
  - apply Z.ltb_ge in Hlt.
    replace (Z.to_nat cap - List.length h)%nat with 0%nat by lia.
    simpl. now rewrite app_nil_r.
Qed.

Lemma length_filter_tiers (c : string) (pool : list bullet) :
  List.length (filter (in_cat c) pool) =
    (List.length (filter (in_tier c true) pool)
     + List.length (filter (in_tier c false) pool))%nat.
Proof.
  unfold in_tier. induction pool as [| b pool IH]; [reflexivity |].
  simpl. destruct (in_cat c b); destruct (is_high b); simpl; lia.
Qed.

Lemma in_tier_true (c : string) (b : bullet) :
  in_tier c true b = true -> category b = c /\ 5 <= priority b.
Proof.
  unfold in_tier, in_cat, is_high. intros H.
  apply andb_true_iff in H. destruct H as [Hc Hp].
  apply String.eqb_eq in Hc. apply Bool.eqb_prop in Hp.
  apply Z.leb_le in Hp. auto.
Qed.

Lemma in_tier_false (c : string) (b : bullet) :
  in_tier c false b = true -> category b = c /\ priority b < 5.
Proof.
  unfold in_tier, in_cat, is_high. intros H.
  apply andb_true_iff in H. destruct H as [Hc Hp].
  apply String.eqb_eq in Hc. apply Bool.eqb_prop in Hp.
  apply Z.leb_gt in Hp. auto.
Qed.

Lemma filter_tier_of_cat (c : string) (high : bool) (pool : list bullet) :
  filter (in_tier c high) pool =
    filter (fun b => Bool.eqb (is_high b) high) (filter (in_cat c) pool).
Proof.
  unfold in_tier. induction pool as [| b pool IH]; [reflexivity |].
  simpl. destruct (in_cat c b); simpl; [| assumption].
  destruct (Bool.eqb (is_high b) high); now rewrite IH.
Qed.

Lemma StronglySorted_filter {A : Type} (R : A -> A -> Prop) (f : A -> bool)
    (l : list A) :
  StronglySorted R l -> StronglySorted R (filter f l).
Proof.
  induction 1 as [| x l Hl IH Hx]; simpl; [constructor |].
  destruct (f x); [| assumption].
  constructor; [assumption |].
  rewrite Forall_forall in *. intros y Hy. apply filter_In in Hy. now apply Hx.
Qed.

Lemma input_ordered_tier (c : string) (high : bool) (pool : list bullet) :
  input_ordered pool -> StronglySorted idx_le (filter (in_tier c high) pool).
Proof.
  intros H. rewrite filter_tier_of_cat. apply StronglySorted_filter, H.
Qed.

(** *** The loop over the targets *)

Lemma select_loop_get (by_cat : dict tiers) (targets : dict Z) :
  forall selected : dict (list bullet),
    NoDup (keys targets) ->
    Forall (fun kc => In (fst kc) (keys by_cat)) targets ->
    exists selected',
      select_loop by_cat targets selected = Ok selected'
      /\ (forall c cap, In (c, cap) targets ->
            exists t, get c by_cat = Ok t
                      /\ get c selected' = Ok (take_for t cap))
      /\ (forall c, ~ In c (keys targets) -> get c selected' = get c selected).
Proof.
  induction targets as [| [c0 cap0] targets IH]; intros selected Hnd Hall.
  - exists selected. simpl. repeat split; auto. contradiction.
  - inversion Hnd as [| ? ? Hnotin Hnd']; subst.
    inversion Hall as [| ? ? Hc0 Hrest]; subst. simpl in Hc0.
    destruct (get_In _ _ Hc0) as [t0 Ht0].
    destruct (IH (set c0 (take_for t0 cap0) selected) Hnd' Hrest)
      as (sel' & Hrun & Hin & Hout).
    exists sel'. simpl. rewrite Ht0. simpl. split; [assumption |]. split.
    + intros c cap [[= -> ->] | H].
      * exists t0. split; [assumption |].
        rewrite (Hout c Hnotin). apply get_set_eq.
      * auto.
    + intros c Hc. simpl in Hc.
      rewrite Hout by tauto. apply get_set_neq. tauto.
Qed.

(** *** The selection of a category *)

Lemma select_get (pool : list bullet) (targets : dict Z) :
  Forall (fun b => In (category b) CATEGORIES) pool ->
  NoDup (keys targets) ->
  Forall (fun kc => In (fst kc) CATEGORIES) targets ->
  exists selected,
    select pool targets = Ok selected
    /\ forall c cap, In (c, cap) targets ->
         get c selected =
           Ok (take_for (sort_by_idx (filter (in_tier c true) pool),
                         sort_by_idx (filter (in_tier c false) pool)) cap).
Proof.
  intros Hpool Hnd Hkeys.
  destruct (split_pool_get pool by_cat_init Hpool) as (d & Hrun & Hk & Hget).
  assert (Hk' : keys (sort_tiers d) = CATEGORIES).
  { transitivity (keys d); [| now rewrite Hk].
    unfold sort_tiers, keys. now rewrite map_map. }
  destruct (select_loop_get (sort_tiers d) targets selected_init Hnd)
    as (sel & Hsel & Hin & _).
  { now rewrite Hk'. }
  exists sel. unfold select. rewrite Hrun. simpl. split; [assumption |].
  intros c cap Hc. destruct (Hin c cap Hc) as (t & Ht & Hs).
  rewrite Hs. f_equal. f_equal.
  rewrite get_sort_tiers in Ht.
  rewrite Forall_forall in Hkeys. specialize (Hkeys _ Hc). simpl in Hkeys.
  rewrite (Hget c _ (get_by_cat_init c Hkeys)) in Ht. simpl in Ht.
  now injection Ht as <-.
Qed.

End SelectFacts2.

Module SelectFacts3.
Import Dict DictFacts Build SelectFacts SelectFacts2.

(** *** Pools built by [collect] *)

Lemma collect_from_category (items : list item) (cat : string) (lf : bool) :
  forall i, Forall (fun b => category b = cat) (collect_from i items cat lf).
Proof.
  induction items as [| x items IH]; intros i; simpl; constructor; auto.
Qed.

Lemma collect_from_sorted (items : list item) (cat : string) (lf : bool) :
  forall i,
    StronglySorted idx_le (collect_from i items cat lf)
    /\ Forall (fun b => i <= idx b) (collect_from i items cat lf).
Proof.
  induction items as [| x items IH]; intros i; simpl.
  - split; constructor.
  - destruct (IH (i + 1)) as [Hs Hge]. split.
    + constructor; [assumption |].
      eapply Forall_impl; [| exact Hge]. unfold idx_le. simpl. intros; lia.
    + constructor; [simpl; lia |].
      eapply Forall_impl; [| exact Hge]. simpl. intros; lia.
Qed.

Lemma filter_all {A : Type} (f : A -> bool) (l : list A) :
  Forall (fun x => f x = true) l -> filter f l = l.
Proof.
  induction 1 as [| x l Hx _ IH]; simpl; [reflexivity |].
  now rewrite Hx, IH.
Qed.

Lemma filter_none {A : Type} (f : A -> bool) (l : list A) :
  Forall (fun x => f x = false) l -> filter f l = [].
Proof.
  induction 1 as [| x l Hx _ IH]; simpl; [reflexivity |].
  now rewrite Hx, IH.
Qed.

Lemma filter_in_cat_collect_from (c cat : string) (items : list item) (lf : bool) :
  filter (in_cat c) (collect_from 0 items cat lf) =
    if String.eqb c cat then collect_from 0 items cat lf else [].
Proof.
  destruct (String.eqb c cat) eqn:E.
  - apply filter_all. eapply Forall_impl; [| apply collect_from_category].
    intros b Hb. unfold in_cat. now rewrite Hb.
  - apply filter_none. eapply Forall_impl; [| apply collect_from_category].
    intros b Hb. unfold in_cat. now rewrite Hb.
Qed.

Lemma collect_categories (w h s y : list item) :
  Forall (fun b => In (category b) CATEGORIES) (collect w h s y).
Proof.
  unfold collect. rewrite !Forall_app. repeat split;
    (eapply Forall_impl; [| apply collect_from_category]);
    intros b ->; simpl; tauto.
Qed.

Lemma collect_input_ordered (w h s y : list item) :
  input_ordered (collect w h s y).
Proof.
  intros c. unfold collect. rewrite !filter_app, !filter_in_cat_collect_from.
  destruct (String.eqb c "WHAT") eqn:E1.
  { apply String.eqb_eq in E1. subst c. simpl. rewrite !app_nil_r.
    apply collect_from_sorted. }
  destruct (String.eqb c "HOW") eqn:E2.
  { apply String.eqb_eq in E2. subst c. simpl. rewrite !app_nil_r.
    apply collect_from_sorted. }
  destruct (String.eqb c "SURE") eqn:E3.
  { apply String.eqb_eq in E3. subst c. simpl. rewrite !app_nil_r.
    apply collect_from_sorted. }
  destruct (String.eqb c "CYDI") eqn:E4.
  { apply String.eqb_eq in E4. subst c. simpl.
    apply collect_from_sorted. }
  constructor.
Qed.

Lemma make_pool_categories (l : list bullet) :
  Forall (fun b => In (category b) CATEGORIES) l ->
  Forall (fun b => In (category b) CATEGORIES) (make_pool l).
Proof.
  intros H. unfold make_pool. rewrite Forall_forall in *.
  intros b Hb. apply filter_In in Hb. now apply H.
Qed.

Lemma filter_comm {A : Type} (f g : A -> bool) (l : list A) :
  filter f (filter g l) = filter g (filter f l).
Proof.
  induction l as [| x l IH]; [reflexivity |].
  simpl. destruct (f x) eqn:Ef, (g x) eqn:Eg; simpl;
    rewrite ?Ef, ?Eg, IH; reflexivity.
Qed.

Lemma make_pool_input_ordered (l : list bullet) :
  input_ordered l -> input_ordered (make_pool l).
Proof.
  intros H c. unfold make_pool. rewrite filter_comm.
  apply StronglySorted_filter, H.
Qed.

End SelectFacts3.

Import Dict DictFacts Build SelectFacts SelectFacts2 SelectFacts3.

Lemma In_firstn {A : Type} (n : nat) (x : A) (l : list A) :
  In x (firstn n l) -> In x l.
Proof.
  intros H. rewrite <- (firstn_skipn n l). apply in_or_app. now left.
Qed.

(** C3: for a pool of the four categories and caps that are not
    negative, one per category, the selection of a category holds as
    many entries as the smaller of its cap and the number of pool
    entries of that category; the HIGH entries taken come before the
    MEDIUM ones, and a MEDIUM entry is taken only when every HIGH one
    is; within each tier the entries taken are the first of that tier
    in the order of their indices, which for a pool listed in input
    order is the order of the pool itself. *)
Theorem select_fills_caps_in_input_order (pool : list bullet) (targets : dict Z) :
  Forall (fun b => In (category b) CATEGORIES) pool ->
  NoDup (keys targets) ->
  Forall (fun kc => In (fst kc) CATEGORIES /\ 0 <= snd kc) targets ->
  exists selected,
    select pool targets = Ok selected
    /\ forall c cap, In (c, cap) targets ->
         exists highs meds rest_h rest_m,
           get c selected = Ok (highs ++ meds)
           /\ Z.of_nat (List.length (highs ++ meds)) =
                Z.min cap (Z.of_nat (List.length (filter (in_cat c) pool)))
           /\ Forall (fun b => category b = c /\ 5 <= priority b) highs
           /\ Forall (fun b => category b = c /\ priority b < 5) meds
           /\ (meds <> [] -> rest_h = [])
           /\ Permutation (highs ++ rest_h) (filter (in_tier c true) pool)
           /\ Permutation (meds ++ rest_m) (filter (in_tier c false) pool)
           /\ StronglySorted idx_le (highs ++ rest_h)
           /\ StronglySorted idx_le (meds ++ rest_m)
           /\ (input_ordered pool ->
                 highs ++ rest_h = filter (in_tier c true) pool
                 /\ meds ++ rest_m = filter (in_tier c false) pool).
Proof.
  intros Hpool Hnd Hall.
  destruct (select_get pool targets Hpool Hnd) as (selected & Hrun & Hget).
  { eapply Forall_impl; [| exact Hall]. intros kc [H _]. exact H. }
  exists selected. split; [assumption |].
  intros c cap Hc.
  rewrite Forall_forall in Hall. destruct (Hall _ Hc) as [_ Hcap]. simpl in Hcap.
  set (HS := sort_by_idx (filter (in_tier c true) pool)) in *.
  set (MS := sort_by_idx (filter (in_tier c false) pool)) in *.
  set (n := Z.to_nat cap).
  exists (firstn n HS), (firstn (n - List.length HS) MS),
         (skipn n HS), (skipn (n - List.length HS) MS).
  rewrite !firstn_skipn.
  assert (HpH : Permutation HS (filter (in_tier c true) pool))
    by apply sort_by_idx_perm.
  assert (HpM : Permutation MS (filter (in_tier c false) pool))
    by apply sort_by_idx_perm.
  split; [| split; [| split; [| split; [| split; [| split; [| split; [| split; [| split]]]]]]]].
  - rewrite (Hget c cap Hc). f_equal. now apply take_for_firstn.
  - rewrite length_app, !length_firstn, length_filter_tiers.
    rewrite <- (Permutation_length HpH), <- (Permutation_length HpM).
    subst n. lia.
  - rewrite Forall_forall. intros b Hb. apply in_tier_true.
    apply In_firstn in Hb. apply (Permutation_in _ HpH) in Hb.
    now apply filter_In in Hb.
  - rewrite Forall_forall. intros b Hb. apply in_tier_false.
    apply In_firstn in Hb. apply (Permutation_in _ HpM) in Hb.
    now apply filter_In in Hb.
  - intros Hm. apply skipn_all2.
    destruct (n - List.length HS)%nat eqn:E; [now contradiction Hm | lia].
  - assumption.
  - assumption.
  - apply sort_by_idx_sorted.
  - apply sort_by_idx_sorted.
  - intros Hord. subst HS MS.
    now rewrite !sort_by_idx_id by now apply input_ordered_tier.
Qed.

Lemma select_fills_caps_in_input_order_witness :
  exists selected,
    select [demo_bullet 3 0; demo_bullet 5 1; demo_bullet 5 2]
           [("WHAT"%string, 2)] = Ok selected
    /\ get "WHAT" selected = Ok [demo_bullet 5 1; demo_bullet 5 2].
Proof.
  destruct (select_fills_caps_in_input_order
              [demo_bullet 3 0; demo_bullet 5 1; demo_bullet 5 2]
              [("WHAT"%string, 2)]) as (selected & Hrun & _).
  - repeat constructor; simpl; tauto.
  - repeat constructor. simpl. tauto.
  - repeat constructor; simpl; try tauto; lia.
  - exists selected. split; [exact Hrun |].
    vm_compute in Hrun. injection Hrun as <-. reflexivity.
Defined.

(** ** Rounding to binary64 *)

Module RoundFacts.
Import PyFloat.

Lemma fexp_eq (x : Z) : fexp prec emax x = Z.max (x - 53) emin.
Proof. reflexivity. Qed.

Lemma digits2_pos_size (p : positive) : digits2_pos p = Pos.size p.
Proof. induction p; simpl; congruence. Qed.

Lemma Zdigits2_log2 (p : positive) :
  Zdigits2 (Zpos p) = Z.log2 (Zpos p) + 1.
Proof.
  simpl. rewrite digits2_pos_size. destruct p; simpl; lia.
Qed.

Lemma Zdigits2_bounds (p : positive) :
  2 ^ (Zdigits2 (Zpos p) - 1) <= Zpos p < 2 ^ Zdigits2 (Zpos p).
Proof.
  rewrite Zdigits2_log2.
  replace (Z.log2 (Zpos p) + 1 - 1) with (Z.log2 (Zpos p)) by lia.
  replace (Z.log2 (Zpos p) + 1) with (Z.succ (Z.log2 (Zpos p))) by lia.
  apply Z.log2_spec. lia.
Qed.

Lemma Zdigits2_pos (p : positive) : 1 <= Zdigits2 (Zpos p).
Proof. rewrite Zdigits2_log2. pose proof (Z.log2_nonneg (Zpos p)). lia. Qed.

(** The number of digits is determined by the bracketing powers. *)
Lemma Zdigits2_unique (p : positive) (d : Z) :
  2 ^ (d - 1) <= Zpos p < 2 ^ d -> Zdigits2 (Zpos p) = d.
Proof.
  intros H. rewrite Zdigits2_log2.
  assert (Hd : 1 <= d).
  { destruct (Z_lt_le_dec d 1) as [Hlt |]; [| assumption].
    exfalso. assert (2 ^ d <= 2 ^ 0) by (destruct (Z_lt_le_dec d 0);
      [rewrite Z.pow_neg_r by lia; simpl; lia | apply Z.pow_le_mono_r; lia]).
    simpl in *. lia. }
  rewrite (Z.log2_unique (Zpos p) (d - 1)); [lia | lia |].
  replace (Z.succ (d - 1)) with d by lia. assumption.
Qed.

Lemma Zdigits2_mul_pow2 (p : positive) (j : Z) :
  0 <= j -> forall q, Zpos q = Zpos p * 2 ^ j ->
  Zdigits2 (Zpos q) = Zdigits2 (Zpos p) + j.
Proof.
  intros Hj q Hq. apply Zdigits2_unique. rewrite Hq.
  pose proof (Zdigits2_bounds p) as [Hlo Hhi].
  pose proof (Zdigits2_pos p).
  replace (Zdigits2 (Zpos p) + j - 1) with (Zdigits2 (Zpos p) - 1 + j) by lia.
  rewrite !Z.pow_add_r by lia.
  assert (0 < 2 ^ j) by (apply Z.pow_pos_nonneg; lia).
  split; nia.
Qed.

Lemma Zdigits2_shift (p : positive) (j : Z) :
  0 <= j -> Zdigits2 (Zpos p * 2 ^ j) = Zdigits2 (Zpos p) + j.
Proof.
  intros Hj. assert (0 < 2 ^ j) by (apply Z.pow_pos_nonneg; lia).
  destruct (Zpos p * 2 ^ j) as [| q | q] eqn:Hq; try lia.
  now apply Zdigits2_mul_pow2.
Qed.

(** *** Shifting right *)

Lemma iter_pos_comm {A : Type} (f : A -> A) (p : positive) (x : A) :
  iter_pos f p (f x) = f (iter_pos f p x).
Proof.
  revert x. induction p as [p IH | p IH |]; intros x; simpl.
  - now rewrite !IH.
  - now rewrite !IH.
  - reflexivity.
Qed.

Lemma iter_pos_succ {A : Type} (f : A -> A) (p : positive) (x : A) :
  iter_pos f (Pos.succ p) x = f (iter_pos f p x).
Proof.
  revert x. induction p as [p IH | p IH |]; intros x; simpl.
  - rewrite !IH. now rewrite !iter_pos_comm.
  - now rewrite !iter_pos_comm.
  - reflexivity.
Qed.

Lemma shr_1_nonneg (m : Z) (r s : bool) :
  0 <= m ->
  shr_1 {| shr_m := m; shr_r := r; shr_s := s |} =
    {| shr_m := m / 2; shr_r := Z.odd m; shr_s := r || s |}.
Proof.
  intros Hm. rewrite <- Z.div2_div.
  destruct m as [| p | p]; [reflexivity | | lia].
  destruct p; reflexivity.
Qed.

Lemma mod_pow2_succ (m k : Z) :
  0 <= m -> 0 <= k ->
  (m mod 2 ^ (k + 1) =? 0) = negb (Z.testbit m k) && (m mod 2 ^ k =? 0).
Proof.
  intros Hm Hk.
  assert (Hp : 0 < 2 ^ k) by (apply Z.pow_pos_nonneg; lia).
  rewrite Z.testbit_odd, Z.shiftr_div_pow2 by lia.
  rewrite Z.pow_add_r by lia. change (2 ^ 1) with 2.
  rewrite Z.rem_mul_r by lia.
  pose proof (Z.mod_pos_bound m (2 ^ k) Hp).
  rewrite (Zmod_odd (m / 2 ^ k)).
  destruct (Z.odd (m / 2 ^ k)); simpl;
    destruct (m mod 2 ^ k =? 0) eqn:E1;
    rewrite ?Z.eqb_eq, ?Z.eqb_neq in *; nia.
Qed.

Lemma shr_1_shifted (m k : Z) :
  0 <= m -> 1 <= k -> shr_1 (shifted m k) = shifted m (k + 1).
Proof.
  intros Hm Hk. unfold shifted.
  assert (Hp : 0 < 2 ^ k) by (apply Z.pow_pos_nonneg; lia).
  rewrite shr_1_nonneg by (apply Z.div_pos; lia).
  f_equal.
  - rewrite Z.pow_add_r by lia. now rewrite Z.div_div by lia.
  - replace (k + 1 - 1) with k by lia.
    now rewrite Z.testbit_odd, Z.shiftr_div_pow2 by lia.
  - replace (k + 1 - 1) with (k - 1 + 1) by lia.
    rewrite mod_pow2_succ by lia. rewrite negb_andb, negb_involutive.
    reflexivity.
Qed.

Lemma shr_1_start (m : Z) :
  0 <= m ->
  shr_1 {| shr_m := m; shr_r := false; shr_s := false |} = shifted m 1.
Proof.
  intros Hm. rewrite shr_1_nonneg by assumption. unfold shifted.
  change (1 - 1) with 0.
  now rewrite Z.pow_1_r, Z.pow_0_r, Z.mod_1_r, Z.bit0_odd.
Qed.

Lemma iter_shr_1 (m : Z) (p : positive) :
  0 <= m ->
  iter_pos shr_1 p {| shr_m := m; shr_r := false; shr_s := false |}
    = shifted m (Zpos p).
Proof.
  intros Hm. induction p as [| p IH] using Pos.peano_ind.
  - simpl. now apply shr_1_start.
  - rewrite iter_pos_succ, IH, shr_1_shifted by lia.
    f_equal. lia.
Qed.

End RoundFacts.

Module RoundFacts2.
Import PyFloat RoundFacts.

(** *** Rounding to nearest even after a shift *)

Lemma shr_start (m e k : Z) :
  0 <= m -> 0 <= k ->
  shr (start m) e k = (if 0 <? k then shifted m k else start m, e + k).
Proof.
  intros Hm Hk. destruct k as [| p | p]; [| | lia].
  - simpl. f_equal. lia.
  - simpl shr. unfold start. now rewrite iter_shr_1.
Qed.

Lemma mod_pow2_split (m k : Z) :
  0 <= m -> 1 <= k ->
  m mod 2 ^ k = 2 ^ (k - 1) * Z.b2z (Z.testbit m (k - 1)) + m mod 2 ^ (k - 1).
Proof.
  intros Hm Hk.
  assert (Hp : 0 < 2 ^ (k - 1)) by (apply Z.pow_pos_nonneg; lia).
  replace k with (k - 1 + 1) at 1 by lia.
  rewrite Z.pow_add_r by lia. change (2 ^ 1) with 2.
  rewrite Z.rem_mul_r by lia.
  rewrite Z.testbit_odd, Z.shiftr_div_pow2 by lia.
  rewrite (Zmod_odd (m / 2 ^ (k - 1))).
  destruct (Z.odd (m / 2 ^ (k - 1))); simpl; lia.
Qed.

Lemma rne_spec (m k : Z) :
  0 <= m -> 0 <= k ->
  let q := m / 2 ^ k in
  let r := m mod 2 ^ k in
  (rne m k = q /\ 2 * r <= 2 ^ k) \/ (rne m k = q + 1 /\ 2 ^ k <= 2 * r).
Proof.
  intros Hm Hk q r. unfold rne.
  destruct (0 <? k) eqn:E.
  - apply Z.ltb_lt in E.
    assert (Hp : 0 < 2 ^ (k - 1)) by (apply Z.pow_pos_nonneg; lia).
    assert (H2 : 2 ^ k = 2 * 2 ^ (k - 1)).
    { replace k with (k - 1 + 1) at 1 by lia.
      rewrite Z.pow_add_r by lia. change (2 ^ 1) with 2. lia. }
    pose proof (mod_pow2_split m k Hm ltac:(lia)) as Hsplit.
    pose proof (Z.mod_pos_bound m (2 ^ (k - 1)) Hp) as Hlow.
    fold r in Hsplit. unfold shifted.
    cbn [shr_m shr_r shr_s loc_of_shr_record]. fold q.
    destruct (Z.testbit m (k - 1)); simpl Z.b2z in Hsplit;
      destruct (m mod 2 ^ (k - 1) =? 0) eqn:E0;
      rewrite ?Z.eqb_eq, ?Z.eqb_neq in E0;
      cbn [negb round_nearest_even].
    + destruct (Z.even q); [left | right]; split; auto; lia.
    + right. split; auto; lia.
    + left. split; auto; lia.
    + left. split; auto; lia.
  - apply Z.ltb_ge in E. assert (k = 0) by lia. subst k.
    left. subst q r. cbn [start shr_m shr_r shr_s loc_of_shr_record round_nearest_even].
    rewrite Z.pow_0_r, Z.div_1_r, Z.mod_1_r. split; auto; lia.
Qed.

Lemma rne_exact (m k : Z) :
  0 <= m -> 0 <= k -> m mod 2 ^ k = 0 -> rne m k = m / 2 ^ k.
Proof.
  intros Hm Hk Hr. destruct (rne_spec m k Hm Hk) as [[H _] | [H Hge]]; auto.
  rewrite Hr in Hge. assert (0 < 2 ^ k) by (apply Z.pow_pos_nonneg; lia). lia.
Qed.

(** *** The result of a rounding *)

Lemma second_shift (s : bool) (z E : Z) :
  emin <= E -> 0 <= z <= 2 ^ 53 ->
  (let '(mrs, e) := shr_fexp prec emax z E loc_Exact in
   match shr_m mrs with
   | Z0 => S754_zero s
   | Zpos m => if e <=? emax - prec then S754_finite s m e else S754_infinity s
   | Zneg _ => S754_nan
   end) = rounded s z E.
Proof.
  intros HE Hz. unfold shr_fexp, rounded.
  change (shr_record_of_loc z loc_Exact) with (start z).
  destruct z as [| p | p]; [| | lia].
  - simpl Zdigits2. rewrite fexp_eq.
    replace (Z.max (0 + E - 53) emin - E) with (Z.max (-53) (emin - E)) by lia.
    destruct (Z.max (-53) (emin - E)) eqn:Ek; try lia; reflexivity.
  - pose proof (Zdigits2_bounds p) as [Hlo Hhi].
    pose proof (Zdigits2_pos p) as Hd1.
    destruct (Zpos p <? 2 ^ 53) eqn:Elt.
    + apply Z.ltb_lt in Elt.
      assert (Hd : Zdigits2 (Zpos p) <= 53).
      { destruct (Z_le_gt_dec (Zdigits2 (Zpos p)) 53); [assumption |].
        assert (2 ^ 53 <= 2 ^ (Zdigits2 (Zpos p) - 1))
          by (apply Z.pow_le_mono_r; lia). lia. }
      rewrite fexp_eq.
      destruct (Z.max (Zdigits2 (Zpos p) + E - 53) emin - E) eqn:Ek; try lia;
        reflexivity.
    + apply Z.ltb_ge in Elt. assert (Hp : Zpos p = 2 ^ 53) by lia.
      assert (Hd : Zdigits2 (Zpos p) = 54).
      { apply Zdigits2_unique. rewrite Hp. simpl. lia. }
      rewrite Hd, fexp_eq.
      replace (Z.max (54 + E - 53) emin - E) with 1 by lia.
      rewrite shr_start by lia. simpl fst. simpl snd.
      unfold shifted. simpl shr_m. rewrite Hp. reflexivity.
Qed.

Lemma shr_1_m (mrs : shr_record) :
  0 <= shr_m mrs -> shr_m (shr_1 mrs) = shr_m mrs / 2.
Proof.
  destruct mrs as [m r s]. intros Hm. cbn [shr_m] in Hm.
  now rewrite shr_1_nonneg.
Qed.

Lemma iter_shr_1_m (mrs : shr_record) (p : positive) :
  0 <= shr_m mrs -> shr_m (iter_pos shr_1 p mrs) = shr_m mrs / 2 ^ Zpos p.
Proof.
  intros Hm. induction p as [| p IH] using Pos.peano_ind.
  - simpl iter_pos. rewrite shr_1_m by assumption. reflexivity.
  - rewrite iter_pos_succ, shr_1_m.
    + rewrite IH, Pos2Z.inj_succ, Z.pow_succ_r by lia.
      rewrite Z.div_div by (try apply Z.pow_pos_nonneg; lia).
      f_equal. lia.
    + rewrite IH. apply Z.div_pos; [assumption |].
      apply Z.pow_pos_nonneg; lia.
Qed.

Lemma shr_m_shr (mrs : shr_record) (e k : Z) :
  0 <= shr_m mrs -> 0 <= k ->
  shr_m (fst (shr mrs e k)) = shr_m mrs / 2 ^ k /\ snd (shr mrs e k) = e + k.
Proof.
  intros Hm Hk. destruct k as [| p | p]; [| | lia].
  - simpl. rewrite Z.div_1_r. split; [reflexivity | lia].
  - simpl shr. simpl fst. simpl snd. now rewrite iter_shr_1_m.
Qed.

Lemma shr_m_record_of_loc (m : Z) (l : location) :
  shr_m (shr_record_of_loc m l) = m.
Proof. destruct l as [| []]; reflexivity. Qed.

Lemma round_nearest_even_range (m : Z) (l : location) :
  m <= round_nearest_even m l <= m + 1.
Proof.
  destruct l as [| []]; simpl; try lia. destruct (Z.even m); lia.
Qed.

(** The quotient left by the first shift has at most 53 digits, and
    exactly 53 above the smallest exponent. *)
Lemma shifted_mantissa_range (m e : Z) :
  0 <= m ->
  let E := fexp prec emax (Zdigits2 m + e) in
  e <= E ->
  emin <= E
  /\ m / 2 ^ (E - e) < 2 ^ 53
  /\ (emin < E -> 2 ^ 52 <= m / 2 ^ (E - e)).
Proof.
  intros Hm E HE.
  assert (HEmin : emin <= E) by (subst E; rewrite fexp_eq; lia).
  split; [assumption |].
  assert (Hpk : 0 < 2 ^ (E - e)) by (apply Z.pow_pos_nonneg; lia).
  destruct m as [| p | p]; [| | lia].
  - rewrite Z.div_0_l by lia. split; [reflexivity |].
    intros Hn. exfalso. subst E. rewrite fexp_eq in *. simpl Zdigits2 in *. lia.
  - pose proof (Zdigits2_bounds p) as [Hlo Hhi].
    pose proof (Zdigits2_pos p) as Hd1.
    set (d := Zdigits2 (Zpos p)) in *.
    split.
    + apply Z.div_lt_upper_bound; [assumption |].
      rewrite <- Z.pow_add_r by lia.
      eapply Z.lt_le_trans; [exact Hhi |].
      apply Z.pow_le_mono_r; [lia |].
      subst E. rewrite fexp_eq. lia.
    + intros Hn. apply Z.div_le_lower_bound; [assumption |].
      rewrite <- Z.pow_add_r by lia.
      eapply Z.le_trans; [| exact Hlo].
      apply Z.pow_le_mono_r; [lia |].
      subst E. rewrite fexp_eq in *. lia.
Qed.

(** Rounding a mantissa whose exponent is not above the canonical
    one, whatever is known of the digits already dropped. *)
Lemma binary_round_aux_rounded (s : bool) (m e : Z) (l : location) :
  0 <= m ->
  let E := fexp prec emax (Zdigits2 m + e) in
  e <= E ->
  exists z,
    binary_round_aux prec emax s m e l = rounded s z E
    /\ m / 2 ^ (E - e) <= z <= m / 2 ^ (E - e) + 1.
Proof.
  intros Hm E HE.
  destruct (shifted_mantissa_range m e Hm HE) as (HEmin & Hq53 & _).
  fold E in HEmin, Hq53.
  unfold binary_round_aux. unfold shr_fexp at 1. fold E.
  destruct (shr_m_shr (shr_record_of_loc m l) e (E - e)) as [Hq He].
  { now rewrite shr_m_record_of_loc. }
  { lia. }
  rewrite shr_m_record_of_loc in Hq.
  destruct (shr (shr_record_of_loc m l) e (E - e)) as [mrs e1].
  simpl fst in Hq. simpl snd in He. subst e1.
  replace (e + (E - e)) with E by lia.
  pose proof (round_nearest_even_range (shr_m mrs) (loc_of_shr_record mrs)) as Hr.
  rewrite Hq in Hr.
  exists (round_nearest_even (shr_m mrs) (loc_of_shr_record mrs)).
  split; [| rewrite Hq; exact Hr].
  apply second_shift; [assumption |].
  assert (0 <= m / 2 ^ (E - e))
    by (apply Z.div_pos; [| apply Z.pow_pos_nonneg]; lia).
  rewrite Hq. lia.
Qed.

(** The same for an exact mantissa: the result is the nearest. *)
Lemma binary_round_aux_exact (s : bool) (m : positive) (e : Z) :
  let E := fexp prec emax (Zdigits2 (Zpos m) + e) in
  e <= E ->
  binary_round_aux prec emax s (Zpos m) e loc_Exact
    = rounded s (rne (Zpos m) (E - e)) E.
Proof.
  intros E HE.
  destruct (shifted_mantissa_range (Zpos m) e ltac:(lia) HE) as (HEmin & Hq53 & _).
  fold E in HEmin, Hq53.
  set (k := E - e) in *.
  assert (Hk : 0 <= k) by (subst k; lia).
  unfold binary_round_aux.
  unfold shr_fexp at 1.
  change (shr_record_of_loc (Zpos m) loc_Exact) with (start (Zpos m)).
  fold E. fold k.
  rewrite shr_start by lia.
  replace (e + k) with E by (subst k; lia).
  fold (rne (Zpos m) k).
  apply second_shift; [assumption |].
  assert (0 <= Zpos m / 2 ^ k)
    by (apply Z.div_pos; [| apply Z.pow_pos_nonneg]; lia).
  destruct (rne_spec (Zpos m) k ltac:(lia) Hk) as [[-> _] | [-> _]]; lia.
Qed.

End RoundFacts2.

Module RoundFacts3.
Import PyFloat RoundFacts RoundFacts2.

(** *** Valid floats *)

Lemma valid_finite (s : bool) (m : positive) (e : Z) :
  valid (S754_finite s m e) = true <->
  fexp prec emax (Zdigits2 (Zpos m) + e) = e /\ e <= 971.
Proof.
  unfold valid, valid_binary, bounded, canonical_mantissa.
  rewrite andb_true_iff, Z.eqb_eq, Z.leb_le. reflexivity.
Qed.

Lemma valid_finite_range (s : bool) (m : positive) (e : Z) :
  valid (S754_finite s m e) = true ->
  emin <= e <= 971 /\ Zpos m < 2 ^ 53 /\ (emin < e -> 2 ^ 52 <= Zpos m).
Proof.
  intros H. apply valid_finite in H. destruct H as [Hc He].
  rewrite fexp_eq in Hc.
  pose proof (Zdigits2_bounds m) as [Hlo Hhi].
  pose proof (Zdigits2_pos m) as Hd1.
  set (d := Zdigits2 (Zpos m)) in *.
  split; [lia |]. split.
  - eapply Z.lt_le_trans; [exact Hhi |]. apply Z.pow_le_mono_r; lia.
  - intros Hn. replace 52 with (d - 1) by lia. assumption.
Qed.

Lemma rounded_valid (s : bool) (z E : Z) :
  emin <= E -> 0 <= z <= 2 ^ 53 -> (emin < E -> 2 ^ 52 <= z) ->
  valid (rounded s z E) = true.
Proof.
  intros HE Hz Hn. unfold rounded.
  destruct z as [| p | p]; [reflexivity | | lia].
  destruct (Zpos p <? 2 ^ 53) eqn:Elt.
  - apply Z.ltb_lt in Elt.
    destruct (E <=? 971) eqn:E971; [| reflexivity].
    apply Z.leb_le in E971. apply valid_finite. split; [| assumption].
    rewrite fexp_eq.
    pose proof (Zdigits2_bounds p) as [Hlo Hhi].
    pose proof (Zdigits2_pos p) as Hd1.
    assert (Hd : Zdigits2 (Zpos p) <= 53).
    { destruct (Z_le_gt_dec (Zdigits2 (Zpos p)) 53); [assumption |].
      assert (2 ^ 53 <= 2 ^ (Zdigits2 (Zpos p) - 1))
        by (apply Z.pow_le_mono_r; lia). lia. }
    destruct (Z.eq_dec E emin) as [-> | Hne]; [lia |].
    assert (Zdigits2 (Zpos p) = 53)
      by (apply Zdigits2_unique; split; [apply Hn |]; lia).
    lia.
  - destruct (E + 1 <=? 971) eqn:E971; [| reflexivity].
    apply Z.leb_le in E971. apply valid_finite. split; [| assumption].
    rewrite fexp_eq.
    change (Zpos (Z.to_pos (2 ^ 52))) with (2 ^ 52).
    change (Zdigits2 (2 ^ 52)) with 53. lia.
Qed.

(** *** Signs *)

Lemma rounded_sign (s : bool) (z E : Z) : sign_is s (rounded s z E).
Proof.
  unfold rounded. destruct z; try reflexivity.
  destruct (_ <? _); [destruct (E <=? 971) | destruct (E + 1 <=? 971)];
    simpl; reflexivity.
Qed.

Lemma binary_round_aux_sign (s : bool) (m e : Z) (l : location) :
  sign_is s (binary_round_aux prec emax s m e l).
Proof.
  unfold binary_round_aux.
  destruct (shr_fexp prec emax m e l) as [mrs e1].
  destruct (shr_fexp prec emax _ e1 loc_Exact) as [mrs2 e2].
  destruct (shr_m mrs2); try (simpl; auto; fail).
  destruct (e2 <=? emax - prec); simpl; reflexivity.
Qed.

(** *** Aligning to the left *)

Lemma iter_xO (m d : positive) :
  Zpos (Pos.iter xO m d) = Zpos m * 2 ^ Zpos d.
Proof.
  induction d as [| d IH] using Pos.peano_ind.
  - simpl. lia.
  - rewrite Pos.iter_succ, Pos2Z.inj_xO, IH, Pos2Z.inj_succ.
    rewrite Z.pow_succ_r by lia. lia.
Qed.

Lemma shl_align_spec (m : positive) (e e' : Z) :
  let '(mz, ez) := shl_align m e e' in
  ez = Z.min e e' /\ Zpos mz = Zpos m * 2 ^ (e - ez).
Proof.
  unfold shl_align. destruct (e' - e) as [| d | d] eqn:Ed.
  - split; [lia |]. rewrite Z.sub_diag. simpl. lia.
  - split; [lia |]. rewrite Z.sub_diag. simpl. lia.
  - split; [lia |]. rewrite iter_xO. f_equal. f_equal. lia.
Qed.

Lemma binary_round_rounded (s : bool) (m : positive) (e : Z) :
  let E := fexp prec emax (Zdigits2 (Zpos m) + e) in
  let e0 := Z.min e E in
  binary_round prec emax s m e
    = rounded s (rne (Zpos m * 2 ^ (e - e0)) (E - e0)) E.
Proof.
  intros E e0.
  change (binary_round prec emax s m e)
    with (let '(mz, ez) := shl_align m e E in
          binary_round_aux prec emax s (Zpos mz) ez loc_Exact).
  pose proof (shl_align_spec m e E) as Hal.
  destruct (shl_align m e E) as [mz ez]. destruct Hal as [Hez Hmz].
  fold e0 in Hez. subst ez.
  assert (Hd : Zdigits2 (Zpos mz) + e0 = Zdigits2 (Zpos m) + e).
  { rewrite (Zdigits2_mul_pow2 m (e - e0)) by (subst e0; lia || assumption).
    lia. }
  pose proof (binary_round_aux_exact s mz e0) as H.
  cbv zeta in H. rewrite Hd in H. fold E in H.
  rewrite H by (subst e0; lia). now rewrite Hmz.
Qed.

End RoundFacts3.

Module RoundFacts4.
Import PyFloat RoundFacts RoundFacts2 RoundFacts3.

Lemma pow2_pos (k : Z) : 0 <= k -> 0 < 2 ^ k.
Proof. intros. apply Z.pow_pos_nonneg; lia. Qed.

Lemma Zdigits2_nonneg (m : Z) : 0 <= m -> 0 <= Zdigits2 m.
Proof.
  destruct m as [| p | p]; intros H; [simpl; lia | | lia].
  pose proof (Zdigits2_pos p). lia.
Qed.

Lemma Zdigits2_le (p q : positive) :
  Zpos p <= Zpos q -> Zdigits2 (Zpos p) <= Zdigits2 (Zpos q).
Proof.
  intros H. rewrite !Zdigits2_log2.
  pose proof (Z.log2_le_mono _ _ H). lia.
Qed.

Lemma Zdigits2_ge (p : positive) (n : Z) :
  2 ^ (n - 1) <= Zpos p -> n <= Zdigits2 (Zpos p).
Proof.
  intros H. pose proof (Zdigits2_bounds p) as [_ Hhi].
  pose proof (Zdigits2_pos p).
  destruct (Z_le_gt_dec n (Zdigits2 (Zpos p))); [assumption |].
  assert (2 ^ Zdigits2 (Zpos p) <= 2 ^ (n - 1)) by (apply Z.pow_le_mono_r; lia).
  lia.
Qed.

Lemma fexp_le (x y : Z) : x <= y -> fexp prec emax x <= fexp prec emax y.
Proof. rewrite !fexp_eq. lia. Qed.

(** *** Every rounding gives a valid float *)

Lemma binary_round_aux_valid (s : bool) (m e : Z) (l : location) :
  0 <= m -> e <= fexp prec emax (Zdigits2 m + e) ->
  valid (binary_round_aux prec emax s m e l) = true.
Proof.
  intros Hm HE.
  destruct (binary_round_aux_rounded s m e l Hm HE) as (z & -> & Hz).
  destruct (shifted_mantissa_range m e Hm HE) as (HEmin & Hq53 & Hq52).
  assert (0 <= m / 2 ^ (fexp prec emax (Zdigits2 m + e) - e))
    by (apply Z.div_pos; [| apply pow2_pos]; lia).
  apply rounded_valid; [assumption | lia |].
  intros Hn. specialize (Hq52 Hn). lia.
Qed.

Lemma binary_round_valid (s : bool) (m : positive) (e : Z) :
  valid (binary_round prec emax s m e) = true.
Proof.
  unfold binary_round.
  pose proof (shl_align_spec m e (fexp prec emax (Zdigits2 (Zpos m) + e))) as Hal.
  change (Zpos (digits2_pos m)) with (Zdigits2 (Zpos m)).
  destruct (shl_align _ _ _) as [mz ez]. destruct Hal as [Hez Hmz].
  apply binary_round_aux_valid; [lia |].
  rewrite (Zdigits2_mul_pow2 m (e - ez)) by (lia || assumption).
  replace (Zdigits2 (Zpos m) + (e - ez) + ez) with (Zdigits2 (Zpos m) + e) by lia.
  lia.
Qed.

Lemma binary_normalize_valid (m e : Z) (szero : bool) :
  valid (binary_normalize prec emax m e szero) = true.
Proof.
  destruct m; simpl; [reflexivity | |]; apply binary_round_valid.
Qed.

Lemma Z2F_valid (n : Z) : valid (Z2F n) = true.
Proof. apply binary_normalize_valid. Qed.

Lemma add_valid (x y : float) :
  valid x = true -> valid y = true -> valid (add x y) = true.
Proof.
  intros Hx Hy.
  destruct x as [sx | sx | | sx mx ex], y as [sy | sy | | sy my ey];
    try assumption; try reflexivity;
    try (destruct sx, sy; reflexivity).
  apply binary_normalize_valid.
Qed.

Lemma sub_valid (x y : float) :
  valid x = true -> valid y = true -> valid (sub x y) = true.
Proof.
  intros Hx Hy.
  destruct x as [sx | sx | | sx mx ex], y as [sy | sy | | sy my ey];
    try assumption; try reflexivity;
    try (destruct sx, sy; reflexivity).
  apply binary_normalize_valid.
Qed.

Lemma mul_valid (x y : float) :
  valid x = true -> valid y = true -> valid (mul x y) = true.
Proof.
  intros Hx Hy.
  destruct x as [sx | sx | | sx mx ex], y as [sy | sy | | sy my ey];
    try reflexivity.
  unfold mul, SFmul. apply binary_round_aux_valid; [lia |].
  apply valid_finite in Hx, Hy. destruct Hx as [Hx _], Hy as [Hy _].
  pose proof (Zdigits2_bounds mx) as [Hlx _].
  pose proof (Zdigits2_bounds my) as [Hly _].
  pose proof (Zdigits2_pos mx). pose proof (Zdigits2_pos my).
  assert (Hd : Zdigits2 (Zpos mx) + Zdigits2 (Zpos my) - 1
               <= Zdigits2 (Zpos (mx * my))).
  { apply Zdigits2_ge. rewrite Pos2Z.inj_mul.
    replace (Zdigits2 (Zpos mx) + Zdigits2 (Zpos my) - 1 - 1)
      with ((Zdigits2 (Zpos mx) - 1) + (Zdigits2 (Zpos my) - 1)) by lia.
    rewrite Z.pow_add_r by lia.
    pose proof (pow2_pos (Zdigits2 (Zpos mx) - 1) ltac:(lia)).
    pose proof (pow2_pos (Zdigits2 (Zpos my) - 1) ltac:(lia)).
    nia. }
  rewrite fexp_eq in *. unfold emin in *. lia.
Qed.

End RoundFacts4.

Module RoundFacts5.
Import PyFloat RoundFacts RoundFacts2 RoundFacts3 RoundFacts4.

Lemma div_core_canonical (m1 m2 : positive) (e1 e2 : Z) :
  let '(q, e', _) := SFdiv_core_binary prec emax (Zpos m1) e1 (Zpos m2) e2 in
  0 <= q /\ e' <= fexp prec emax (Zdigits2 q + e').
Proof.
  unfold SFdiv_core_binary.
  set (d1 := Zdigits2 (Zpos m1)). set (d2 := Zdigits2 (Zpos m2)).
  set (x := d1 + e1 - (d2 + e2)).
  set (e' := Z.min (fexp prec emax x) (e1 - e2)).
  set (s := e1 - e2 - e').
  assert (Hs : 0 <= s) by (subst s e'; lia).
  set (m' := match s with Zpos _ => Z.shiftl (Zpos m1) s | 0 => Zpos m1 | Zneg _ => 0 end).
  assert (Hm' : m' = Zpos m1 * 2 ^ s).
  { subst m'. destruct s as [| p | p]; [simpl; lia | | lia].
    now rewrite Z.shiftl_mul_pow2 by lia. }
  pose proof (Z_div_mod m' (Zpos m2) ltac:(lia)) as Hdm.
  destruct (Z.div_eucl m' (Zpos m2)) as [q r] eqn:Hqr.
  destruct Hdm as [Hdm Hr].
  pose proof (Zdigits2_bounds m1) as [Hl1 Hh1]. fold d1 in Hl1, Hh1.
  pose proof (Zdigits2_bounds m2) as [Hl2 Hh2]. fold d2 in Hl2, Hh2.
  pose proof (Zdigits2_pos m1) as Hp1. fold d1 in Hp1.
  pose proof (Zdigits2_pos m2) as Hp2. fold d2 in Hp2.
  pose proof (pow2_pos s Hs) as Hps.
  assert (Hq0 : 0 <= q) by nia.
  split; [assumption |].
  assert (He' : e' <= fexp prec emax x) by (subst e'; lia).
  destruct q as [| qp | qp]; [| | lia].
  - (* the quotient vanished: the exponent is the smallest one *)
    simpl Zdigits2. rewrite fexp_eq in *.
    assert (Hlt : Zpos m1 * 2 ^ s < Zpos m2) by lia.
    assert (Hds : d1 + s <= d2).
    { destruct (Z_le_gt_dec (d1 + s) d2); [assumption |].
      assert (2 ^ d2 <= 2 ^ (d1 - 1 + s)) by (apply Z.pow_le_mono_r; lia).
      rewrite Z.pow_add_r in * by lia. nia. }
    unfold emin in *. subst s x. lia.
  - eapply Z.le_trans; [exact He' |]. apply fexp_le.
    assert (Hd : d1 + s - d2 <= Zdigits2 (Zpos qp)).
    { destruct (Z_le_gt_dec (d1 + s - d2) 1) as [Hsmall | Hbig].
      - pose proof (Zdigits2_pos qp). lia.
      - apply Zdigits2_ge.
        assert (Hpow : 2 ^ (d1 + s - d2 - 1) * 2 ^ d2 = 2 ^ (d1 - 1) * 2 ^ s).
        { rewrite <- !Z.pow_add_r by lia. f_equal. lia. }
        pose proof (pow2_pos (d1 + s - d2 - 1) ltac:(lia)).
        destruct (Z_le_gt_dec (2 ^ (d1 + s - d2 - 1)) (Zpos qp)); [assumption |].
        exfalso. assert (Zpos qp + 1 <= 2 ^ (d1 + s - d2 - 1)) by lia.
        nia. }
    subst x s. lia.
Qed.

Lemma div_valid (x y : float) :
  valid x = true -> valid y = true -> valid (div x y) = true.
Proof.
  intros Hx Hy.
  destruct x as [sx | sx | | sx mx ex], y as [sy | sy | | sy my ey];
    try reflexivity.
  unfold div, SFdiv.
  pose proof (div_core_canonical mx my ex ey) as H.
  destruct (SFdiv_core_binary prec emax (Zpos mx) ex (Zpos my) ey) as [[q e'] l].
  destruct H as [Hq He]. now apply binary_round_aux_valid.
Qed.

(** *** Signs of the results *)

Lemma sign_is_nonneg_or_nan (x : float) : sign_is false x -> nonneg_or_nan x.
Proof. destruct x; simpl; auto. Qed.

Lemma sign_is_nonpos_or_nan (x : float) : sign_is true x -> nonpos_or_nan x.
Proof. destruct x; simpl; auto. Qed.

Lemma leb_zero_nonneg (x : float) : leb Lit.f0_0 x = true -> nonneg x.
Proof.
  destruct x as [s | [] | | [] m e]; simpl; auto; discriminate.
Qed.

Lemma ltb_zero_nonpos (x : float) : nonpos_or_nan x -> ltb Lit.f0_0 x = false.
Proof.
  destruct x as [s | s | | s m e]; simpl; intros H; subst; reflexivity.
Qed.

Lemma mul_nonneg (x y : float) :
  nonneg x -> nonneg_or_nan y -> nonneg_or_nan (mul x y).
Proof.
  destruct x as [sx | sx | | sx mx ex], y as [sy | sy | | sy my ey];
    simpl; intros Hx Hy; subst; auto.
  apply sign_is_nonneg_or_nan. apply binary_round_aux_sign.
Qed.

Lemma div_nonpos (x : float) (my : positive) (ey : Z) :
  nonpos_or_nan x -> nonpos_or_nan (div x (S754_finite false my ey)).
Proof.
  destruct x as [sx | sx | | sx mx ex]; simpl; intros Hx; subst; auto.
  unfold div, SFdiv.
  destruct (SFdiv_core_binary prec emax (Zpos mx) ex (Zpos my) ey) as [[q e'] l].
  apply sign_is_nonpos_or_nan. apply binary_round_aux_sign.
Qed.

Lemma binary_round_sign (s : bool) (m : positive) (e : Z) :
  sign_is s (binary_round prec emax s m e).
Proof.
  unfold binary_round. destruct (shl_align _ _ _) as [mz ez].
  apply binary_round_aux_sign.
Qed.

End RoundFacts5.

Module OrderFacts.
Import PyFloat RoundFacts RoundFacts2 RoundFacts3 RoundFacts4 RoundFacts5.

(** *** Values and the order *)

Lemma units_pos (m : positive) (e : Z) : emin <= e -> 0 < units (Zpos m) e.
Proof.
  intros He. unfold units. pose proof (pow2_pos (e - emin) ltac:(lia)). nia.
Qed.

Lemma units_shift (m e e' : Z) :
  emin <= e' <= e -> units (m * 2 ^ (e - e')) e' = units m e.
Proof.
  intros H. unfold units. rewrite <- Z.mul_assoc, <- Z.pow_add_r by lia.
  do 2 f_equal. lia.
Qed.

(** Two canonical mantissas compare first by their exponents. *)
Lemma canonical_lt (s1 s2 : bool) (m1 m2 : positive) (e1 e2 : Z) :
  valid (S754_finite s1 m1 e1) = true ->
  valid (S754_finite s2 m2 e2) = true ->
  e1 < e2 -> units (Zpos m1) e1 < units (Zpos m2) e2.
Proof.
  intros H1 H2 Hlt.
  apply valid_finite_range in H1, H2.
  destruct H1 as (He1 & Hm1 & _), H2 as (He2 & _ & Hm2).
  specialize (Hm2 ltac:(lia)). unfold units.
  replace (e2 - emin) with ((e2 - e1 - 1) + 1 + (e1 - emin)) by lia.
  rewrite !Z.pow_add_r by lia. change (2 ^ 1) with 2.
  pose proof (pow2_pos (e1 - emin) ltac:(lia)).
  pose proof (pow2_pos (e2 - e1 - 1) ltac:(lia)).
  change (2 ^ 53) with (2 * 2 ^ 52) in Hm1.
  assert (Zpos m1 < 2 * Zpos m2) by lia.
  assert (2 * Zpos m2 <= Zpos m2 * (2 ^ (e2 - e1 - 1) * 2)) by nia.
  nia.
Qed.

Lemma units_compare (m1 m2 : positive) (e : Z) :
  emin <= e ->
  (units (Zpos m1) e ?= units (Zpos m2) e) = Pos.compare_cont Eq m1 m2.
Proof.
  intros He. unfold units. pose proof (pow2_pos (e - emin) ltac:(lia)).
  change (Pos.compare_cont Eq m1 m2) with (Zpos m1 ?= Zpos m2).
  destruct (Z.compare_spec (Zpos m1) (Zpos m2)) as [Heq | Hlt | Hgt].
  - rewrite Heq. apply Z.compare_refl.
  - apply Z.compare_lt_iff. nia.
  - apply Z.compare_gt_iff. nia.
Qed.

Lemma compare_pos (m1 m2 : positive) (e1 e2 : Z) :
  valid (S754_finite false m1 e1) = true ->
  valid (S754_finite false m2 e2) = true ->
  match e1 ?= e2 with
  | Lt => Lt
  | Gt => Gt
  | Eq => Pos.compare_cont Eq m1 m2
  end = (units (Zpos m1) e1 ?= units (Zpos m2) e2).
Proof.
  intros H1 H2. destruct (Z.compare_spec e1 e2) as [Heq | Hlt | Hgt].
  - subst e2. symmetry. apply units_compare.
    apply valid_finite_range in H1. lia.
  - symmetry. apply Z.compare_lt_iff. eapply canonical_lt; eassumption.
  - symmetry. apply Z.compare_gt_iff. eapply canonical_lt; eassumption.
Qed.

Lemma compare_ival (x y : float) :
  valid x = true -> valid y = true ->
  is_finite x = true -> is_finite y = true ->
  SFcompare x y = Some (ival x ?= ival y).
Proof.
  intros Vx Vy Fx Fy.
  destruct x as [sx | sx | | sx mx ex], y as [sy | sy | | sy my ey];
    try discriminate; try reflexivity.
  - pose proof (valid_finite_range _ _ _ Vy) as (He & _).
    pose proof (units_pos my ey ltac:(lia)).
    destruct sy; cbn [SFcompare ival cond_Zopp]; f_equal; symmetry;
      [apply Z.compare_gt_iff | apply Z.compare_lt_iff]; lia.
  - pose proof (valid_finite_range _ _ _ Vx) as (He & _).
    pose proof (units_pos mx ex ltac:(lia)).
    destruct sx; cbn [SFcompare ival cond_Zopp]; f_equal; symmetry;
      [apply Z.compare_lt_iff | apply Z.compare_gt_iff]; lia.
  - pose proof (valid_finite_range _ _ _ Vx) as (Hex & _).
    pose proof (valid_finite_range _ _ _ Vy) as (Hey & _).
    pose proof (units_pos mx ex ltac:(lia)).
    pose proof (units_pos my ey ltac:(lia)).
    destruct sx, sy; cbn [SFcompare ival cond_Zopp]; f_equal.
    + rewrite Z.compare_opp.
      rewrite <- (compare_pos my mx ey ex) by assumption.
      rewrite (Z.compare_antisym ey ex), (Pos.compare_cont_antisym mx my Eq).
      destruct (ey ?= ex); reflexivity.
    + symmetry. apply Z.compare_lt_iff. lia.
    + symmetry. apply Z.compare_gt_iff. lia.
    + now apply compare_pos.
Qed.

End OrderFacts.

Module MonoFacts.
Import PyFloat RoundFacts RoundFacts2 RoundFacts3 RoundFacts4 RoundFacts5.
Import OrderFacts.

(** *** Rounding is monotone around a float *)

(** The data of [binary_round s m e]: it is [rounded s z E] where
    [z] is the aligned mantissa [M] divided by [2^k] and rounded. *)
Lemma binary_round_data (s : bool) (m : positive) (e : Z) :
  emin <= e ->
  exists M e0 k z E,
    binary_round prec emax s m e = rounded s z E
    /\ E = fexp prec emax (Zdigits2 (Zpos m) + e)
    /\ emin <= e0 /\ 0 <= k /\ E = e0 + k
    /\ 0 < M /\ units M e0 = units (Zpos m) e
    /\ M / 2 ^ k <= z <= M / 2 ^ k + 1
    /\ (M mod 2 ^ k = 0 -> z = M / 2 ^ k)
    /\ M / 2 ^ k < 2 ^ 53
    /\ (emin < E -> 2 ^ 52 <= M / 2 ^ k).
Proof.
  intros He.
  set (E := fexp prec emax (Zdigits2 (Zpos m) + e)).
  set (e0 := Z.min e E).
  assert (HEmin : emin <= E) by (subst E; rewrite fexp_eq; lia).
  set (M := Zpos m * 2 ^ (e - e0)).
  assert (HM : 0 < M).
  { subst M. pose proof (pow2_pos (e - e0) ltac:(subst e0; lia)). nia. }
  exists M, e0, (E - e0), (rne M (E - e0)), E.
  assert (Hk : 0 <= E - e0) by (subst e0; lia).
  assert (HdM : Zdigits2 M + e0 = Zdigits2 (Zpos m) + e).
  { subst M. rewrite Zdigits2_shift by (subst e0; lia). lia. }
  pose proof (shifted_mantissa_range M e0 ltac:(lia)) as Hrange.
  cbv zeta in Hrange. rewrite HdM in Hrange. fold E in Hrange.
  destruct (Hrange ltac:(subst e0; lia)) as (_ & Hq53 & Hq52).
  pose proof (pow2_pos (E - e0) Hk).
  split; [apply binary_round_rounded |].
  split; [reflexivity |].
  split; [subst e0; lia |].
  split; [assumption |].
  split; [lia |].
  split; [assumption |].
  split; [subst M; apply units_shift; subst e0; lia |].
  destruct (rne_spec M (E - e0) ltac:(lia) Hk) as [[Hz Hr] | [Hz Hr]];
    rewrite Hz; (split; [lia |]); (split; [| split; assumption]);
    intros Hmod; rewrite Hmod in Hr; lia.
Qed.

Lemma units_digits_le (m m' : positive) (e e' : Z) :
  emin <= e -> emin <= e' ->
  units (Zpos m) e <= units (Zpos m') e' ->
  Zdigits2 (Zpos m) + e <= Zdigits2 (Zpos m') + e'.
Proof.
  intros He He' Hle. unfold units in Hle.
  pose proof (Zdigits2_bounds m) as [Hlo _].
  pose proof (Zdigits2_bounds m') as [_ Hhi].
  pose proof (Zdigits2_pos m). pose proof (Zdigits2_pos m').
  pose proof (pow2_pos (e - emin) ltac:(lia)).
  pose proof (pow2_pos (e' - emin) ltac:(lia)).
  assert (Hpow : 2 ^ (Zdigits2 (Zpos m) - 1 + (e - emin))
                 < 2 ^ (Zdigits2 (Zpos m') + (e' - emin))).
  { rewrite !Z.pow_add_r by lia. nia. }
  apply Z.pow_lt_mono_r_iff in Hpow; lia.
Qed.

Lemma round_le (s st : bool) (m mt : positive) (e et : Z) :
  emin <= e ->
  valid (S754_finite st mt et) = true ->
  units (Zpos m) e <= units (Zpos mt) et ->
  match binary_round prec emax s m e with
  | S754_zero _ => True
  | S754_finite _ m' e' => e' < et \/ (e' = et /\ Zpos m' <= Zpos mt)
  | _ => False
  end.
Proof.
  intros He Vt Hle.
  destruct (binary_round_data s m e He)
    as (M & e0 & k & z & E & Hr & HE & He0 & Hk & HEk & HM & Hu & Hz & Hex & Hq53 & Hq52).
  pose proof (valid_finite_range _ _ _ Vt) as (Het & Hmt & _).
  pose proof (proj1 (valid_finite _ _ _) Vt) as [Hcan _].
  assert (HEet : E <= et).
  { rewrite HE, <- Hcan. apply fexp_le. apply units_digits_le; lia. }
  set (j := Zpos mt * 2 ^ (et - E)).
  pose proof (pow2_pos k Hk) as Hpk.
  pose proof (pow2_pos (e0 - emin) ltac:(lia)) as Hpu.
  assert (HMj : M <= j * 2 ^ k).
  { rewrite <- Hu in Hle. unfold units in Hle.
    replace (et - emin) with ((et - E) + k + (e0 - emin)) in Hle by lia.
    rewrite !Z.pow_add_r in Hle by lia. subst j. nia. }
  assert (Hzj : z <= j).
  { assert (Hqj : M / 2 ^ k <= j)
      by (apply Z.div_le_upper_bound; [assumption | lia]).
    destruct (Z.eq_dec (M / 2 ^ k) j) as [Heq | Hne]; [| lia].
    rewrite Hex; [lia |].
    pose proof (Z_div_mod_eq_full M (2 ^ k)) as Hdm.
    pose proof (Z.mod_pos_bound M (2 ^ k) Hpk). nia. }
  assert (0 <= M / 2 ^ k) by (apply Z.div_pos; lia).
  rewrite Hr. unfold rounded.
  destruct z as [| p | p]; [exact I | | lia].
  destruct (Zpos p <? 2 ^ 53) eqn:Elt.
  - replace (E <=? 971) with true by (symmetry; apply Z.leb_le; lia).
    destruct (Z.eq_dec E et) as [-> | Hne]; [| lia].
    right. split; [reflexivity |]. subst j.
    rewrite Z.sub_diag in Hzj. simpl in Hzj. lia.
  - apply Z.ltb_ge in Elt.
    assert (Hlt : E < et).
    { destruct (Z.eq_dec E et) as [Heq | Hne]; [| lia].
      exfalso. subst j. rewrite Heq, Z.sub_diag in Hzj. simpl in Hzj. lia. }
    replace (E + 1 <=? 971) with true by (symmetry; apply Z.leb_le; lia).
    destruct (Z.eq_dec (E + 1) et) as [Heq | Hne]; [| lia].
    right. split; [assumption |].
    change (Zpos (Z.to_pos (2 ^ 52))) with (2 ^ 52).
    subst j. replace (et - E) with 1 in Hzj by lia.
    change (2 ^ 1) with 2 in Hzj. change (2 ^ 53) with (2 * 2 ^ 52) in Elt. lia.
Qed.

Lemma round_ge (s st : bool) (m mt : positive) (e et : Z) :
  emin <= e ->
  valid (S754_finite st mt et) = true ->
  units (Zpos mt) et <= units (Zpos m) e ->
  match binary_round prec emax s m e with
  | S754_infinity _ => True
  | S754_finite _ m' e' => et < e' \/ (e' = et /\ Zpos mt <= Zpos m')
  | _ => False
  end.
Proof.
  intros He Vt Hle.
  destruct (binary_round_data s m e He)
    as (M & e0 & k & z & E & Hr & HE & He0 & Hk & HEk & HM & Hu & Hz & Hex & Hq53 & Hq52).
  pose proof (valid_finite_range _ _ _ Vt) as (Het & Hmt & _).
  pose proof (proj1 (valid_finite _ _ _) Vt) as [Hcan _].
  assert (HEet : et <= E).
  { rewrite HE, <- Hcan. apply fexp_le. apply units_digits_le; lia. }
  pose proof (pow2_pos k Hk) as Hpk.
  pose proof (pow2_pos (e0 - emin) ltac:(lia)) as Hpu.
  assert (Hzt : et < E /\ 2 ^ 52 <= z \/ E = et /\ Zpos mt <= z).
  { destruct (Z.eq_dec E et) as [Heq | Hne].
    - right. split; [assumption |].
      assert (Zpos mt <= M / 2 ^ k); [| lia].
      apply Z.div_le_lower_bound; [assumption |].
      rewrite <- Hu in Hle. unfold units in Hle.
      replace (et - emin) with (k + (e0 - emin)) in Hle by lia.
      rewrite !Z.pow_add_r in Hle by lia. nia.
    - left. split; [lia |]. specialize (Hq52 ltac:(lia)). lia. }
  rewrite Hr. unfold rounded.
  destruct z as [| p | p]; [lia | | lia].
  destruct (Zpos p <? 2 ^ 53) eqn:Elt.
  - destruct (E <=? 971); [| exact I]. lia.
  - destruct (E + 1 <=? 971); [| exact I]. left. lia.
Qed.

End MonoFacts.

Module SubFacts.
Import PyFloat RoundFacts RoundFacts2 RoundFacts3 RoundFacts4 RoundFacts5.
Import OrderFacts MonoFacts.

(** *** Subtraction *)

Lemma sub_finite (sx sy : bool) (mx my : positive) (ex ey : Z) :
  emin <= ex -> emin <= ey ->
  exists D ez,
    sub (S754_finite sx mx ex) (S754_finite sy my ey)
      = binary_normalize prec emax D ez false
    /\ emin <= ez
    /\ units D ez = ival (S754_finite sx mx ex) - ival (S754_finite sy my ey).
Proof.
  intros Hex Hey. unfold sub, SFsub. cbv zeta.
  set (ez := Z.min ex ey).
  pose proof (shl_align_spec mx ex ez) as Hx.
  pose proof (shl_align_spec my ey ez) as Hy.
  destruct (shl_align mx ex ez) as [X ex0], (shl_align my ey ez) as [Y ey0].
  destruct Hx as [Hex0 HX], Hy as [Hey0 HY]. simpl fst.
  assert (Hx0 : ex0 = ez) by (subst ez; lia).
  assert (Hy0 : ey0 = ez) by (subst ez; lia).
  rewrite Hx0 in HX. rewrite Hy0 in HY. clear Hex0 Hey0 Hx0 Hy0.
  eexists. exists ez. split; [reflexivity |]. split; [subst ez; lia |].
  cbn [ival]. rewrite <- (units_shift (Zpos mx) ex ez) by (subst ez; lia).
  rewrite <- (units_shift (Zpos my) ey ez) by (subst ez; lia).
  rewrite <- HX, <- HY. unfold units.
  destruct sx, sy; cbn [cond_Zopp]; lia.
Qed.

Lemma units_sign (D e : Z) :
  emin <= e ->
  (0 < D -> 0 < units D e) /\ (D < 0 -> units D e < 0)
  /\ (D = 0 -> units D e = 0).
Proof.
  intros He. unfold units. pose proof (pow2_pos (e - emin) ltac:(lia)).
  repeat split; intros; nia.
Qed.

Lemma rounded_nonneg (z E : Z) : nonneg (rounded false z E).
Proof.
  unfold rounded. destruct z; try exact I.
  destruct (_ <? _); [destruct (E <=? 971) | destruct (E + 1 <=? 971)];
    reflexivity.
Qed.

Lemma binary_round_nonneg (m : positive) (e : Z) :
  nonneg (binary_round prec emax false m e).
Proof. rewrite binary_round_rounded. apply rounded_nonneg. Qed.

Lemma sub_nonneg (x y : float) :
  valid x = true -> valid y = true -> is_finite x = true -> is_finite y = true ->
  ival y <= ival x -> nonneg (sub x y).
Proof.
  intros Vx Vy Fx Fy Hle.
  destruct x as [sx | sx | | sx mx ex], y as [sy | sy | | sy my ey];
    try discriminate.
  - destruct sx, sy; exact I.
  - pose proof (valid_finite_range _ _ _ Vy) as (He & _).
    pose proof (units_pos my ey ltac:(lia)).
    destruct sy; cbn [ival cond_Zopp] in Hle; [reflexivity | lia].
  - pose proof (valid_finite_range _ _ _ Vx) as (He & _).
    pose proof (units_pos mx ex ltac:(lia)).
    destruct sx; cbn [ival cond_Zopp] in Hle; [lia | reflexivity].
  - pose proof (valid_finite_range _ _ _ Vx) as (Hex & _).
    pose proof (valid_finite_range _ _ _ Vy) as (Hey & _).
    destruct (sub_finite sx sy mx my ex ey) as (D & ez & -> & Hez & HD);
      [lia | lia |].
    pose proof (units_sign D ez Hez) as (_ & Hs & _).
    destruct D as [| p | p]; [exact I | apply binary_round_nonneg |].
    exfalso. specialize (Hs ltac:(lia)). lia.
Qed.

Lemma sub_nonpos (x y : float) :
  valid x = true -> valid y = true -> is_finite x = true -> is_finite y = true ->
  ival x < ival y -> nonpos_or_nan (sub x y).
Proof.
  intros Vx Vy Fx Fy Hlt.
  destruct x as [sx | sx | | sx mx ex], y as [sy | sy | | sy my ey];
    try discriminate.
  - pose proof (valid_finite_range _ _ _ Vy) as (He & _).
    pose proof (units_pos my ey ltac:(lia)).
    destruct sy; cbn [ival cond_Zopp] in Hlt; [lia | reflexivity].
  - pose proof (valid_finite_range _ _ _ Vx) as (He & _).
    pose proof (units_pos mx ex ltac:(lia)).
    destruct sx; cbn [ival cond_Zopp] in Hlt; [reflexivity | lia].
  - pose proof (valid_finite_range _ _ _ Vx) as (Hex & _).
    pose proof (valid_finite_range _ _ _ Vy) as (Hey & _).
    destruct (sub_finite sx sy mx my ex ey) as (D & ez & -> & Hez & HD);
      [lia | lia |].
    pose proof (units_sign D ez Hez) as (Hs & _ & _).
    destruct D as [| p | p].
    + exact I.
    + exfalso. specialize (Hs ltac:(lia)). lia.
    + apply sign_is_nonpos_or_nan. apply binary_round_sign.
Qed.

Lemma ltb_irrefl (x : float) : ltb x x = false.
Proof.
  destruct x as [s | [] | | s m e]; try reflexivity.
  unfold ltb, SFltb. cbn [SFcompare]. rewrite Z.compare_refl.
  change (Pos.compare_cont Eq m m) with (Pos.compare m m).
  rewrite Pos.compare_refl. now destruct s.
Qed.

(** Taking away a quantity that is not negative never gives more. *)
Lemma sub_le (x y : float) :
  valid x = true -> valid y = true -> is_finite x = true ->
  nonneg_or_nan y -> ltb x (sub x y) = false.
Proof.
  intros Vx Vy Fx Hy.
  destruct y as [sy | sy | | sy my ey]; simpl in Hy; subst.
  - destruct x as [sx | sx | | sx mx ex]; try discriminate.
    + destruct sx, sy; reflexivity.
    + apply ltb_irrefl.
  - destruct x as [sx | sx | | [] mx ex]; try discriminate; reflexivity.
  - destruct x as [sx | sx | | [] mx ex]; try discriminate; reflexivity.
  - destruct x as [sx | sx | | sx mx ex]; try discriminate; [reflexivity |].
    pose proof (valid_finite_range _ _ _ Vx) as (Hex & _).
    pose proof (valid_finite_range _ _ _ Vy) as (Hey & _).
    destruct (sub_finite sx false mx my ex ey) as (D & ez & Hsub & Hez & HD);
      [lia | lia |].
    rewrite Hsub. clear Hsub.
    pose proof (units_pos mx ex ltac:(lia)) as Hux.
    pose proof (units_pos my ey ltac:(lia)) as Huy.
    cbn [ival cond_Zopp] in HD.
    pose proof (units_sign D ez Hez) as (Hs & _ & Hz0).
    unfold ltb, SFltb.
    destruct D as [| p | p]; cbn [binary_normalize].
    + destruct sx; cbn [cond_Zopp] in HD;
        [exfalso; specialize (Hz0 eq_refl); lia | reflexivity].
    + (* a positive difference: [x] is positive and bounds it *)
      destruct sx; cbn [cond_Zopp] in HD;
        [exfalso; specialize (Hs ltac:(lia)); lia |].
      pose proof (round_le false false p mx ez ex Hez Vx ltac:(lia)) as Hr.
      pose proof (binary_round_sign false p ez) as Hsg.
      destruct (binary_round prec emax false p ez) as [s | s | | s m' e'];
        try contradiction; [reflexivity |].
      simpl in Hsg. subst s. cbn [SFcompare].
      destruct Hr as [Hlt | [-> Hm]].
      * rewrite (proj2 (Z.compare_gt_iff ex e')) by lia. reflexivity.
      * rewrite Z.compare_refl.
        change (Pos.compare_cont Eq mx m') with (Zpos mx ?= Zpos m').
        destruct (Z.compare_spec (Zpos mx) (Zpos m')); try reflexivity. lia.
    + (* a negative difference *)
      pose proof (binary_round_sign true p ez) as Hsg.
      destruct sx; cbn [cond_Zopp] in HD.
      * pose proof (round_ge true true p mx ez ex Hez Vx) as Hr.
        assert (Hge : units (Zpos mx) ex <= units (Zpos p) ez).
        { unfold units in *. change (Z.neg p) with (- Zpos p) in HD. lia. }
        specialize (Hr Hge).
        destruct (binary_round prec emax true p ez) as [s | s | | s m' e'];
          try contradiction.
        -- simpl in Hsg. subst s. reflexivity.
        -- simpl in Hsg. subst s. cbn [SFcompare].
           destruct Hr as [Hlt | [-> Hm]].
           ++ rewrite (proj2 (Z.compare_lt_iff ex e')) by lia. reflexivity.
           ++ rewrite Z.compare_refl.
              change (Pos.compare_cont Eq mx m') with (Zpos mx ?= Zpos m').
              destruct (Z.compare_spec (Zpos mx) (Zpos m')); try reflexivity. lia.
      * destruct (binary_round prec emax true p ez) as [s | s | | s m' e'];
          simpl in Hsg; subst; reflexivity.
Qed.

End SubFacts.

Module IntFacts.
Import PyFloat RoundFacts RoundFacts2 RoundFacts3 RoundFacts4 RoundFacts5.
Import OrderFacts MonoFacts SubFacts.

(** *** Integers and floats *)

Lemma max_float_valid : valid max_float = true.
Proof. reflexivity. Qed.

Lemma binary_round_finite (s : bool) (p : positive) :
  Zpos p <= (2 ^ 53 - 1) * 2 ^ 971 ->
  is_finite (binary_round prec emax s p 0) = true.
Proof.
  intros Hb.
  pose proof (round_le s false p (Z.to_pos (2 ^ 53 - 1)) 0 971
                ltac:(unfold emin; lia) max_float_valid) as H.
  destruct (binary_round prec emax s p 0); try reflexivity;
    exfalso; apply H; unfold units, emin;
    change (Zpos (Z.to_pos (2 ^ 53 - 1))) with (2 ^ 53 - 1);
    change (971 - -1074) with (971 + (0 - -1074));
    rewrite Z.pow_add_r by lia;
    pose proof (pow2_pos (0 - -1074) ltac:(lia)); nia.
Qed.

Lemma Z2F_finite (n : Z) :
  Z.abs n <= (2 ^ 53 - 1) * 2 ^ 971 -> is_finite (Z2F n) = true.
Proof.
  intros Hb. unfold Z2F, binary_normalize.
  destruct n as [| p | p]; [reflexivity | |];
    apply binary_round_finite; simpl Z.abs in Hb; exact Hb.
Qed.

Lemma of_int_finite (n : Z) :
  is_finite (Z2F n) = true -> of_int n = Ok (Z2F n).
Proof.
  unfold of_int. destruct (Z2F n); try reflexivity; discriminate.
Qed.

Lemma of_int_Ok (n : Z) (x : float) :
  of_int n = Ok x -> x = Z2F n /\ valid x = true.
Proof.
  unfold of_int. pose proof (Z2F_valid n) as Hv.
  destruct (Z2F n) eqn:E; try discriminate; intros [= <-]; auto.
Qed.

Lemma int_mul_valid (total : Z) (v x : float) :
  valid v = true -> int_mul total v = Ok x -> valid x = true.
Proof.
  unfold int_mul. intros Hv. destruct (of_int total) as [t |] eqn:Ht; simpl;
    [| discriminate].
  intros [= <-]. apply mul_valid; [| assumption].
  now apply of_int_Ok in Ht.
Qed.

Lemma floor_bound (s : bool) (m : positive) (e : Z) :
  valid (S754_finite s m e) = true ->
  Z.abs (Z.shiftl (cond_Zopp s (Zpos m)) e) <= (2 ^ 53 - 1) * 2 ^ 971.
Proof.
  intros V. apply valid_finite_range in V. destruct V as (He & Hm & _).
  assert (Hcap : 2 ^ 53 - 1 <= (2 ^ 53 - 1) * 2 ^ 971).
  { pose proof (pow2_pos 971 ltac:(lia)). nia. }
  destruct (Z_le_gt_dec 0 e) as [Hpos | Hneg].
  - rewrite Z.shiftl_mul_pow2 by assumption.
    assert (2 ^ e <= 2 ^ 971) by (apply Z.pow_le_mono_r; lia).
    pose proof (pow2_pos e Hpos).
    destruct s; cbn [cond_Zopp]; rewrite Z.abs_mul, ?Z.abs_opp;
      rewrite (Z.abs_eq (Zpos m)), (Z.abs_eq (2 ^ e)) by lia; nia.
  - rewrite Z.shiftl_div_pow2 by lia.
    pose proof (pow2_pos (- e) ltac:(lia)) as Hp.
    pose proof (Z_div_mod_eq_full (cond_Zopp s (Zpos m)) (2 ^ (- e))) as Hdm.
    pose proof (Z.mod_pos_bound (cond_Zopp s (Zpos m)) (2 ^ (- e)) Hp) as Hmod.
    destruct s; cbn [cond_Zopp] in *; nia.
Qed.

(** The floor of a float converts back without overflow. *)
Lemma of_int_floor (x : float) (n : Z) :
  valid x = true -> floor x = Ok n -> exists y, of_int n = Ok y.
Proof.
  intros V H. exists (Z2F n). apply of_int_finite, Z2F_finite.
  destruct x as [s | s | | s m e]; simpl in H; try discriminate;
    injection H as <-.
  - change (Z.abs 0) with 0. pose proof (pow2_pos 971 ltac:(lia)). nia.
  - now apply floor_bound.
Qed.

Lemma Z2F_nonneg (n : Z) : 0 <= n -> nonneg (Z2F n).
Proof.
  intros Hn. unfold Z2F, binary_normalize.
  destruct n as [| p | p]; [exact I | apply binary_round_nonneg | lia].
Qed.

(** The floor of a product of two quantities that are not negative. *)
Lemma floor_mul_nonneg (total : Z) (v : float) (n : Z) :
  0 <= total -> leb Lit.f0_0 v = true ->
  floor (mul (Z2F total) v) = Ok n -> 0 <= n.
Proof.
  intros Ht Hv H.
  pose proof (mul_nonneg _ _ (Z2F_nonneg total Ht)
                (ltac:(destruct v as [? | [] | | [] ? ?]; simpl; auto; discriminate)
                 : nonneg_or_nan v)) as Hs.
  destruct (mul (Z2F total) v) as [s | s | | s m e]; simpl in H;
    try discriminate; injection H as <-; [lia |].
  simpl in Hs. subst s. cbn [cond_Zopp]. apply Z.shiftl_nonneg. lia.
Qed.

End IntFacts.

Module TotalOrder.
Import PyFloat RoundFacts RoundFacts2 RoundFacts3 RoundFacts4 RoundFacts5.
Import OrderFacts MonoFacts SubFacts.

(** *** The order of the floats that are numbers *)

Lemma ival_below_top (x : float) :
  valid x = true -> - top_units < ival x < top_units.
Proof.
  intros V. unfold top_units.
  assert (Htop : 0 < units (2 ^ 53) 971).
  { unfold units. apply Z.mul_pos_pos; [reflexivity |].
    apply pow2_pos. unfold emin. lia. }
  destruct x as [s | s | | s m e]; cbn [ival]; try lia.
  pose proof (valid_finite_range _ _ _ V) as (He & Hm & _).
  pose proof (units_pos m e ltac:(lia)) as Hpos.
  assert (Hlt : units (Zpos m) e < units (2 ^ 53) 971).
  { unfold units.
    apply Z.lt_le_trans with (2 ^ 53 * 2 ^ (e - emin)).
    - apply Z.mul_lt_mono_pos_r; [apply pow2_pos; lia | exact Hm].
    - apply Z.mul_le_mono_nonneg_l; [apply Z.pow_nonneg; lia |].
      apply Z.pow_le_mono_r; lia. }
  destruct s; cbn [cond_Zopp]; lia.
Qed.

Lemma compare_xval (x y : float) :
  valid x = true -> valid y = true ->
  is_nan x = false -> is_nan y = false ->
  SFcompare x y = Some (xval x ?= xval y).
Proof.
  intros Vx Vy Nx Ny.
  pose proof (ival_below_top x Vx) as Bx.
  pose proof (ival_below_top y Vy) as By.
  destruct x as [sx | sx | | sx mx ex]; try discriminate;
    destruct y as [sy | sy | | sy my ey]; try discriminate;
    try exact (compare_ival _ _ Vx Vy eq_refl eq_refl).
  - cbn [SFcompare xval] in *. f_equal. symmetry.
    destruct sy; cbn [cond_Zopp];
      [apply Z.compare_gt_iff | apply Z.compare_lt_iff]; lia.
  - cbn [SFcompare xval] in *. f_equal. symmetry.
    destruct sx; cbn [cond_Zopp];
      [apply Z.compare_lt_iff | apply Z.compare_gt_iff]; lia.
  - cbn [SFcompare xval] in *. f_equal. symmetry.
    destruct sx, sy; cbn [cond_Zopp];
      [apply Z.compare_eq_iff | apply Z.compare_lt_iff
       | apply Z.compare_gt_iff | apply Z.compare_eq_iff]; lia.
  - cbn [SFcompare xval] in *. f_equal. symmetry.
    destruct sx; cbn [cond_Zopp];
      [apply Z.compare_lt_iff | apply Z.compare_gt_iff]; lia.
  - cbn [SFcompare xval] in *. f_equal. symmetry.
    destruct sy; cbn [cond_Zopp];
      [apply Z.compare_gt_iff | apply Z.compare_lt_iff]; lia.
Qed.

Lemma ltb_xval (x y : float) :
  valid x = true -> valid y = true ->
  is_nan x = false -> is_nan y = false ->
  ltb x y = true <-> xval x < xval y.
Proof.
  intros Vx Vy Nx Ny. unfold ltb, SFltb.
  rewrite (compare_xval x y Vx Vy Nx Ny).
  destruct (Z.compare_spec (xval x) (xval y)); split; intros; try lia;
    try discriminate; reflexivity.
Qed.

Lemma eqb_xval (x y : float) :
  valid x = true -> valid y = true ->
  is_nan x = false -> is_nan y = false ->
  eqb x y = true <-> xval x = xval y.
Proof.
  intros Vx Vy Nx Ny. unfold eqb, SFeqb.
  rewrite (compare_xval x y Vx Vy Nx Ny).
  destruct (Z.compare_spec (xval x) (xval y)); split; intros; try lia;
    try discriminate; reflexivity.
Qed.

(** *** A difference of two finite floats is a number *)

Lemma rounded_not_nan (s : bool) (z E : Z) : is_nan (rounded s z E) = false.
Proof.
  unfold rounded. destruct z; try reflexivity.
  destruct (_ <? _); [destruct (_ <=? _) | destruct (_ <=? _)]; reflexivity.
Qed.

Lemma binary_normalize_not_nan (D e : Z) (szero : bool) :
  is_nan (binary_normalize prec emax D e szero) = false.
Proof.
  unfold binary_normalize. destruct D; [reflexivity | |];
    rewrite binary_round_rounded; apply rounded_not_nan.
Qed.

Lemma sub_not_nan (x y : float) :
  valid x = true -> valid y = true ->
  is_finite x = true -> is_finite y = true -> is_nan (sub x y) = false.
Proof.
  intros Vx Vy Fx Fy.
  destruct x as [sx | sx | | sx mx ex]; try discriminate;
    destruct y as [sy | sy | | sy my ey]; try discriminate.
  - destruct sx, sy; reflexivity.
  - reflexivity.
  - reflexivity.
  - pose proof (valid_finite_range _ _ _ Vx) as (Hex & _).
    pose proof (valid_finite_range _ _ _ Vy) as (Hey & _).
    destruct (sub_finite sx sy mx my ex ey ltac:(lia) ltac:(lia))
      as (D & ez & -> & _).
    apply binary_normalize_not_nan.
Qed.

End TotalOrder.

(** ** Half of the pool *)

Module KeptFacts.
Import PyFloat Lit.
Import RoundFacts RoundFacts2 RoundFacts3 RoundFacts4 IntFacts.

Lemma rounded_finite (s : bool) (z E : Z) :
  0 < z < 2 ^ 53 -> E <= 971 ->
  rounded s z E = S754_finite s (Z.to_pos z) E.
Proof.
  intros Hz HE. unfold rounded. destruct z as [| p | p]; try lia.
  rewrite (proj2 (Z.ltb_lt _ _)) by lia.
  rewrite (proj2 (Z.leb_le _ _)) by lia. reflexivity.
Qed.

Lemma rne_0 (m : Z) : rne m 0 = m.
Proof. reflexivity. Qed.

(** An integer below 2^53 converts exactly: its mantissa is the
    integer shifted to 53 digits. *)
Lemma Z2F_small (p : positive) :
  Zpos p < 2 ^ 53 ->
  let d := Zdigits2 (Zpos p) in
  Z2F (Zpos p) = S754_finite false (Z.to_pos (Zpos p * 2 ^ (53 - d))) (d - 53)
  /\ 2 ^ 52 <= Zpos p * 2 ^ (53 - d) < 2 ^ 53.
Proof.
  intros Hp d.
  pose proof (Zdigits2_bounds p) as [Hlo Hhi]. fold d in Hlo, Hhi.
  pose proof (Zdigits2_pos p) as Hd1. fold d in Hd1.
  assert (Hd : d <= 53).
  { destruct (Z_le_gt_dec d 53); [assumption |].
    assert (2 ^ 53 <= 2 ^ (d - 1)) by (apply Z.pow_le_mono_r; lia). lia. }
  assert (HM : 2 ^ 52 <= Zpos p * 2 ^ (53 - d) < 2 ^ 53).
  { pose proof (pow2_pos (53 - d) ltac:(lia)) as Hw.
    assert (H52 : 2 ^ 52 = 2 ^ (d - 1) * 2 ^ (53 - d))
      by (rewrite <- Z.pow_add_r by lia; f_equal; lia).
    assert (H53 : 2 ^ 53 = 2 ^ d * 2 ^ (53 - d))
      by (rewrite <- Z.pow_add_r by lia; f_equal; lia).
    rewrite H52, H53. split.
    - apply Z.mul_le_mono_nonneg_r; lia.
    - apply Z.mul_lt_mono_pos_r; lia. }
  split; [| exact HM].
  unfold Z2F, binary_normalize. rewrite binary_round_rounded. fold d.
  rewrite Z.add_0_r, fexp_eq.
  replace (Z.max (d - 53) emin) with (d - 53) by (unfold emin; lia).
  replace (Z.min 0 (d - 53)) with (d - 53) by lia.
  rewrite Z.sub_diag, rne_0.
  replace (0 - (d - 53)) with (53 - d) by lia.
  apply rounded_finite; lia.
Qed.

Lemma f0_5_eq : f0_5 = S754_finite false (Z.to_pos (2 ^ 52)) (-53).
Proof. reflexivity. Qed.

(** Halving a float with a full mantissa lowers its exponent. *)
Lemma mul_half (M : positive) (e : Z) :
  2 ^ 52 <= Zpos M < 2 ^ 53 -> emin + 1 <= e <= 971 ->
  mul (S754_finite false M e) f0_5 = S754_finite false M (e - 1).
Proof.
  intros HM He. rewrite f0_5_eq. unfold mul, SFmul. cbn [xorb].
  assert (Hd : Zdigits2 (Zpos (M * Z.to_pos (2 ^ 52))) = 105).
  { apply Zdigits2_unique. rewrite Pos2Z.inj_mul.
    change (Zpos (Z.to_pos (2 ^ 52))) with (2 ^ 52).
    change (2 ^ (105 - 1)) with (2 ^ 52 * 2 ^ 52).
    change (2 ^ 105) with (2 ^ 53 * 2 ^ 52). lia. }
  pose proof (binary_round_aux_exact false (M * Z.to_pos (2 ^ 52)) (e + -53)) as H.
  cbv zeta in H. rewrite Hd, fexp_eq in H.
  replace (Z.max (105 + (e + -53) - 53) emin) with (e - 1) in H
    by (unfold emin in *; lia).
  rewrite H by lia.
  replace (e - 1 - (e + -53)) with 52 by lia.
  rewrite rne_exact.
  - rewrite Pos2Z.inj_mul. change (Zpos (Z.to_pos (2 ^ 52))) with (2 ^ 52).
    rewrite Z.div_mul by lia.
    rewrite rounded_finite by lia. reflexivity.
  - lia.
  - lia.
  - rewrite Pos2Z.inj_mul. change (Zpos (Z.to_pos (2 ^ 52))) with (2 ^ 52).
    apply Z.mod_mul. lia.
Qed.

Lemma round_half (n : Z) :
  0 <= n < 2 ^ 53 ->
  (x <- int_mul n f0_5 ;; round x) = Ok (half_even n).
Proof.
  intros Hn. unfold int_mul.
  destruct n as [| p | p]; [reflexivity | | lia].
  destruct (Z2F_small p ltac:(lia)) as [HZ HM]. cbv zeta in HZ, HM.
  pose proof (Zdigits2_pos p) as Hd1.
  set (d := Zdigits2 (Zpos p)) in *.
  assert (Hd : d <= 53).
  { pose proof (Zdigits2_bounds p) as [Hlo _]. fold d in Hlo.
    destruct (Z_le_gt_dec d 53); [assumption |].
    assert (2 ^ 53 <= 2 ^ (d - 1)) by (apply Z.pow_le_mono_r; lia). lia. }
  unfold of_int. rewrite HZ. cbn [bind].
  set (M := Zpos p * 2 ^ (53 - d)) in *.
  rewrite mul_half; [| rewrite Z2Pos.id by lia; exact HM | unfold emin; lia].
  cbn [round cond_Zopp]. f_equal. rewrite Z2Pos.id by lia.
  unfold round_half_even, half_even.
  rewrite (proj2 (Z.leb_gt _ _)) by lia.
  replace (- (d - 53 - 1)) with (1 + (53 - d)) by lia.
  rewrite Z.pow_add_r by lia. change (2 ^ 1) with 2.
  pose proof (pow2_pos (53 - d) ltac:(lia)) as Hpw.
  subst M.
  rewrite Z.div_mul_cancel_r by lia.
  rewrite Z.mul_mod_distr_r by lia.
  rewrite (Zmod_even (Zpos p)).
  destruct (Z.even (Zpos p)).
  - rewrite Z.mul_0_l, Z.mul_0_r.
    rewrite (proj2 (Z.compare_lt_iff _ _)) by lia. reflexivity.
  - rewrite Z.mul_1_l. rewrite Z.compare_refl. reflexivity.
Qed.

End KeptFacts.

(** ** The quota allocator: the integer side *)

Module QuotaFacts.
Import PyFloat Dict DictFacts Quota.

Lemma mapM_Forall2 {A B : Type} (f : A -> result B) (l : list A) (ys : list B) :
  mapM f l = Ok ys -> Forall2 (fun x y => f x = Ok y) l ys.
Proof.
  revert ys. induction l as [| x l IH]; intros ys; simpl.
  - intros [= <-]. constructor.
  - destruct (f x) as [y |] eqn:Hy; simpl; [| discriminate].
    destruct (mapM f l) as [ys' |]; simpl; [| discriminate].
    intros [= <-]. constructor; auto.
Qed.

Lemma mapM_total {A B : Type} (f : A -> result B) (l : list A) :
  Forall (fun x => exists y, f x = Ok y) l -> exists ys, mapM f l = Ok ys.
Proof.
  induction 1 as [| x l [y Hy] _ [ys Hys]]; simpl.
  - eauto.
  - rewrite Hy, Hys. simpl. eauto.
Qed.

(** *** One more unit for a key *)

Lemma sum_set (k : string) (n v : Z) (d : dict Z) :
  get k d = Ok n ->
  sum_Z (values (set k v d)) = sum_Z (values d) - n + v.
Proof.
  induction d as [| [k' n'] d IH]; simpl; [discriminate |].
  destruct (String.eqb k' k) eqn:E; simpl.
  - intros [= ->]. lia.
  - intros H. rewrite (IH H). lia.
Qed.

Lemma get_Ok_key {V : Type} (k : string) (v : V) (d : dict V) :
  get k d = Ok v -> In k (keys d).
Proof.
  intros H. apply get_Ok_In in H. change k with (fst (k, v)).
  now apply in_map.
Qed.

Lemma key_at_In (fracs : list (float * string)) (i : Z) :
  fracs <> [] -> exists k, key_at fracs i = Some k /\ In k (map snd fracs).
Proof.
  intros Hne. unfold key_at. destruct fracs as [| f0 fracs']; [contradiction |].
  set (fracs := f0 :: fracs') in *.
  assert (Hlen : 0 < Z.of_nat (List.length fracs)) by (subst fracs; simpl; lia).
  pose proof (Z.mod_pos_bound i _ Hlen) as Hb.
  destruct (nth_error fracs (Z.to_nat (i mod Z.of_nat (List.length fracs))))
    as [[f k] |] eqn:Hn.
  - exists k. split; [reflexivity |].
    apply nth_error_In in Hn. change k with (snd (f, k)). now apply in_map.
  - apply nth_error_None in Hn. lia.
Qed.

Lemma bump_key (fracs : list (float * string)) (floors : dict Z) (i : Z) (k : string) :
  key_at fracs i = Some k ->
  bump fracs floors i = (n <- get k floors ;; Ok (set k (n + 1) floors)).
Proof.
  unfold key_at, bump. destruct fracs as [| f0 fracs']; [discriminate |].
  destruct (nth_error _ _) as [[f k'] |]; simpl; [| discriminate].
  now intros [= ->].
Qed.

Lemma distribute_spec (fracs : list (float * string)) (n : nat) :
  forall (i : Z) (floors : dict Z),
    fracs <> [] \/ n = O ->
    (forall k, In k (map snd fracs) -> In k (keys floors)) ->
    exists caps,
      distribute fracs n i floors = Ok caps
      /\ keys caps = keys floors
      /\ sum_Z (values caps) = sum_Z (values floors) + Z.of_nat n
      /\ forall k v, get k floors = Ok v ->
           get k caps = Ok (v + hits fracs n i k).
Proof.
  induction n as [| n IH]; intros i floors Hne Hkeys.
  - exists floors. simpl. repeat split; auto; try lia.
    intros k v ->. f_equal. lia.
  - destruct Hne as [Hne | Hn]; [| discriminate].
    destruct (key_at_In fracs i Hne) as (k0 & Hk0 & Hin0).
    destruct (get_In _ _ (Hkeys _ Hin0)) as [n0 Hn0].
    simpl distribute. rewrite (bump_key _ _ _ _ Hk0), Hn0. simpl bind.
    destruct (IH (i + 1) (set k0 (n0 + 1) floors)) as (caps & Hrun & Hk & Hsum & Hget).
    { now left. }
    { intros k Hin. rewrite keys_set_In by (eapply get_Ok_key; eassumption). auto. }
    exists caps. split; [assumption |]. split.
    { rewrite Hk. apply keys_set_In. eapply get_Ok_key; eassumption. }
    split.
    { rewrite Hsum, (sum_set _ _ _ _ Hn0). lia. }
    intros k v Hv. simpl hits. rewrite Hk0.
    destruct (String.eqb k0 k) eqn:E.
    + apply String.eqb_eq in E. subst k0.
      rewrite (Hget k (n0 + 1)) by apply get_set_eq.
      f_equal. rewrite Hv in Hn0. injection Hn0 as <-. lia.
    + apply String.eqb_neq in E.
      rewrite (Hget k v) by (rewrite get_set_neq; assumption).
      f_equal.
Qed.

End QuotaFacts.

Module QuotaFacts2.
Import PyFloat Dict DictFacts Quota QuotaFacts.

(** *** Counting the round robin *)

Lemma turns_succ (L p x : Z) :
  0 <= p < L -> 0 <= x ->
  turns L p (x + 1) = turns L p x + (if x mod L =? p then 1 else 0).
Proof.
  intros Hp Hx. unfold turns.
  pose proof (Z_div_mod_eq_full x L) as Hdm.
  pose proof (Z.mod_pos_bound x L ltac:(lia)) as Hb.
  set (a := x / L) in *. set (b := x mod L) in *.
  destruct (Z.eqb_spec b p) as [Heq | Hne].
  - symmetry. apply (Z.div_unique _ _ _ 0); [lia |].
    assert (Hq : (x + L - 1 - p) / L = a).
    { symmetry. apply (Z.div_unique _ _ _ (L - 1)); lia. }
    rewrite Hq. lia.
  - destruct (Z_lt_le_dec b p) as [Hlt | Hge].
    + assert (Hq : (x + L - 1 - p) / L = a).
      { symmetry. apply (Z.div_unique _ _ _ (b + L - 1 - p)); lia. }
      rewrite Hq, Z.add_0_r.
      symmetry. apply (Z.div_unique _ _ _ (b + L - p)); lia.
    + assert (Hq : (x + L - 1 - p) / L = a + 1).
      { symmetry. apply (Z.div_unique _ _ _ (b - 1 - p)); lia. }
      rewrite Hq, Z.add_0_r.
      symmetry. apply (Z.div_unique _ _ _ (b - p)); lia.
Qed.

Lemma turns_zero (L p : Z) : 0 <= p < L -> turns L p 0 = 0.
Proof.
  intros Hp. unfold turns. apply Z.div_small. lia.
Qed.

Lemma turns_bounds (L p x : Z) :
  0 <= p < L -> x / L <= turns L p x <= (x + L - 1) / L.
Proof.
  intros Hp. unfold turns. split; apply Z.div_le_mono; lia.
Qed.

Lemma key_at_position (fracs : list (float * string)) (i : Z) (p : nat) (k : string) :
  NoDup (map snd fracs) ->
  nth_error (map snd fracs) p = Some k ->
  (match key_at fracs i with
   | Some k' => if String.eqb k' k then 1 else 0
   | None => 0
   end) = if i mod Z.of_nat (List.length fracs) =? Z.of_nat p then 1 else 0.
Proof.
  intros Hnd Hp. unfold key_at.
  destruct fracs as [| f0 fracs']; [destruct p; discriminate |].
  set (fracs := f0 :: fracs') in *.
  assert (Hlen : 0 < Z.of_nat (List.length fracs)) by (subst fracs; simpl; lia).
  pose proof (Z.mod_pos_bound i _ Hlen) as Hb.
  set (j := Z.to_nat (i mod Z.of_nat (List.length fracs))).
  assert (Hj : (j < List.length (map snd fracs))%nat)
    by (rewrite length_map; subst j; lia).
  rewrite <- nth_error_map.
  destruct (nth_error (map snd fracs) j) as [k' |] eqn:Hk';
    [| apply nth_error_None in Hk'; lia].
  cbn [option_map]. destruct (String.eqb_spec k' k) as [-> | Hne].
  - assert (j = p).
    { apply (proj1 (NoDup_nth_error _) Hnd); [assumption | congruence]. }
    replace (i mod Z.of_nat (List.length fracs)) with (Z.of_nat j)
      by (subst j; lia).
    subst p. now rewrite Z.eqb_refl.
  - destruct (Z.eqb_spec (i mod Z.of_nat (List.length fracs)) (Z.of_nat p))
      as [Heq | _]; [| reflexivity].
    exfalso. apply Hne. assert (j = p) by (subst j; lia). congruence.
Qed.

Lemma hits_turns (fracs : list (float * string)) (p : nat) (k : string) :
  NoDup (map snd fracs) ->
  nth_error (map snd fracs) p = Some k ->
  forall (n : nat) (i : Z),
    0 <= i ->
    hits fracs n i k =
      turns (Z.of_nat (List.length fracs)) (Z.of_nat p) (i + Z.of_nat n)
      - turns (Z.of_nat (List.length fracs)) (Z.of_nat p) i.
Proof.
  intros Hnd Hp.
  assert (Hpl : 0 <= Z.of_nat p < Z.of_nat (List.length fracs)).
  { assert (p < List.length (map snd fracs))%nat
      by (apply nth_error_Some; congruence).
    rewrite length_map in *. lia. }
  induction n as [| n IH]; intros i Hi.
  - simpl. rewrite Z.add_0_r. lia.
  - simpl hits. rewrite (key_at_position _ _ _ _ Hnd Hp).
    rewrite IH by lia. rewrite (turns_succ _ _ i) by lia.
    replace (i + 1 + Z.of_nat n) with (i + Z.of_nat (S n)) by lia. lia.
Qed.

(** The share of the remainder that a key receives lies between the
    floor and the ceiling of an even split. *)
Lemma hits_bounds (fracs : list (float * string)) (n : nat) (k : string) :
  NoDup (map snd fracs) -> In k (map snd fracs) ->
  let L := Z.of_nat (List.length fracs) in
  Z.of_nat n / L <= hits fracs n 0 k <= (Z.of_nat n + L - 1) / L.
Proof.
  intros Hnd Hin L. destruct (In_nth_error _ _ Hin) as [p Hp].
  assert (Hpl : 0 <= Z.of_nat p < L).
  { assert (p < List.length (map snd fracs))%nat
      by (apply nth_error_Some; congruence).
    rewrite length_map in *. subst L. lia. }
  rewrite (hits_turns _ _ _ Hnd Hp) by lia. fold L.
  rewrite turns_zero by assumption. rewrite Z.add_0_l, Z.sub_0_r.
  now apply turns_bounds.
Qed.

(** *** Sorting keeps the entries *)

Lemma insert_desc_perm (x : float * string) (l : list (float * string)) :
  Permutation (insert_desc x l) (x :: l).
Proof.
  induction l as [| y l IH]; simpl; [reflexivity |].
  destruct (tuple_ltb x y); [| reflexivity].
  rewrite IH. apply perm_swap.
Qed.

Lemma sorted_reverse_perm (l : list (float * string)) :
  Permutation (sorted_reverse l) l.
Proof.
  induction l as [| x l IH]; simpl; [reflexivity |].
  rewrite insert_desc_perm. now constructor.
Qed.

End QuotaFacts2.

Module QuotaFacts3.
Import PyFloat Dict DictFacts Quota QuotaFacts QuotaFacts2.
Import RoundFacts4 RoundFacts5 IntFacts.

(** *** The dictionaries built before the loop *)

Lemma floors_of_split (total : Z) (ratios : dict float) :
  Forall (fun kv => valid (snd kv) = true) ratios ->
  forall fl,
    floors_of total ratios = Ok fl ->
    exists raw,
      mapM (raw_entry total) ratios = Ok raw
      /\ mapM floor_entry raw = Ok fl
      /\ keys raw = keys ratios
      /\ keys fl = keys ratios
      /\ Forall (fun kn => exists y, of_int (snd kn) = Ok y) fl.
Proof.
  unfold floors_of, floor_share.
  induction 1 as [| [k v] ratios Hv _ IH]; intros fl; simpl.
  - intros [= <-]. exists []. repeat split; constructor.
  - unfold raw_entry at 1. simpl.
    destruct (int_mul total v) as [x |] eqn:Hx; simpl; [| discriminate].
    destruct (floor x) as [n |] eqn:Hn; simpl; [| discriminate].
    destruct (mapM _ ratios) as [fl' |] eqn:Hfl; simpl; [| discriminate].
    intros [= <-].
    destruct (IH fl' eq_refl) as (raw & Hraw & Hfloors & Hk1 & Hk2 & Hconv).
    exists ((k, x) :: raw). rewrite Hraw. simpl.
    unfold floor_entry at 1. simpl. rewrite Hn, Hfloors. simpl.
    repeat split; try congruence.
    constructor; [| assumption]. simpl.
    eapply of_int_floor; [| eassumption]. eapply int_mul_valid; eassumption.
Qed.

Lemma mapM_snd {A : Type} (g : string -> result (A * string))
    (l : list string) (ys : list (A * string)) :
  (forall x y, g x = Ok y -> snd y = x) ->
  mapM g l = Ok ys -> map snd ys = l.
Proof.
  intros Hg H. apply mapM_Forall2 in H.
  induction H as [| x y l ys Hxy _ IH]; simpl; [reflexivity |].
  now rewrite (Hg _ _ Hxy), IH.
Qed.

Lemma fracs_total (raw : dict float) (floors : dict Z) (ks : list string) :
  (forall k, In k ks -> In k (keys raw) /\ In k (keys floors)) ->
  Forall (fun kn => exists y, of_int (snd kn) = Ok y) floors ->
  exists fr, mapM (frac_entry raw floors) ks = Ok fr /\ map snd fr = ks.
Proof.
  intros Hks Hconv.
  destruct (mapM_total (frac_entry raw floors) ks) as [fr Hfr].
  { rewrite Forall_forall. intros k Hk. destruct (Hks k Hk) as [H1 H2].
    destruct (get_In _ _ H1) as [x Hx]. destruct (get_In _ _ H2) as [n Hn].
    rewrite Forall_forall in Hconv.
    destruct (Hconv _ (get_Ok_In _ _ _ Hn)) as [y Hy]. simpl in Hy.
    unfold frac_entry, sub_int. rewrite Hx, Hn. simpl. rewrite Hy. simpl. eauto. }
  exists fr. split; [assumption |].
  eapply mapM_snd; [| exact Hfr].
  intros k y. unfold frac_entry.
  destruct (get k raw); simpl; [| discriminate].
  destruct (get k floors); simpl; [| discriminate].
  destruct (sub_int _ _); simpl; [| discriminate].
  now intros [= <-].
Qed.

(** *** The allocator *)

Lemma target_counts_spec (total : Z) (ratios : dict float) (fl : dict Z) :
  Forall (fun kv => valid (snd kv) = true) ratios ->
  NoDup (keys ratios) ->
  floors_of total ratios = Ok fl ->
  let rem := Z.max 0 (total - sum_Z (values fl)) in
  let L := Z.of_nat (List.length ratios) in
  ratios <> [] \/ rem = 0 ->
  exists caps,
    target_counts total ratios = Ok caps
    /\ keys caps = keys ratios
    /\ sum_Z (values caps) = sum_Z (values fl) + rem
    /\ forall k f, get k fl = Ok f ->
         exists c, get k caps = Ok c
                   /\ f + rem / L <= c <= f + (rem + L - 1) / L.
Proof.
  intros Hvalid Hnd Hfl rem L Hne.
  destruct (floors_of_split total ratios Hvalid fl Hfl)
    as (raw & Hraw & Hfloors & Hk1 & Hk2 & Hconv).
  destruct (fracs_total raw fl (keys ratios)) as (fr & Hfr & Hsnd).
  { intros k Hk. now rewrite Hk1, Hk2. }
  { assumption. }
  pose proof (sorted_reverse_perm fr) as Hperm.
  assert (Hpk : Permutation (map snd (sorted_reverse fr)) (keys ratios)).
  { rewrite <- Hsnd. now apply Permutation_map. }
  assert (Hlen : List.length (sorted_reverse fr) = List.length ratios).
  { rewrite (Permutation_length Hperm).
    rewrite <- (length_map snd fr), Hsnd. apply length_map. }
  destruct (distribute_spec (sorted_reverse fr)
              (Z.to_nat (total - sum_Z (values fl))) 0 fl)
    as (caps & Hrun & Hkc & Hsum & Hget).
  { destruct Hne as [Hne | Hrem]; [left | right; subst rem; lia].
    intros Hnil. rewrite Hnil in Hlen. destruct ratios; [contradiction | discriminate]. }
  { intros k Hk. rewrite Hk2. eapply Permutation_in; eassumption. }
  exists caps. split; [| split; [| split]].
  - unfold target_counts. fold (raw_entry total). rewrite Hraw. simpl.
    fold floor_entry. rewrite Hfloors. simpl.
    fold (frac_entry raw fl). rewrite Hfr. simpl. exact Hrun.
  - congruence.
  - rewrite Hsum. subst rem. lia.
  - intros k f Hk. exists (f + hits (sorted_reverse fr)
                               (Z.to_nat (total - sum_Z (values fl))) 0 k).
    split; [now apply Hget |].
    pose proof (hits_bounds (sorted_reverse fr)
                  (Z.to_nat (total - sum_Z (values fl))) k) as Hb.
    cbv zeta in Hb. rewrite Hlen in Hb. fold L in Hb.
    replace (Z.of_nat (Z.to_nat (total - sum_Z (values fl)))) with rem in Hb
      by (subst rem; lia).
    assert (Hin : In k (map snd (sorted_reverse fr))).
    { eapply Permutation_in; [symmetry; exact Hpk |].
      rewrite <- Hk2. eapply get_Ok_key; eassumption. }
    assert (Hnd' : NoDup (map snd (sorted_reverse fr))).
    { eapply Permutation_NoDup; [symmetry; exact Hpk | exact Hnd]. }
    specialize (Hb Hnd' Hin). lia.
Qed.

End QuotaFacts3.

Module QuotaFacts4.
Import PyFloat Dict DictFacts Quota QuotaFacts QuotaFacts2 QuotaFacts3.
Import RoundFacts4 RoundFacts5 IntFacts TotalOrder.

(** *** The order in which the categories are served *)

Lemma string_ltb_trans (a b c : string) :
  String.ltb a b = true -> String.ltb b c = true -> String.ltb a c = true.
Proof.
  unfold String.ltb. intros Hab Hbc.
  destruct (String.compare a b) eqn:Eab; try discriminate.
  destruct (String.compare b c) eqn:Ebc; try discriminate.
  apply OrderedTypeEx.String_as_OT.cmp_lt in Eab, Ebc.
  pose proof (OrderedTypeEx.String_as_OT.lt_trans _ _ _ Eab Ebc) as H.
  apply OrderedTypeEx.String_as_OT.cmp_lt in H.
  unfold OrderedTypeEx.String_as_OT.cmp in H. now rewrite H.
Qed.

Lemma string_ltb_total (a b : string) :
  a <> b -> String.ltb a b = false -> String.ltb b a = true.
Proof.
  unfold String.ltb. intros Hne. rewrite (String.compare_antisym b a).
  destruct (String.compare a b) eqn:E; try discriminate; try reflexivity.
  apply String.compare_eq_iff in E. contradiction.
Qed.

Lemma tuple_ltb_precedes (x y : float * string) :
  number x -> number y -> tuple_ltb x y = true -> precedes y x.
Proof.
  intros [Vx Nx] [Vy Ny]. unfold tuple_ltb, precedes.
  destruct (eqb (fst x) (fst y)) eqn:E; intros H.
  - right. split; [| exact H].
    apply (eqb_xval _ _ Vx Vy Nx Ny) in E.
    apply (eqb_xval _ _ Vy Vx Ny Nx). congruence.
  - now left.
Qed.

Lemma not_tuple_ltb_precedes (x y : float * string) :
  number x -> number y -> snd x <> snd y ->
  tuple_ltb x y = false -> precedes x y.
Proof.
  intros [Vx Nx] [Vy Ny] Hne. unfold tuple_ltb, precedes.
  destruct (eqb (fst x) (fst y)) eqn:E; intros H.
  - right. split; [reflexivity |]. now apply string_ltb_total.
  - left. apply (ltb_xval _ _ Vy Vx Ny Nx).
    assert (H1 : ~ xval (fst x) < xval (fst y)).
    { intros Hlt. apply (ltb_xval _ _ Vx Vy Nx Ny) in Hlt. congruence. }
    assert (H2 : xval (fst x) <> xval (fst y)).
    { intros Heq. apply (eqb_xval _ _ Vx Vy Nx Ny) in Heq. congruence. }
    lia.
Qed.

Lemma precedes_trans (x y z : float * string) :
  number x -> number y -> number z ->
  precedes x y -> precedes y z -> precedes x z.
Proof.
  intros [Vx Nx] [Vy Ny] [Vz Nz]. unfold precedes.
  rewrite (ltb_xval _ _ Vy Vx Ny Nx), (ltb_xval _ _ Vz Vy Nz Ny),
    (ltb_xval _ _ Vz Vx Nz Nx), (eqb_xval _ _ Vx Vy Nx Ny),
    (eqb_xval _ _ Vy Vz Ny Nz), (eqb_xval _ _ Vx Vz Nx Nz).
  intros [H1 | [H1 K1]] [H2 | [H2 K2]]; try (left; lia).
  right. split; [lia |]. eapply string_ltb_trans; eassumption.
Qed.

Lemma insert_desc_sorted (x : float * string) (l : list (float * string)) :
  number x -> Forall number l -> ~ In (snd x) (map snd l) ->
  StronglySorted precedes l -> StronglySorted precedes (insert_desc x l).
Proof.
  intros Nx Hl Hnin Hs.
  induction Hs as [| y l Hs IH Hy]; simpl.
  - constructor; constructor.
  - inversion Hl as [| ? ? Ny Hl']; subst.
    destruct (tuple_ltb x y) eqn:E.
    + constructor.
      * apply IH; [assumption |]. intros Hin. apply Hnin. now right.
      * eapply Permutation_Forall;
          [symmetry; apply insert_desc_perm |].
        constructor; [| assumption].
        now apply tuple_ltb_precedes.
    + assert (Hxy : precedes x y).
      { apply not_tuple_ltb_precedes; auto.
        intros Heq. apply Hnin. left. now symmetry. }
      constructor; [now constructor |].
      constructor; [assumption |].
      rewrite Forall_forall in *. intros z Hz.
      apply (precedes_trans x y z); auto.
Qed.

Lemma sorted_reverse_sorted (l : list (float * string)) :
  Forall number l -> NoDup (map snd l) ->
  StronglySorted precedes (sorted_reverse l).
Proof.
  induction l as [| x l IH]; intros Hl Hnd; simpl.
  - constructor.
  - inversion Hl; subst. inversion Hnd; subst.
    apply insert_desc_sorted; auto.
    + eapply Permutation_Forall;
        [symmetry; apply sorted_reverse_perm | assumption].
    + intros Hin. eapply Permutation_in in Hin;
        [| apply Permutation_map, sorted_reverse_perm]. contradiction.
Qed.

(** *** The fractions *)

Lemma floor_Ok_finite (x : float) (n : Z) : floor x = Ok n -> is_finite x = true.
Proof. destruct x; simpl; intros H; try discriminate; reflexivity. Qed.

Lemma of_int_number (n : Z) (y : float) :
  of_int n = Ok y -> valid y = true /\ is_finite y = true.
Proof.
  intros H. destruct (of_int_Ok _ _ H) as [-> Hv]. split; [assumption |].
  unfold of_int in H.
  pose proof (binary_normalize_not_nan n 0 false) as Hn. fold (Z2F n) in Hn.
  destruct (Z2F n); try discriminate; reflexivity.
Qed.

Lemma frac_share_number (total : Z) (v f : float) :
  valid v = true -> frac_share total v = Ok f ->
  valid f = true /\ is_nan f = false.
Proof.
  intros Hv. unfold frac_share, sub_int.
  destruct (int_mul total v) as [x |] eqn:Hx; simpl; [| discriminate].
  destruct (floor x) as [n |] eqn:Hn; simpl; [| discriminate].
  destruct (of_int n) as [y |] eqn:Hy; simpl; [| discriminate].
  intros [= <-].
  pose proof (int_mul_valid _ _ _ Hv Hx) as Vx.
  pose proof (floor_Ok_finite _ _ Hn) as Fx.
  destruct (of_int_number _ _ Hy) as [Vy Fy].
  split; [now apply sub_valid | now apply sub_not_nan].
Qed.

Lemma get_raw (total : Z) (ratios : dict float) (raw : dict float)
    (k : string) (v : float) :
  mapM (raw_entry total) ratios = Ok raw ->
  NoDup (keys ratios) -> In (k, v) ratios ->
  exists x, int_mul total v = Ok x /\ get k raw = Ok x.
Proof.
  revert raw. induction ratios as [| [k0 v0] ratios IH]; intros raw; simpl;
    [contradiction |].
  unfold raw_entry at 1. simpl.
  destruct (int_mul total v0) as [x0 |] eqn:Hx0; simpl; [| discriminate].
  destruct (mapM _ ratios) as [raw' |] eqn:Hraw; simpl; [| discriminate].
  intros [= <-] Hnd Hin. inversion Hnd as [| ? ? Hnin Hnd']; subst.
  destruct Hin as [[= -> ->] | Hin].
  - exists x0. split; [assumption |]. simpl. now rewrite String.eqb_refl.
  - destruct (IH raw' eq_refl Hnd' Hin) as (x & Hx & Hg).
    exists x. split; [assumption |]. simpl.
    destruct (String.eqb_spec k0 k) as [-> | _]; [| assumption].
    exfalso. apply Hnin. change k with (fst (k, v)). now apply in_map.
Qed.

Lemma get_floor (raw : dict float) (fl : dict Z) (k : string) (x : float) :
  mapM floor_entry raw = Ok fl -> get k raw = Ok x ->
  exists n, floor x = Ok n /\ get k fl = Ok n.
Proof.
  revert fl. induction raw as [| [k0 x0] raw IH]; intros fl; simpl;
    [discriminate |].
  unfold floor_entry at 1. simpl.
  destruct (floor x0) as [n0 |] eqn:Hn0; simpl; [| discriminate].
  destruct (mapM _ raw) as [fl' |] eqn:Hfl; simpl; [| discriminate].
  intros [= <-]. simpl. destruct (String.eqb k0 k).
  - intros [= <-]. eauto.
  - intros Hg. now apply IH.
Qed.

Lemma fracs_shares (total : Z) (ratios raw : dict float) (fl : dict Z)
    (ks : list string) (fr : list (float * string)) :
  mapM (raw_entry total) ratios = Ok raw ->
  mapM floor_entry raw = Ok fl ->
  NoDup (keys ratios) ->
  (forall k, In k ks -> In k (keys ratios)) ->
  mapM (frac_entry raw fl) ks = Ok fr ->
  forall f k, In (f, k) fr ->
    exists v, In (k, v) ratios /\ frac_share total v = Ok f.
Proof.
  intros Hraw Hfl Hnd. revert fr.
  induction ks as [| k0 ks IH]; intros fr Hks; simpl.
  - intros [= <-] f k [].
  - destruct (frac_entry raw fl k0) as [[f0 k0'] |] eqn:E0; simpl;
      [| discriminate].
    destruct (mapM _ ks) as [fr' |] eqn:Hfr; simpl; [| discriminate].
    intros [= <-] f k [[= -> ->] | Hin].
    + assert (Hk0 : In k0 (keys ratios)) by (apply Hks; now left).
      apply in_map_iff in Hk0. destruct Hk0 as ([k1 v] & Hk1 & Hin).
      simpl in Hk1. subst k1.
      destruct (get_raw _ _ _ _ _ Hraw Hnd Hin) as (x & Hx & Hgx).
      destruct (get_floor _ _ _ _ Hfl Hgx) as (n & Hn & Hgn).
      unfold frac_entry in E0. rewrite Hgx, Hgn in E0. simpl in E0.
      destruct (sub_int x n) as [f' |] eqn:Hs; simpl in E0; [| discriminate].
      injection E0 as <- <-. exists v. split; [assumption |].
      unfold frac_share. rewrite Hx. simpl. rewrite Hn. simpl. exact Hs.
    + eapply IH; eauto. intros k' Hk'. apply Hks. now right.
Qed.

(** *** Counting the steps *)

Lemma steps_at_turns (L p : Z) (r : nat) :
  0 <= p < L -> steps_at L p (Z.of_nat r) = turns L p (Z.of_nat r).
Proof.
  intros Hp. unfold steps_at. rewrite Nat2Z.id.
  induction r as [| r IH].
  - simpl. symmetry. now apply turns_zero.
  - rewrite seq_S, map_app, filter_app, length_app, Nat2Z.inj_add, IH.
    replace (Z.of_nat (S r)) with (Z.of_nat r + 1) by lia.
    rewrite turns_succ by lia. f_equal. simpl.
    destruct (Z.of_nat r mod L =? p); reflexivity.
Qed.

Lemma turns_closed (L p x : Z) :
  0 <= p < L -> 0 <= x ->
  turns L p x = x / L + (if p <? x mod L then 1 else 0).
Proof.
  intros Hp Hx. unfold turns.
  pose proof (Z_div_mod_eq_full x L) as Hdm.
  pose proof (Z.mod_pos_bound x L ltac:(lia)) as Hb.
  set (a := x / L) in *. set (b := x mod L) in *.
  symmetry. destruct (Z.ltb_spec p b) as [Hlt | Hge].
  - apply (Z.div_unique _ _ _ (b - 1 - p)); lia.
  - apply (Z.div_unique _ _ _ (b + L - 1 - p)); lia.
Qed.

Lemma steps_at_closed (L p r : Z) :
  0 <= p < L -> 0 <= r ->
  steps_at L p r = r / L + (if p <? r mod L then 1 else 0).
Proof.
  intros Hp Hr. rewrite <- (Z2Nat.id r Hr) at 1.
  rewrite steps_at_turns by assumption. rewrite Z2Nat.id by assumption.
  now apply turns_closed.
Qed.

(** *** The allocator, step by step *)

Lemma target_counts_trace (total : Z) (ratios : dict float) (fl : dict Z) :
  Forall (fun kv => valid (snd kv) = true) ratios ->
  NoDup (keys ratios) ->
  floors_of total ratios = Ok fl ->
  let rem := Z.max 0 (total - sum_Z (values fl)) in
  let L := Z.of_nat (List.length ratios) in
  ratios <> [] \/ rem = 0 ->
  exists caps fracs,
    target_counts total ratios = Ok caps
    /\ Permutation (map snd fracs) (keys ratios)
    /\ (forall f k, In (f, k) fracs ->
          exists v, In (k, v) ratios /\ frac_share total v = Ok f)
    /\ StronglySorted precedes fracs
    /\ forall j f k n,
         nth_error fracs j = Some (f, k) -> get k fl = Ok n ->
         get k caps = Ok (n + steps_at L (Z.of_nat j) rem).
Proof.
  intros Hvalid Hnd Hfl rem L Hne.
  destruct (floors_of_split total ratios Hvalid fl Hfl)
    as (raw & Hraw & Hfloors & Hk1 & Hk2 & Hconv).
  destruct (fracs_total raw fl (keys ratios)) as (fr & Hfr & Hsnd).
  { intros k Hk. now rewrite Hk1, Hk2. }
  { assumption. }
  pose proof (sorted_reverse_perm fr) as Hperm.
  assert (Hpk : Permutation (map snd (sorted_reverse fr)) (keys ratios)).
  { rewrite <- Hsnd. now apply Permutation_map. }
  assert (Hlen : List.length (sorted_reverse fr) = List.length ratios).
  { rewrite (Permutation_length Hperm).
    rewrite <- (length_map snd fr), Hsnd. apply length_map. }
  assert (Hnd' : NoDup (map snd (sorted_reverse fr))).
  { eapply Permutation_NoDup; [symmetry; exact Hpk | exact Hnd]. }
  pose proof (fracs_shares total ratios raw fl (keys ratios) fr
                Hraw Hfloors Hnd (fun k H => H) Hfr) as Hshare.
  destruct (distribute_spec (sorted_reverse fr)
              (Z.to_nat (total - sum_Z (values fl))) 0 fl)
    as (caps & Hrun & Hkc & Hsum & Hget).
  { destruct Hne as [Hne | Hrem]; [left | right; subst rem; lia].
    intros Hnil. rewrite Hnil in Hlen. destruct ratios; [contradiction | discriminate]. }
  { intros k Hk. rewrite Hk2. eapply Permutation_in; eassumption. }
  exists caps, (sorted_reverse fr). split; [| split; [| split; [| split]]].
  - unfold target_counts. fold (raw_entry total). rewrite Hraw. simpl.
    fold floor_entry. rewrite Hfloors. simpl.
    fold (frac_entry raw fl). rewrite Hfr. simpl. exact Hrun.
  - exact Hpk.
  - intros f k Hin. apply (Hshare f k).
    eapply Permutation_in; [exact Hperm | exact Hin].
  - apply sorted_reverse_sorted.
    + rewrite Forall_forall. intros [f k] Hin.
      destruct (Hshare f k Hin) as (v & Hv & Hf).
      rewrite Forall_forall in Hvalid.
      exact (frac_share_number total v f (Hvalid _ Hv) Hf).
    + now rewrite Hsnd.
  - intros j f k n Hj Hn.
    rewrite (Hget k n Hn). f_equal. f_equal.
    assert (Hjk : nth_error (map snd (sorted_reverse fr)) j = Some k).
    { rewrite nth_error_map, Hj. reflexivity. }
    assert (Hjl : 0 <= Z.of_nat j < L).
    { assert (j < List.length (sorted_reverse fr))%nat
        by (apply nth_error_Some; congruence).
      subst L. lia. }
    rewrite (hits_turns _ _ _ Hnd' Hjk) by lia.
    rewrite Hlen. fold L. rewrite turns_zero by assumption.
    rewrite Z.add_0_l, Z.sub_0_r.
    rewrite <- steps_at_turns by assumption.
    f_equal. subst rem. lia.
Qed.

End QuotaFacts4.

(** ** The error of one rounding *)

Module ErrorFacts.
Import PyFloat Lit.
Import RoundFacts RoundFacts2 RoundFacts3 RoundFacts4 RoundFacts5.
Import OrderFacts MonoFacts SubFacts IntFacts KeptFacts.

(** A quotient [z] of [M] by [K] that is [M / K] or one more, and
    exact when the division is, is within [2^-52] of [M], relative
    to either, as soon as it has 53 digits. *)
Lemma faithful_error (M K P z : Z) :
  0 <= M -> 0 < K -> 0 < P ->
  M / K <= z <= M / K + 1 ->
  (M mod K = 0 -> z = M / K) ->
  2 ^ 52 <= M / K \/ M mod K = 0 ->
  Z.abs (z * K * P - M * P) * 2 ^ 52 <= M * P
  /\ Z.abs (z * K * P - M * P) * 2 ^ 52 <= z * K * P.
Proof.
  intros HM HK HP Hz Hex Hbig.
  pose proof (Z_div_mod_eq_full M K) as Hdm.
  pose proof (Z.mod_pos_bound M K HK) as Hmod.
  set (q := M / K) in *. set (r := M mod K) in *.
  assert (Hq : 0 <= q) by (subst q; apply Z.div_pos; lia).
  destruct (Z.eq_dec r 0) as [Hr0 | Hr0].
  - rewrite (Hex Hr0). replace (q * K * P - M * P) with 0 by nia.
    simpl. nia.
  - destruct Hbig as [Hbig | ?]; [| contradiction].
    assert (Hd : z = q \/ z = q + 1) by lia.
    assert (HKP : 0 < K * P) by nia.
    assert (Hlow : 2 ^ 52 * (K * P) <= q * (K * P)) by nia.
    destruct Hd as [-> | ->].
    + replace (q * K * P - M * P) with (- (r * P)) by nia.
      rewrite Z.abs_opp, Z.abs_eq by nia.
      assert (r * P < K * P) by nia. nia.
    + replace ((q + 1) * K * P - M * P) with ((K - r) * P) by nia.
      rewrite Z.abs_eq by nia.
      assert ((K - r) * P < K * P) by nia. nia.
Qed.

Lemma rounded_ival (s : bool) (z E : Z) :
  0 <= z <= 2 ^ 53 -> emin <= E ->
  is_finite (rounded s z E) = true ->
  ival (rounded s z E) = cond_Zopp s (units z E).
Proof.
  intros Hz HE. unfold rounded.
  destruct z as [| p | p]; [| | lia].
  - intros _. unfold units. now destruct s.
  - destruct (Zpos p <? 2 ^ 53) eqn:Hlt.
    + destruct (E <=? 971); [reflexivity | discriminate].
    + apply Z.ltb_ge in Hlt.
      destruct (E + 1 <=? 971); [| discriminate]. intros _.
      cbn [ival]. f_equal. replace (Zpos p) with (2 ^ 53) by lia.
      unfold units. change (Zpos (Z.to_pos (2 ^ 52))) with (2 ^ 52).
      replace (E + 1 - emin) with (1 + (E - emin)) by lia.
      rewrite Z.pow_add_r by lia. change (2 ^ 53) with (2 ^ 52 * 2 ^ 1). lia.
Qed.

Lemma abs_cond_Zopp (s : bool) (a b : Z) :
  Z.abs (cond_Zopp s a - cond_Zopp s b) = Z.abs (a - b).
Proof. destruct s; cbn [cond_Zopp]; lia. Qed.

(** Rounding [m * 2^e] to a finite float moves it by at most
    [2^-52] of itself. *)
Lemma round_error (s : bool) (m : positive) (e : Z) :
  emin <= e ->
  let r := binary_round prec emax s m e in
  is_finite r = true ->
  exists y,
    ival r = cond_Zopp s y
    /\ Z.abs (y - units (Zpos m) e) * 2 ^ 52 <= units (Zpos m) e
    /\ Z.abs (y - units (Zpos m) e) * 2 ^ 52 <= y.
Proof.
  intros He r Hfin.
  destruct (binary_round_data s m e He)
    as (M & e0 & k & z & E & Hr & HE & He0 & Hk & HEk & HM & Hu & Hz & Hex & H53 & H52).
  subst r. rewrite Hr in *.
  assert (HEmin : emin <= E) by lia.
  assert (Hq : 0 <= M / 2 ^ k)
    by (apply Z.div_pos; [lia | apply pow2_pos; assumption]).
  rewrite rounded_ival; [| lia | assumption | assumption].
  exists (units z E). split; [reflexivity |].
  rewrite <- Hu. unfold units.
  replace (E - emin) with (k + (e0 - emin)) by lia.
  rewrite Z.pow_add_r by lia. rewrite Z.mul_assoc.
  pose proof (pow2_pos k Hk). pose proof (pow2_pos (e0 - emin) ltac:(lia)).
  apply faithful_error; try lia.
  destruct (Z.eq_dec E emin) as [HEq | Hne].
  - right. assert (k = 0) by lia. subst k. apply Z.mod_1_r.
  - left. apply H52. lia.
Qed.

(** *** Sums of floats that are not negative *)

Lemma add_not_finite (x y : float) :
  is_finite x = false \/ is_finite y = false -> is_finite (add x y) = false.
Proof.
  destruct x as [sx | sx | | sx mx ex], y as [sy | sy | | sy my ey];
    intros [H | H]; try discriminate H; try reflexivity;
    destruct sx, sy; reflexivity.
Qed.

Lemma fold_add_not_finite (rs : list float) (x : float) :
  is_finite x = false -> is_finite (fold_left add rs x) = false.
Proof.
  revert x. induction rs as [| r rs IH]; intros x Hx; simpl; [assumption |].
  apply IH. apply add_not_finite. now left.
Qed.

Lemma add_finite (sx sy : bool) (mx my : positive) (ex ey : Z) :
  emin <= ex -> emin <= ey ->
  exists D ez,
    add (S754_finite sx mx ex) (S754_finite sy my ey)
      = binary_normalize prec emax D ez false
    /\ emin <= ez
    /\ units D ez = ival (S754_finite sx mx ex) + ival (S754_finite sy my ey).
Proof.
  intros Hex Hey. unfold add, SFadd. cbv zeta.
  set (ez := Z.min ex ey).
  pose proof (shl_align_spec mx ex ez) as Hx.
  pose proof (shl_align_spec my ey ez) as Hy.
  destruct (shl_align mx ex ez) as [X ex0], (shl_align my ey ez) as [Y ey0].
  destruct Hx as [Hex0 HX], Hy as [Hey0 HY]. simpl fst.
  assert (Hx0 : ex0 = ez) by (subst ez; lia).
  assert (Hy0 : ey0 = ez) by (subst ez; lia).
  rewrite Hx0 in HX. rewrite Hy0 in HY. clear Hex0 Hey0 Hx0 Hy0.
  eexists. exists ez. split; [reflexivity |]. split; [subst ez; lia |].
  cbn [ival]. rewrite <- (units_shift (Zpos mx) ex ez) by (subst ez; lia).
  rewrite <- (units_shift (Zpos my) ey ez) by (subst ez; lia).
  rewrite <- HX, <- HY. unfold units.
  destruct sx, sy; cbn [cond_Zopp]; lia.
Qed.

Lemma nonneg_ival (x : float) : nonneg x -> 0 <= ival x.
Proof.
  destruct x as [s | s | | s m e]; cbn [nonneg ival]; try lia.
  intros ->. cbn [cond_Zopp]. unfold units.
  pose proof (Z.pow_nonneg 2 (e - emin) ltac:(lia)). nia.
Qed.

(** A finite sum of two such floats is not below the first, and
    within [2^-52] of the exact sum. *)
Lemma add_nonneg_data (x y : float) :
  valid x = true -> valid y = true -> nonneg x -> nonneg y ->
  is_finite (add x y) = true ->
  nonneg (add x y)
  /\ ival x <= ival (add x y)
  /\ Z.abs (ival (add x y) - (ival x + ival y)) * 2 ^ 52 <= ival (add x y).
Proof.
  intros Vx Vy Nx Ny Hfin.
  assert (Fx : is_finite x = true).
  { destruct (is_finite x) eqn:E; [reflexivity |].
    rewrite add_not_finite in Hfin by now left. discriminate. }
  assert (Fy : is_finite y = true).
  { destruct (is_finite y) eqn:E; [reflexivity |].
    rewrite add_not_finite in Hfin by now right. discriminate. }
  destruct x as [sx | sx | | sx mx ex], y as [sy | sy | | sy my ey];
    try discriminate.
  - destruct sx, sy; vm_compute; repeat split; discriminate.
  - pose proof (nonneg_ival _ Ny) as H0.
    change (add (S754_zero sx) (S754_finite sy my ey)) with (S754_finite sy my ey).
    change (ival (S754_zero sx)) with 0.
    repeat split; [assumption | assumption |].
    rewrite Z.add_0_l, Z.sub_diag. change (Z.abs 0 * 2 ^ 52) with 0. lia.
  - pose proof (nonneg_ival _ Nx) as H0.
    change (add (S754_finite sx mx ex) (S754_zero sy)) with (S754_finite sx mx ex).
    change (ival (S754_zero sy)) with 0.
    repeat split; [assumption | lia |].
    rewrite Z.add_0_r, Z.sub_diag. change (Z.abs 0 * 2 ^ 52) with 0. lia.
  - simpl in Nx, Ny. subst sx sy.
    pose proof (valid_finite_range _ _ _ Vx) as (Hex & _).
    pose proof (valid_finite_range _ _ _ Vy) as (Hey & _).
    pose proof (add_valid _ _ Vx Vy) as Vs.
    destruct (add_finite false false mx my ex ey ltac:(lia) ltac:(lia))
      as (D & ez & Hadd & Hez & HD).
    rewrite Hadd in *. cbn [ival cond_Zopp] in HD |- *.
    pose proof (units_pos mx ex ltac:(lia)) as Hux.
    pose proof (units_pos my ey ltac:(lia)) as Huy.
    destruct (units_sign D ez Hez) as (_ & Hneg & Hzero).
    destruct D as [| p | p]; [specialize (Hzero eq_refl); lia | | specialize (Hneg ltac:(lia)); lia].
    change (binary_normalize prec emax (Zpos p) ez false)
      with (binary_round prec emax false p ez) in *.
    destruct (round_error false p ez Hez Hfin) as (y0 & Hy0 & _ & Herr).
    cbn [cond_Zopp] in Hy0.
    split; [apply binary_round_nonneg |].
    split; [| rewrite Hy0, <- HD; exact Herr].
    pose proof (round_ge false false p mx ez ex Hez Vx ltac:(lia)) as Hge.
    pose proof (binary_round_nonneg p ez) as Hnn.
    destruct (binary_round prec emax false p ez) as [s' | s' | | s' m' e'];
      try contradiction; try discriminate Hfin.
    simpl in Hnn. subst s'. cbn [ival cond_Zopp].
    destruct Hge as [Hlt | [-> Hle]].
    + pose proof (canonical_lt false false mx m' ex e' Vx Vs Hlt). lia.
    + unfold units. pose proof (pow2_pos (ex - emin) ltac:(lia)). nia.
Qed.

(** The steps of [sum]: from a start [s] that is not negative, a
    finite total [t] is not below [s], and the exact sum is within
    [n * 2^-52 * t] of it. *)
Lemma fold_add_data (rs : list float) :
  forall s : float,
    valid s = true -> nonneg s ->
    Forall (fun r => valid r = true /\ nonneg r) rs ->
    let t := fold_left add rs s in
    is_finite t = true ->
    valid t = true /\ nonneg t /\ ival s <= ival t
    /\ Forall (fun r => is_finite r = true) rs
    /\ Z.abs (ival t - (ival s + Quota.sum_Z (map ival rs))) * 2 ^ 52
         <= Z.of_nat (List.length rs) * ival t.
Proof.
  induction rs as [| r rs IH]; intros s Vs Ns Hrs t Hfin.
  - subst t. cbn [fold_left map Quota.sum_Z fold_right List.length] in *.
    repeat split; auto; lia.
  - inversion Hrs as [| r' rs' [Vr Nr] Hrs' ]; subst r' rs'.
    subst t. cbn [fold_left] in Hfin |- *.
    assert (Fs' : is_finite (add s r) = true).
    { destruct (is_finite (add s r)) eqn:E; [reflexivity |].
      rewrite (fold_add_not_finite rs _ E) in Hfin. discriminate. }
    assert (Fr : is_finite r = true).
    { destruct (is_finite r) eqn:E; [reflexivity |].
      rewrite add_not_finite in Fs' by now right. discriminate. }
    destruct (add_nonneg_data s r Vs Vr Ns Nr Fs') as (Ns' & Hle & Herr).
    destruct (IH (add s r) (add_valid _ _ Vs Vr) Ns' Hrs' Hfin)
      as (Vt & Nt & Hle' & Hfins & Herr').
    split; [assumption |]. split; [assumption |]. split; [lia |].
    split; [constructor; assumption |].
    cbn [map Quota.sum_Z fold_right List.length].
    fold (Quota.sum_Z (map ival rs)).
    rewrite Nat2Z.inj_succ.
    set (t := ival (fold_left add rs (add s r))) in *.
    set (S := Quota.sum_Z (map ival rs)) in *.
    assert (Z.abs (t - (ival s + (ival r + S)))
            <= Z.abs (t - (ival (add s r) + S))
               + Z.abs (ival (add s r) - (ival s + ival r))) by lia.
    nia.
Qed.

(** *** An integer times a float *)

Lemma Z2F_zero : Z2F 0 = S754_zero false.
Proof. reflexivity. Qed.

Lemma rounded_is_finite (s : bool) (z E : Z) :
  E <= 970 -> is_finite (rounded s z E) = true.
Proof.
  intros HE. unfold rounded. destruct z as [| p | p]; try reflexivity.
  destruct (Zpos p <? 2 ^ 53).
  - now rewrite (proj2 (Z.leb_le _ _)) by lia.
  - now rewrite (proj2 (Z.leb_le _ _)) by lia.
Qed.

(** The product of a count below [2^53] and a float: finite when the
    exact product is far from the largest float, and within [2^-52]
    of it. *)
Lemma mul_count_data (T : positive) (r : float) :
  Zpos T < 2 ^ 53 -> valid r = true -> nonneg r -> is_finite r = true ->
  Zpos T * ival r < 2 ^ 2000 ->
  let x := mul (Z2F (Zpos T)) r in
  is_finite x = true /\ nonneg x
  /\ Z.abs (ival x - Zpos T * ival r) * 2 ^ 52 <= Zpos T * ival r.
Proof.
  intros HT Vr Nr Fr Hsmall x. subst x.
  destruct (Z2F_small T HT) as [HZ HM]. cbv zeta in HZ, HM.
  pose proof (Zdigits2_pos T) as Hd1.
  set (d := Zdigits2 (Zpos T)) in *.
  set (j := 53 - d) in *.
  assert (Hj : 0 <= j).
  { pose proof (Zdigits2_bounds T) as [Hlo _]. fold d in Hlo.
    destruct (Z_le_gt_dec d 53); [lia |].
    assert (2 ^ 53 <= 2 ^ (d - 1)) by (apply Z.pow_le_mono_r; lia). lia. }
  rewrite HZ.
  destruct r as [sr | sr | | sr mr er]; try discriminate.
  - split; [reflexivity |]. split; [exact I |].
    change (ival (S754_zero sr)) with 0. rewrite Z.mul_0_r.
    destruct sr; vm_compute; discriminate.
  - simpl in Nr. subst sr.
    pose proof (valid_finite_range _ _ _ Vr) as (Her & Hmr53 & Hmr52).
    apply valid_finite in Vr. destruct Vr as [Hcan _]. rewrite fexp_eq in Hcan.
    cbn [ival cond_Zopp] in Hsmall |- *.
    unfold mul, SFmul. cbn [xorb].
    set (mT := Z.to_pos (Zpos T * 2 ^ j)) in *.
    assert (HmT : Zpos mT = Zpos T * 2 ^ j) by (subst mT; rewrite Z2Pos.id; lia).
    set (M := Zpos T * Zpos mr).
    assert (Hm : Zpos (mT * mr) = M * 2 ^ j) by (subst M; rewrite Pos2Z.inj_mul; lia).
    assert (HdM : Zdigits2 (Zpos (mT * mr)) = Zdigits2 (Zpos (T * mr)) + j).
    { apply Zdigits2_mul_pow2; [assumption |]. rewrite Hm. subst M. lia. }
    assert (Hdge : Zdigits2 (Zpos mr) <= Zdigits2 (Zpos (T * mr))).
    { apply Zdigits2_le. rewrite Pos2Z.inj_mul. nia. }
    pose proof (binary_round_aux_exact false (mT * mr) (d - 53 + er)) as Hround.
    pose proof (shifted_mantissa_range (Zpos (mT * mr)) (d - 53 + er) ltac:(lia))
      as Hrange.
    cbv zeta in Hround, Hrange. rewrite HdM, fexp_eq in Hround, Hrange.
    set (E := Z.max (Zdigits2 (Zpos (T * mr)) + j + (d - 53 + er) - 53) emin) in *.
    assert (HEer : er <= E) by (subst E j; lia).
    specialize (Hround ltac:(subst j; lia)).
    destruct (Hrange ltac:(subst j; lia)) as (HEmin & Hq53 & Hq52).
    rewrite Hround.
    (* the quotient, freed of the padding of the count *)
    set (K := 2 ^ (E - er)).
    assert (HK : 0 < K) by (subst K; apply pow2_pos; lia).
    assert (Hpj : 0 < 2 ^ j) by (apply pow2_pos; lia).
    assert (Hk : 2 ^ (E - (d - 53 + er)) = K * 2 ^ j).
    { subst K. rewrite <- Z.pow_add_r by lia. f_equal. subst j. lia. }
    rewrite Hk in *. rewrite Hm in *.
    rewrite Z.div_mul_cancel_r in Hq53, Hq52 by lia.
    set (z := rne (M * 2 ^ j) (E - (d - 53 + er))) in *.
    assert (HM0 : 0 < M) by (subst M; lia).
    assert (Hz : M / K <= z <= M / K + 1
                 /\ (M mod K = 0 -> z = M / K)).
    { destruct (rne_spec (M * 2 ^ j) (E - (d - 53 + er)) ltac:(nia) ltac:(subst j; lia))
        as [[Hz Hr] | [Hz Hr]]; fold z in Hz; rewrite Hk in Hz, Hr;
        rewrite Z.div_mul_cancel_r in Hz by lia;
        rewrite Z.mul_mod_distr_r in Hr by lia;
        (split; [lia |]); intros Hmod; rewrite Hmod in Hr; nia. }
    destruct Hz as [Hz Hzex].
    assert (Hq0 : 0 <= M / K) by (apply Z.div_pos; lia).
    (* the exponent is far from the largest *)
    assert (HE970 : E <= 970).
    { pose proof (Zdigits2_bounds (T * mr)) as [Hlo _].
      set (D := Zdigits2 (Zpos (T * mr))) in *.
      rewrite Pos2Z.inj_mul in Hlo. fold M in Hlo.
      assert (HD1 : 1 <= D) by (subst D; apply Zdigits2_pos).
      unfold units in Hsmall. rewrite Z.mul_assoc in Hsmall. fold M in Hsmall.
      destruct (Z_le_gt_dec (D + er) 1000) as [Hok | Hbig];
        [subst E j; unfold emin; lia |].
      exfalso.
      assert (2 ^ 2000 <= 2 ^ (D - 1) * 2 ^ (er - emin)).
      { rewrite <- Z.pow_add_r by lia. apply Z.pow_le_mono_r; unfold emin; lia. }
      pose proof (pow2_pos (er - emin) ltac:(lia)).
      assert (2 ^ (D - 1) * 2 ^ (er - emin) <= M * 2 ^ (er - emin))
        by (apply Z.mul_le_mono_nonneg_r; lia).
      lia. }
    split; [now apply rounded_is_finite |].
    split; [apply rounded_nonneg |].
    rewrite rounded_ival; [| lia | assumption | now apply rounded_is_finite].
    cbn [cond_Zopp]. unfold units.
    replace (E - emin) with ((E - er) + (er - emin)) by lia.
    rewrite Z.pow_add_r by lia. fold K.
    rewrite !Z.mul_assoc. fold M.
    apply faithful_error; try lia; try (apply pow2_pos; lia).
    destruct (Z.eq_dec E emin) as [HEq | Hne].
    + right. subst K. replace (E - er) with 0 by lia. apply Z.mod_1_r.
    + left. apply Hq52. lia.
Qed.

(** *** The floor *)

Lemma ival_one : ival f1_0 = unit_one.
Proof. reflexivity. Qed.

Lemma unit_one_pos : 0 < unit_one.
Proof. reflexivity. Qed.

Lemma floor_nonneg_ival (x : float) :
  valid x = true -> nonneg x -> is_finite x = true ->
  exists f,
    floor x = Ok f /\ 0 <= f
    /\ f * unit_one <= ival x < (f + 1) * unit_one.
Proof.
  intros Vx Nx Fx. pose proof unit_one_pos as HU.
  destruct x as [s | s | | s m e]; try discriminate.
  - exists 0. cbn [floor ival]. repeat split; lia.
  - simpl in Nx. subst s.
    pose proof (valid_finite_range _ _ _ Vx) as (He & _).
    exists (Z.shiftl (Zpos m) e). split; [reflexivity |].
    split; [apply Z.shiftl_nonneg; lia |].
    cbn [ival cond_Zopp]. unfold units.
    pose proof (pow2_pos (e - emin) ltac:(lia)) as Hp.
    destruct (Z_le_gt_dec 0 e) as [Hpos | Hneg].
    + rewrite Z.shiftl_mul_pow2 by assumption.
      assert (HU' : 2 ^ (e - emin) = 2 ^ e * unit_one).
      { unfold unit_one. rewrite <- Z.pow_add_r by lia. f_equal; unfold emin; lia. }
      rewrite HU'. pose proof (pow2_pos e Hpos). nia.
    + rewrite Z.shiftl_div_pow2 by lia.
      assert (HU' : unit_one = 2 ^ (- e) * 2 ^ (e - emin)).
      { unfold unit_one. rewrite <- Z.pow_add_r by lia. f_equal; unfold emin; lia. }
      pose proof (pow2_pos (- e) ltac:(lia)) as Hd.
      pose proof (Z_div_mod_eq_full (Zpos m) (2 ^ (- e))) as Hdm.
      pose proof (Z.mod_pos_bound (Zpos m) (2 ^ (- e)) Hd) as Hmod.
      rewrite HU'. nia.
Qed.

End ErrorFacts.

(** ** The floors of the shares *)

Module ShareFacts.
Import PyFloat Lit Dict Quota.
Import RoundFacts RoundFacts2 RoundFacts3 RoundFacts4 RoundFacts5.
Import OrderFacts IntFacts ErrorFacts.

(** A share [total * v] is floored to within one of the exact
    product, up to [2^-52] of it. *)
Lemma floor_share_data (total : Z) (v : float) :
  0 <= total < 2 ^ 53 ->
  valid v = true -> nonneg v -> is_finite v = true ->
  total * ival v < 2 ^ 2000 ->
  exists f,
    floor_share total v = Ok f /\ 0 <= f
    /\ f * unit_one * 2 ^ 52 <= total * ival v * (2 ^ 52 + 1)
    /\ total * ival v * (2 ^ 52 - 1) < (f + 1) * unit_one * 2 ^ 52.
Proof.
  intros HT Vv Nv Fv Hsmall. pose proof unit_one_pos as HU.
  pose proof (nonneg_ival v Nv) as Ha.
  unfold floor_share, int_mul.
  destruct total as [| p | p]; [| | lia].
  - exists 0. split.
    + destruct v as [s | s | | s m e]; try discriminate; reflexivity.
    + rewrite !Z.mul_0_l. split; [lia |]. split; [lia |]. lia.
  - rewrite of_int_finite by (apply Z2F_finite; rewrite Z.abs_eq by lia;
      pose proof (pow2_pos 971 ltac:(lia)); nia).
    cbn [bind].
    destruct (mul_count_data p v ltac:(lia) Vv Nv Fv Hsmall) as (Fx & Nx & Herr).
    pose proof (mul_valid _ _ (Z2F_valid (Zpos p)) Vv) as Vx.
    destruct (floor_nonneg_ival _ Vx Nx Fx) as (f & Hf & Hf0 & Hlo & Hhi).
    exists f. split; [exact Hf |]. split; [assumption |].
    set (x := ival (mul (Z2F (Zpos p)) v)) in *.
    set (P := Zpos p * ival v) in *.
    assert (x * 2 ^ 52 <= P * (2 ^ 52 + 1)) by lia.
    assert (P * (2 ^ 52 - 1) <= x * 2 ^ 52) by lia.
    split; [nia | nia].
Qed.

(** All the floors at once. *)
Lemma floors_of_data (total : Z) (ratios : dict float) :
  0 <= total < 2 ^ 53 ->
  Forall (fun kv => valid (snd kv) = true /\ nonneg (snd kv)
                    /\ is_finite (snd kv) = true
                    /\ total * ival (snd kv) < 2 ^ 2000) ratios ->
  exists fl,
    floors_of total ratios = Ok fl
    /\ sum_Z (values fl) * unit_one * 2 ^ 52
         <= total * exact_sum ratios * (2 ^ 52 + 1)
    /\ total * exact_sum ratios * (2 ^ 52 - 1)
         <= (sum_Z (values fl) + Z.of_nat (List.length ratios)) * unit_one * 2 ^ 52.
Proof.
  intros HT. unfold floors_of, exact_sum.
  induction 1 as [| [k v] ratios (Vv & Nv & Fv & Hs) _ IH].
  - exists []. cbn. split; [reflexivity |]. lia.
  - destruct IH as (fl & Hfl & Hup & Hlow).
    cbn [snd fst] in *.
    destruct (floor_share_data total v HT Vv Nv Fv Hs) as (f & Hf & _ & Hfu & Hfl').
    exists ((k, f) :: fl). split.
    + cbn [mapM snd fst]. rewrite Hf. cbn [bind]. rewrite Hfl. reflexivity.
    + cbn [values map snd sum_Z fold_right List.length].
      fold (values fl). fold (values ratios). fold (sum_Z (values fl)).
      fold (sum_Z (map ival (values ratios))).
      rewrite Nat2Z.inj_succ.
      set (F := sum_Z (values fl)) in *.
      set (A := sum_Z (map ival (values ratios))) in *.
      set (n := Z.of_nat (List.length ratios)) in *.
      split; nia.
Qed.

(** The arithmetic of the guarantee: with the exact sum [A] of the
    ratios within [n * 2^-52] of one and a total small against
    [2^52], the floors sum to the total less at most [n]. *)
Lemma share_sum_bounds (T n U A F : Z) :
  0 < T -> 0 <= n -> T * (n + 2) <= 2 ^ 52 -> 0 < U -> 0 <= A ->
  Z.abs (U - A) * 2 ^ 52 <= n * U ->
  F * U * 2 ^ 52 <= T * A * (2 ^ 52 + 1) ->
  T * A * (2 ^ 52 - 1) <= (F + n) * U * 2 ^ 52 ->
  0 <= T - F <= n.
Proof.
  intros HT Hn Hsmall HU HA Hsum Hup Hlow.
  set (E := 2 ^ 52) in *.
  assert (HE : 0 < E) by (subst E; reflexivity).
  assert (HnE : n + 2 <= E) by nia.
  assert (HA1 : A * E <= U * (E + n)) by lia.
  assert (HA2 : U * (E - n) <= A * E) by lia.
  split.
  - (* F <= T *)
    destruct (Z_le_gt_dec F T) as [| Hgt]; [lia | exfalso].
    assert (H1 : F * U * E * E <= T * (E + 1) * (U * (E + n))).
    { transitivity (T * (E + 1) * (A * E)); [nia |].
      apply Z.mul_le_mono_nonneg_l; [nia | assumption]. }
    assert (H2 : (T + 1) * U * E * E <= F * U * E * E).
    { assert ((T + 1) * (U * E * E) <= F * (U * E * E))
        by (apply Z.mul_le_mono_nonneg_r; nia). nia. }
    assert (H3 : (T + 1) * (E * E) <= T * (E + 1) * (E + n)).
    { apply Z.mul_le_mono_pos_l with (p := U); [assumption |]. nia. }
    assert (H4 : T * (n + 1) * E + T * E <= E * E) by nia.
    nia.
  - (* T - n <= F *)
    destruct (Z_le_gt_dec (T - n) F) as [| Hlt]; [lia | exfalso].
    assert (H1 : T * (E - 1) * (U * (E - n)) <= (F + n) * U * E * E).
    { transitivity (T * (E - 1) * (A * E)); [| nia].
      apply Z.mul_le_mono_nonneg_l; [nia | assumption]. }
    assert (H2 : (F + n) * U * E * E <= (T - 1) * U * E * E).
    { assert ((F + n) * (U * E * E) <= (T - 1) * (U * E * E))
        by (apply Z.mul_le_mono_nonneg_r; nia). nia. }
    assert (H3 : T * (E - 1) * (E - n) <= (T - 1) * (E * E)).
    { apply Z.mul_le_mono_pos_l with (p := U); [assumption |]. nia. }
    assert (H4 : T * (n + 1) < E) by nia.
    nia.
Qed.

End ShareFacts.

(** ** Vertical placement *)

Module PlaceFacts.
Import PyFloat Lit.
Import RoundFacts3 RoundFacts4 RoundFacts5 OrderFacts SubFacts IntFacts.

Lemma f2_0_eq : f2_0 = S754_finite false 4503599627370496 (-51).
Proof. reflexivity. Qed.

Lemma leb_refl (x : float) : is_nan x = false -> leb x x = true.
Proof.
  intros Hx. pose proof (ltb_irrefl x) as H.
  unfold leb, ltb, SFleb, SFltb in *.
  destruct x as [s | [] | | s m e]; try reflexivity; try discriminate.
  cbn [SFcompare] in *. rewrite Z.compare_refl in *.
  change (Pos.compare_cont Eq m m) with (Pos.compare m m) in *.
  rewrite Pos.compare_refl in *. now destruct s.
Qed.

Lemma ltb_leb (x y : float) : ltb x y = true -> leb x y = true.
Proof.
  unfold ltb, leb, SFltb, SFleb.
  destruct (SFcompare x y) as [[] |]; auto; discriminate.
Qed.

(** The clamp: the result is never above [top]. *)
Lemma max2_ge (top x : float) :
  is_nan top = false -> leb top (max2 top x) = true.
Proof.
  intros Hn. unfold max2. destruct (ltb top x) eqn:E.
  - now apply ltb_leb.
  - now apply leb_refl.
Qed.

Lemma leb_ival (x y : float) :
  valid x = true -> valid y = true -> is_finite x = true -> is_finite y = true ->
  leb x y = true -> ival x <= ival y.
Proof.
  intros Vx Vy Fx Fy H. unfold leb, SFleb in H.
  rewrite (compare_ival x y Vx Vy Fx Fy) in H.
  destruct (Z.compare_spec (ival x) (ival y)); try discriminate; lia.
Qed.

Lemma ltb_ival (x y : float) :
  valid x = true -> valid y = true -> is_finite x = true -> is_finite y = true ->
  ltb x y = true -> ival x < ival y.
Proof.
  intros Vx Vy Fx Fy H. unfold ltb, SFltb in H.
  rewrite (compare_ival x y Vx Vy Fx Fy) in H.
  destruct (Z.compare_spec (ival x) (ival y)); try discriminate; lia.
Qed.

(** Below a content height there is only a finite available height,
    and their difference is not positive. *)
Lemma sub_taller (avail h : float) :
  valid avail = true -> valid h = true -> nonneg avail ->
  ltb avail h = true -> nonpos_or_nan (sub avail h).
Proof.
  intros Va Vh Hn Hlt.
  destruct (is_finite avail) eqn:Fa.
  - destruct (is_finite h) eqn:Fh.
    + apply sub_nonpos; auto. now apply ltb_ival.
    + destruct h as [s | [] | | s m e]; try discriminate;
        destruct avail as [sa | sa | | sa ma ea]; try discriminate; reflexivity.
  - destruct avail as [sa | [] | | sa ma ea]; try discriminate;
      try contradiction; simpl in Hn; try discriminate.
    destruct h as [s | [] | | [] m e]; discriminate.
Qed.

Lemma add_zero (top : float) :
  valid top = true -> is_finite top = true ->
  let base := add top f0_0 in
  valid base = true /\ is_finite base = true
  /\ forall x, ltb base x = false -> ltb top x = false.
Proof.
  intros V F. destruct top as [s | s | | s m e]; try discriminate.
  - destruct s; simpl; repeat split; auto.
  - simpl. repeat split; auto.
Qed.

(** Content taller than the region starts at the top of the region. *)
Lemma placement_taller (top bottom h ur : float) :
  valid top = true -> valid bottom = true -> valid h = true -> valid ur = true ->
  is_finite top = true -> is_finite bottom = true ->
  leb top bottom = true -> leb f0_0 ur = true ->
  ltb (sub bottom top) h = true ->
  max2 top (sub (add top (max2 f0_0 (div (sub (sub bottom top) h) f2_0)))
                (mul ur (sub bottom top))) = top.
Proof.
  intros Vt Vb Vh Vu Ft Fb Hle Hur Htall.
  set (avail := sub bottom top) in *.
  assert (Va : valid avail = true) by now apply sub_valid.
  assert (Na : nonneg avail).
  { apply sub_nonneg; auto. now apply leb_ival. }
  assert (Hd : nonpos_or_nan (sub avail h)) by now apply sub_taller.
  assert (Hz : max2 f0_0 (div (sub avail h) f2_0) = f0_0).
  { unfold max2. rewrite f2_0_eq.
    now rewrite (ltb_zero_nonpos _ (div_nonpos _ _ _ Hd)). }
  rewrite Hz.
  destruct (add_zero top Vt Ft) as (Vbase & Fbase & Hbase).
  assert (Hs : nonneg_or_nan (mul ur avail)).
  { apply mul_nonneg; [now apply leb_zero_nonneg |].
    destruct avail as [s | s | | s m e]; simpl in *; auto. }
  unfold max2. rewrite Hbase; [reflexivity |].
  apply sub_le; auto. now apply mul_valid.
Qed.

End PlaceFacts.

Module SiteFacts.
Import PyStr PyFloat Lit Layout BuildPpt.
Import RoundFacts4 RoundFacts5 IntFacts PlaceFacts.

(** *** The places of [app.py] that position a block *)

Lemma content_height_valid (font_pt n : Z) (pt h : float) :
  int_mul font_pt f1_35 = Ok pt ->
  int_mul n (div pt f72_0) = Ok h ->
  valid h = true.
Proof.
  intros Hpt Hh. eapply int_mul_valid; [| exact Hh].
  apply div_valid; [| reflexivity].
  eapply int_mul_valid; [| exact Hpt]. reflexivity.
Qed.

Lemma bullets_site (prs : presentation) (lines : list str) (font_pt : Z)
    (left_in right_margin_in top_in bottom_in uplift_ratio : float)
    (wrap_chars_limit : Z) (tb : textbox) :
  add_left_bullets_vert_center prs lines font_pt left_in right_margin_in
    top_in bottom_in uplift_ratio wrap_chars_limit = Ok tb ->
  tb_top tb = Spec.vertical_placement top_in bottom_in (tb_content_h tb) uplift_ratio
  /\ valid (tb_content_h tb) = true.
Proof.
  unfold add_left_bullets_vert_center.
  destruct (int_mul font_pt f1_35) as [pt |] eqn:Hpt; cbn [bind]; [| discriminate].
  destruct (int_mul _ (div pt f72_0)) as [h |] eqn:Hh; cbn [bind]; [| discriminate].
  destruct (slide_size_in prs) as [sz |]; cbn [bind]; [| discriminate].
  intros [= <-]. cbn [tb_top tb_content_h]. split; [reflexivity |].
  eapply content_height_valid; eassumption.
Qed.

Lemma paragraph_site (prs : presentation) (text : str) (font_pt : Z)
    (box_width_in : option float)
    (left_in right_margin_in top_in bottom_in uplift_ratio : float)
    (wrap_chars_limit : Z) (tb : textbox) :
  add_center_paragraph prs text font_pt box_width_in left_in right_margin_in
    top_in bottom_in uplift_ratio wrap_chars_limit = Ok tb ->
  tb_top tb = Spec.vertical_placement top_in bottom_in (tb_content_h tb) uplift_ratio
  /\ valid (tb_content_h tb) = true.
Proof.
  unfold add_center_paragraph.
  destruct (int_mul font_pt f1_35) as [pt |] eqn:Hpt; cbn [bind]; [| discriminate].
  destruct (int_mul _ (div pt f72_0)) as [h |] eqn:Hh; cbn [bind]; [| discriminate].
  destruct (slide_size_in prs) as [sz |]; cbn [bind]; [| discriminate].
  intros [= <-]. cbn [tb_top tb_content_h]. split; [reflexivity |].
  eapply content_height_valid; eassumption.
Qed.

Lemma bind_Ok {A B : Type} (c : result A) (f : A -> result B) (y : B) :
  bind c f = Ok y -> exists x, c = Ok x /\ f x = Ok y.
Proof.
  destruct c as [x | e]; simpl; [| discriminate]. intros H. now exists x.
Qed.

Lemma Ok_inj {A : Type} (x y : A) : @Ok A x = Ok y -> x = y.
Proof. now intros [= ->]. Qed.

Ltac bind_inv H :=
  let x := fresh "x" in
  let Hx := fresh "Hx" in
  apply bind_Ok in H; destruct H as (x & Hx & H); cbv beta zeta in H.

(** The team text block is lifted like the others but not clamped. *)
Lemma team_site (prs : presentation) (pic2 : picture) (text : str) (tb : textbox) :
  team_text_block prs pic2 text = Ok tb ->
  Spec.vertical_placement f2_0 f6_5 (tb_content_h tb) f0_2 = max2 f2_0 (tb_top tb).
Proof.
  unfold team_text_block. cbv beta zeta. intros H.
  do 5 bind_inv H.
  apply Ok_inj in H. subst. reflexivity.
Qed.

(** Both images take their top from their height by one rule. *)
Lemma mission_image_top (prs : presentation) (w0 h0 : Z) (p : picture) :
  mission_image prs w0 h0 = Ok p -> image_top (pic_height p) = Ok (pic_top p).
Proof.
  unfold mission_image, image_top. cbv beta zeta. intros H.
  do 11 bind_inv H.
  apply Ok_inj in H. subst. cbn [pic_height pic_top].
  rewrite Hx8. cbn [bind]. exact Hx9.
Qed.

Lemma team_image_top (w0 h0 : Z) (p : picture) :
  team_image w0 h0 = Ok p -> image_top (pic_height p) = Ok (pic_top p).
Proof.
  unfold team_image, image_top. cbv beta zeta. intros H.
  do 9 bind_inv H.
  apply Ok_inj in H. subst. cbn [pic_height pic_top].
  rewrite Hx6. cbn [bind]. exact Hx7.
Qed.

End SiteFacts.

Import PyStr PyFloat Lit Layout BuildPpt Spec.
Import PlaceFacts SiteFacts.

(** C4 (counterexample): on slide 5 the text block of [build_ppt]
    starts at 1.6625 inches, above the region top of 2.0 inches where
    the placement law puts it; the mission image of slide 2, when the
    asset is the placeholder, starts at 1211580 EMU, above the
    1828800 EMU of the region top. *)
Lemma team_block_not_clamped :
  (exists pic2 tb,
     team_image placeholder_side placeholder_side = Ok pic2
     /\ team_text_block default_slide pic2 team_text = Ok tb
     /\ tb_top tb <> vertical_placement f2_0 f6_5 (tb_content_h tb) f0_2
     /\ vertical_placement f2_0 f6_5 (tb_content_h tb) f0_2 = f2_0
     /\ ltb (tb_top tb) f2_0 = true)
  /\ (exists p,
        mission_image default_slide placeholder_side placeholder_side = Ok p
        /\ Inches f2_0 = Ok 1828800
        /\ pic_top p = 1211580).
Proof.
  split.
  - eexists. eexists. split; [vm_compute; reflexivity |].
    split; [vm_compute; reflexivity |].
    split; [vm_compute; discriminate |].
    split; vm_compute; reflexivity.
  - eexists. split; [vm_compute; reflexivity |].
    split; vm_compute; reflexivity.
Qed.

(** C4 (amended): the two helpers [add_left_bullets_vert_center] and
    [add_center_paragraph] place their block by the placement law
    exactly; the text block of slide 5 computes the same centred and
    lifted position without the final clamp, so the law is the larger
    of the region top and that position; and the two images share one
    rule of their own, which is not clamped either. *)
Theorem placement_law_sites :
  (forall prs lines font_pt left_in right_margin_in top_in bottom_in
          uplift_ratio wrap_chars_limit tb,
      add_left_bullets_vert_center prs lines font_pt left_in right_margin_in
        top_in bottom_in uplift_ratio wrap_chars_limit = Ok tb ->
      tb_top tb = vertical_placement top_in bottom_in (tb_content_h tb) uplift_ratio)
  /\ (forall prs text font_pt box_width_in left_in right_margin_in top_in
             bottom_in uplift_ratio wrap_chars_limit tb,
        add_center_paragraph prs text font_pt box_width_in left_in
          right_margin_in top_in bottom_in uplift_ratio wrap_chars_limit = Ok tb ->
        tb_top tb = vertical_placement top_in bottom_in (tb_content_h tb) uplift_ratio)
  /\ (forall prs pic2 text tb,
        team_text_block prs pic2 text = Ok tb ->
        vertical_placement f2_0 f6_5 (tb_content_h tb) f0_2 = max2 f2_0 (tb_top tb))
  /\ (forall prs w0 h0 p,
        mission_image prs w0 h0 = Ok p -> image_top (pic_height p) = Ok (pic_top p))
  /\ (forall w0 h0 p,
        team_image w0 h0 = Ok p -> image_top (pic_height p) = Ok (pic_top p)).
Proof.
  split; [| split; [| split; [| split]]].
  - intros. eapply bullets_site; eassumption.
  - intros. eapply paragraph_site; eassumption.
  - intros. eapply team_site; eassumption.
  - intros. eapply mission_image_top; eassumption.
  - intros. eapply team_image_top; eassumption.
Qed.

(** C5: the block that either helper places starts at or below the top
    of its region, and exactly at the top when its content is taller
    than the region. *)
Theorem start_top_within_region
    (prs : presentation) (lines : list str) (text : str) (font_pt : Z)
    (box_width_in : option float)
    (left_in right_margin_in top_in bottom_in uplift_ratio : float)
    (wrap_chars_limit : Z) (tb : textbox) :
  add_left_bullets_vert_center prs lines font_pt left_in right_margin_in
    top_in bottom_in uplift_ratio wrap_chars_limit = Ok tb
  \/ add_center_paragraph prs text font_pt box_width_in left_in right_margin_in
       top_in bottom_in uplift_ratio wrap_chars_limit = Ok tb ->
  region top_in bottom_in ->
  valid uplift_ratio = true -> leb f0_0 uplift_ratio = true ->
  leb top_in (tb_top tb) = true
  /\ (ltb (sub bottom_in top_in) (tb_content_h tb) = true -> tb_top tb = top_in).
Proof.
  intros Hrun (Vt & Vb & Ft & Fb & Hle) Vu Hu.
  assert (Hsite : tb_top tb
            = vertical_placement top_in bottom_in (tb_content_h tb) uplift_ratio
          /\ valid (tb_content_h tb) = true).
  { destruct Hrun as [Hrun | Hrun];
      [eapply bullets_site | eapply paragraph_site]; eassumption. }
  destruct Hsite as [-> Vh]. split.
  - apply max2_ge. now destruct top_in.
  - intros Htall. now apply placement_taller.
Qed.

Lemma start_top_within_region_witness :
  exists tb,
    add_left_bullets_vert_center default_slide twelve_bullets 28
      f0_9 f0_9 f2_0 f6_5 f0_2 40 = Ok tb
    /\ region f2_0 f6_5
    /\ ltb (sub f6_5 f2_0) (tb_content_h tb) = true
    /\ leb f2_0 (tb_top tb) = true
    /\ tb_top tb = f2_0.
Proof.
  eexists. split; [vm_compute; reflexivity |].
  assert (Hregion : region f2_0 f6_5) by (repeat split; reflexivity).
  split; [exact Hregion |].
  split; [vm_compute; reflexivity |].
  pose proof (start_top_within_region default_slide twelve_bullets [] 28 None
                f0_9 f0_9 f2_0 f6_5 f0_2 40 _
                (or_introl eq_refl) Hregion eq_refl eq_refl) as [H1 H2].
  split; [exact H1 |]. apply H2. vm_compute. reflexivity.
Defined.

Import PyStr PyFloat Lit Dict Quota Build Spec.
Import DictFacts QuotaFacts QuotaFacts2 QuotaFacts3 QuotaFacts4 IntFacts.

Lemma floors_of_In (total : Z) (ratios : dict float) (fl : dict Z) (k : string) (f : Z) :
  floors_of total ratios = Ok fl -> In (k, f) fl ->
  exists v, In (k, v) ratios /\ floor_share total v = Ok f.
Proof.
  unfold floors_of. intros H. apply mapM_Forall2 in H.
  induction H as [| [k0 v0] [k1 f1] ratios fl Hhd _ IH]; simpl; [contradiction |].
  intros [[= -> ->] | Hin].
  - simpl in Hhd. destruct (floor_share total v0) as [n |] eqn:E; simpl in Hhd;
      [| discriminate].
    injection Hhd as -> ->. exists v0. auto.
  - destruct (IH Hin) as (v & Hv & Hf). eauto.
Qed.

Lemma floor_share_nonneg (total : Z) (v : float) (f : Z) :
  0 <= total -> leb f0_0 v = true -> floor_share total v = Ok f -> 0 <= f.
Proof.
  intros Ht Hv. unfold floor_share, int_mul.
  destruct (of_int total) as [t |] eqn:E; simpl; [| discriminate].
  apply of_int_Ok in E. destruct E as [-> _].
  now apply floor_mul_nonneg.
Qed.

Lemma even_split_bounds (rem L : Z) :
  0 <= rem <= L -> 0 <= rem / L /\ (rem + L - 1) / L <= 1.
Proof.
  intros H. destruct (Z.eq_dec L 0) as [-> | Hne].
  - replace rem with 0 by lia. split; vm_compute; discriminate.
  - split; [apply Z.div_pos; lia |].
    enough ((rem + L - 1) / L < 2) by lia.
    apply Z.div_lt_upper_bound; lia.
Qed.

(** The guarantee of the allocator from what its floors leave over. *)
Lemma quota_guarantee_of_remainder (total : Z) (ratios : dict float) (floors : dict Z) :
  0 <= total ->
  NoDup (keys ratios) ->
  Forall (fun kv => valid (snd kv) = true /\ leb f0_0 (snd kv) = true) ratios ->
  floors_of total ratios = Ok floors ->
  0 <= total - sum_Z (values floors) <= Z.of_nat (List.length ratios) ->
  quota_guarantee total ratios.
Proof.
  intros Ht Hnd Hall Hfl Hrem.
  assert (Hvalid : Forall (fun kv => valid (snd kv) = true) ratios).
  { eapply Forall_impl; [| exact Hall]. intros kv [H _]. exact H. }
  destruct (target_counts_spec total ratios floors Hvalid Hnd Hfl)
    as (caps & Hrun & Hk & Hsum & Hget).
  { destruct ratios; [right; simpl in Hrem; lia | left; discriminate]. }
  cbv zeta in Hsum, Hget.
  replace (Z.max 0 (total - sum_Z (values floors)))
    with (total - sum_Z (values floors)) in * by lia.
  destruct (even_split_bounds _ _ Hrem) as [Hlo Hhi].
  destruct (floors_of_split total ratios Hvalid floors Hfl) as (_ & _ & _ & _ & Hkf & _).
  exists floors, caps. repeat split; auto; try lia.
  - rewrite Forall_forall. intros [k c] Hin. simpl.
    assert (Hkc : In k (keys floors)).
    { rewrite Hkf, <- Hk. change k with (fst (k, c)). now apply in_map. }
    destruct (get_In _ _ Hkc) as [f Hf].
    destruct (Hget k f Hf) as (c' & Hc' & Hb).
    rewrite (get_NoDup k c caps) in Hc' by (rewrite ?Hk; assumption).
    injection Hc' as <-.
    destruct (floors_of_In _ _ _ _ _ Hfl (get_Ok_In _ _ _ Hf)) as (v & Hv & Hfs).
    rewrite Forall_forall in Hall. destruct (Hall _ Hv) as [_ Hpos]. simpl in Hpos.
    pose proof (floor_share_nonneg total v f Ht Hpos Hfs). lia.
  - intros k f Hf. destruct (Hget k f Hf) as (c & Hc & Hb).
    exists c. split; [assumption | lia].
Qed.

(** C9: the remainder goes round the categories one unit at a time, in
    the descending order of the pairs (fractional part, key): the
    category at position [j] of that order receives its floor and one
    unit for every step [i < remainder] with [i mod n = j], which is
    [remainder / n] units and one more when [j < remainder mod n].  So
    the caps sum to the total whenever the floors do not exceed it,
    however large the remainder, and each category receives the floor
    or the ceiling of an even split of the remainder. *)
Theorem target_counts_round_robin (total : Z) (ratios : dict float) (floors : dict Z) :
  ratios <> [] ->
  NoDup (keys ratios) ->
  Forall (fun kv => valid (snd kv) = true) ratios ->
  floors_of total ratios = Ok floors ->
  sum_Z (values floors) <= total ->
  let remainder := total - sum_Z (values floors) in
  let n := Z.of_nat (List.length ratios) in
  exists caps fracs,
    target_counts total ratios = Ok caps
    /\ keys caps = keys ratios
    /\ sum_Z (values caps) = total
    /\ (forall k f, get k floors = Ok f ->
          exists c, get k caps = Ok c
                    /\ f + remainder / n <= c <= f + (remainder + n - 1) / n)
    /\ Permutation (map snd fracs) (keys ratios)
    /\ (forall f k, In (f, k) fracs ->
          exists v, In (k, v) ratios /\ frac_share total v = Ok f)
    /\ StronglySorted precedes fracs
    /\ forall j f k, nth_error fracs j = Some (f, k) ->
         exists fl,
           get k floors = Ok fl
           /\ get k caps = Ok (fl + steps_at n (Z.of_nat j) remainder)
           /\ steps_at n (Z.of_nat j) remainder
              = remainder / n + (if Z.of_nat j <? remainder mod n then 1 else 0).
Proof.
  intros Hne Hnd Hvalid Hfl Hle remainder n.
  destruct (target_counts_spec total ratios floors Hvalid Hnd Hfl (or_introl Hne))
    as (caps & Hrun & Hk & Hsum & Hget).
  destruct (target_counts_trace total ratios floors Hvalid Hnd Hfl (or_introl Hne))
    as (caps' & fracs & Hrun' & Hperm & Hshare & Hsorted & Hpos).
  assert (caps' = caps) by congruence. subst caps'. clear Hrun'.
  cbv zeta in Hsum, Hget, Hpos.
  replace (Z.max 0 (total - sum_Z (values floors))) with remainder in *
    by (subst remainder; lia).
  fold n in Hget, Hpos.
  exists caps, fracs.
  split; [exact Hrun |]. split; [exact Hk |].
  split; [subst remainder; lia |]. split; [exact Hget |].
  split; [exact Hperm |]. split; [exact Hshare |]. split; [exact Hsorted |].
  intros j f k Hj.
  assert (Hin : In k (keys floors)).
  { destruct (floors_of_split total ratios Hvalid floors Hfl)
      as (_ & _ & _ & _ & -> & _).
    eapply Permutation_in; [exact Hperm |].
    change k with (snd (f, k)). apply in_map.
    eapply nth_error_In; exact Hj. }
  destruct (get_In _ _ Hin) as [fl Hflk]. exists fl.
  split; [exact Hflk |]. split; [exact (Hpos j f k fl Hj Hflk) |].
  apply steps_at_closed; [| subst remainder; lia].
  assert (j < List.length fracs)%nat by (apply nth_error_Some; congruence).
  assert (List.length fracs = List.length ratios).
  { rewrite <- (length_map snd fracs), (Permutation_length Hperm).
    apply length_map. }
  subst n. lia.
Qed.

Lemma target_counts_round_robin_witness :
  exists caps,
    target_counts 5 two_tenths = Ok caps
    /\ caps = [("a"%string, 2); ("b"%string, 3)]
    /\ sum_Z (values caps) = 5.
Proof.
  destruct (target_counts_round_robin 5 two_tenths
              [("a"%string, 0); ("b"%string, 0)])
    as (caps & fracs & Hrun & Hk & Hsum & _).
  - discriminate.
  - repeat constructor; simpl; intuition discriminate.
  - repeat constructor.
  - vm_compute. reflexivity.
  - vm_compute. discriminate.
  - exists caps. split; [exact Hrun |]. split; [| exact Hsum].
    vm_compute in Hrun. now injection Hrun as <-.
Defined.

Import PyStr PyFloat Lit Dict Quota Build Spec.
Import DictFacts SelectFacts SelectFacts2 SelectFacts3 KeptFacts.

Lemma kept_total_of_length (pool : list bullet) :
  Z.of_nat (List.length pool) < 2 ^ 53 ->
  kept_total_of pool = Ok (Z.max 1 (half_even (Z.of_nat (List.length pool)))).
Proof.
  intros Hn. unfold kept_total_of, keep_fraction.
  pose proof (round_half (Z.of_nat (List.length pool)) ltac:(lia)) as H.
  destruct (int_mul (Z.of_nat (List.length pool)) f0_5) as [x |]; simpl in *;
    [| discriminate].
  now rewrite H.
Qed.

Lemma odd_div2 (n : Z) : Z.odd n = true -> n = 2 * (n / 2) + 1.
Proof.
  intros H. rewrite (Z.div_mod n 2) at 1 by lia.
  rewrite Zmod_odd, H. reflexivity.
Qed.

(** C10: for a pool of odd size n (below 2^53), kept_total is n * 0.5
    rounded half to even: n/2 when that is even, n/2 + 1 otherwise; the
    floor max(1, ...) decides only for n = 1.  Pools of 3, 5 and 7
    give 2, 2 and 4. *)
Theorem kept_total_odd_pool (pool : list bullet) :
  let n := Z.of_nat (List.length pool) in
  Z.odd n = true -> n < 2 ^ 53 ->
  kept_total_of pool = Ok (if n =? 1 then 1 else round_tie n)
  /\ (1 < n -> 1 <= round_tie n)
  /\ (n = 3 -> kept_total_of pool = Ok 2)
  /\ (n = 5 -> kept_total_of pool = Ok 2)
  /\ (n = 7 -> kept_total_of pool = Ok 4).
Proof.
  intros n Hodd Hn.
  assert (H : kept_total_of pool = Ok (if n =? 1 then 1 else round_tie n)).
  { rewrite kept_total_of_length by assumption. fold n. f_equal.
    unfold half_even, round_tie. rewrite <- Z.negb_odd, Hodd. cbn [negb].
    pose proof (odd_div2 n Hodd) as Hd.
    destruct (Z.eqb_spec n 1) as [-> | Hne]; [reflexivity |].
    assert (0 <= n) by (subst n; lia).
    destruct (Z.even (n / 2)) eqn:E; [| lia].
    assert (n / 2 <> 0) by lia.
    assert (0 <= n / 2) by (apply Z.div_pos; lia). lia. }
  split; [exact H |].
  split.
  { intros H1. unfold round_tie. pose proof (odd_div2 n Hodd).
    destruct (Z.even (n / 2)); lia. }
  repeat split; intros Hk; rewrite H, Hk; reflexivity.
Qed.

Lemma kept_total_odd_pool_witness :
  kept_total_of (entries "WHAT" 5 3 0) = Ok 2.
Proof.
  refine (proj1 (kept_total_odd_pool (entries "WHAT" 5 3 0) _ _)).
  - reflexivity.
  - reflexivity.
Defined.

(** C8: when nothing passes the filter, the selection stage returns:
    kept_total is 1, the caps sum to at most 1, and every category's
    selection is empty. *)
Theorem empty_pool_selection (what_items how_items sure_items cydi_items : list item) :
  make_pool (collect what_items how_items sure_items cydi_items) = [] ->
  exists sel,
    build what_items how_items sure_items cydi_items = Ok sel
    /\ sel_pool sel = []
    /\ sel_kept_total sel = 1
    /\ sum_Z (values (sel_targets sel)) <= 1
    /\ Forall (fun kc => 0 <= snd kc) (sel_targets sel)
    /\ keys (sel_selected sel) = CATEGORIES
    /\ Forall (fun cs => snd cs = []) (sel_selected sel).
Proof.
  intros Hpool. unfold build. rewrite Hpool.
  eexists. split; [vm_compute; reflexivity |].
  cbn [sel_pool sel_kept_total sel_targets sel_selected].
  split; [reflexivity |]. split; [reflexivity |].
  split; [vm_compute; discriminate |].
  split; [repeat constructor; vm_compute; discriminate |].
  split; [reflexivity |].
  repeat constructor.
Qed.

Lemma empty_pool_selection_witness :
  exists sel,
    build [blank_item; muted_item] [] [muted_item] [] = Ok sel
    /\ sel_kept_total sel = 1
    /\ sel_targets sel = [("WHAT", 1); ("HOW", 0); ("SURE", 0); ("CYDI", 0)]%string
    /\ Forall (fun cs => snd cs = []) (sel_selected sel).
Proof.
  destruct (empty_pool_selection [blank_item; muted_item] [] [muted_item] [])
    as (sel & Hrun & _ & Hk & _ & _ & _ & Hsel).
  - reflexivity.
  - exists sel. repeat split; try assumption.
    vm_compute in Hrun. injection Hrun as <-. reflexivity.
Defined.

Lemma scenario_pool_scenario : scenario scenario_pool.
Proof.
  unfold scenario. repeat split; try reflexivity.
  rewrite Forall_forall. intros b Hb. vm_compute in Hb.
  repeat (destruct Hb as [<- | Hb]; [vm_compute; tauto |]). contradiction.
Qed.

(** C2, as stated, fails on the scenario's pool: the caps are not
    {WHAT:6, HOW:3, SURE:2, CYDI:1}; WHAT is capped at 5 and one of its
    six HIGH entries is not selected. *)
Lemma scenario_caps_not_as_stated :
  scenario scenario_pool
  /\ exists sel taken,
       select_from_pool scenario_pool = Ok sel
       /\ sel_kept_total sel = 11
       /\ sel_targets sel <> [("WHAT", 6); ("HOW", 3); ("SURE", 2); ("CYDI", 1)]%string
       /\ get "WHAT" (sel_targets sel) = Ok 5
       /\ get "WHAT" (sel_selected sel) = Ok taken
       /\ List.length taken = 5%nat
       /\ In (entry "WHAT" 5 5) scenario_pool
       /\ 5 <= priority (entry "WHAT" 5 5)
       /\ ~ In (entry "WHAT" 5 5) taken.
Proof.
  split; [exact scenario_pool_scenario |].
  eexists. eexists. split; [vm_compute; reflexivity |].
  cbn [sel_kept_total sel_targets sel_selected].
  split; [reflexivity |]. split; [discriminate |].
  split; [reflexivity |]. split; [vm_compute; reflexivity |].
  split; [reflexivity |].
  split; [vm_compute; tauto |].
  split; [vm_compute; discriminate |].
  intros H. vm_compute in H.
  repeat (destruct H as [H | H]; [discriminate |]). contradiction.
Qed.

(** C2, amended: for every pool of the scenario, kept_total is 11, the
    caps are {WHAT:5, HOW:3, SURE:2, CYDI:1}, and the WHAT selection is
    five of the six HIGH entries, the first five in the order of their
    indices, with no MEDIUM entry. *)
Theorem scenario_selection (pool : list bullet) :
  scenario pool ->
  exists sel taken left_out,
    select_from_pool pool = Ok sel
    /\ sel_kept_total sel = 11
    /\ sel_targets sel = [("WHAT", 5); ("HOW", 3); ("SURE", 2); ("CYDI", 1)]%string
    /\ get "WHAT" (sel_selected sel) = Ok taken
    /\ List.length taken = 5%nat
    /\ Forall (fun b => category b = "WHAT"%string /\ 5 <= priority b) taken
    /\ Permutation (taken ++ [left_out]) (filter (in_tier "WHAT" true) pool)
    /\ StronglySorted idx_le (taken ++ [left_out])
    /\ (input_ordered pool ->
          taken = firstn 5 (filter (in_tier "WHAT" true) pool)).
Proof.
  intros (Hcat & Hlen & HH & _).
  set (targets := [("WHAT", 5); ("HOW", 3); ("SURE", 2); ("CYDI", 1)]%string).
  destruct (select_get pool targets Hcat) as (selected & Hrun & Hget).
  { repeat constructor; simpl; intuition discriminate. }
  { repeat constructor; simpl; tauto. }
  set (HS := sort_by_idx (filter (in_tier "WHAT" true) pool)) in *.
  assert (HpH : Permutation HS (filter (in_tier "WHAT" true) pool))
    by apply sort_by_idx_perm.
  assert (HlenH : List.length HS = 6%nat)
    by now rewrite (Permutation_length HpH).
  assert (Hskip : exists x, skipn 5 HS = [x]).
  { pose proof (length_skipn 5 HS) as Hs. rewrite HlenH in Hs.
    destruct (skipn 5 HS) as [| x [| y l]]; try discriminate. now exists x. }
  destruct Hskip as [x Hx].
  assert (Hsplit : firstn 5 HS ++ [x] = HS)
    by (rewrite <- Hx; apply firstn_skipn).
  exists {| sel_pool := pool; sel_kept_total := 11;
            sel_targets := targets; sel_selected := selected |}.
  exists (firstn 5 HS), x.
  split.
  { unfold select_from_pool.
    rewrite kept_total_of_length by (rewrite Hlen; reflexivity).
    rewrite Hlen. change (Z.max 1 (half_even (Z.of_nat 22))) with 11.
    cbn [bind].
    replace (target_counts 11 WHAC_RATIOS) with (Ok targets)
      by (vm_compute; reflexivity).
    cbn [bind]. rewrite Hrun. reflexivity. }
  cbn [sel_kept_total sel_targets sel_selected].
  split; [reflexivity |]. split; [reflexivity |].
  split.
  { rewrite (Hget "WHAT"%string 5) by (simpl; tauto). f_equal.
    unfold take_for, slice_to. cbn [fst snd]. change (0 <=? 5) with true.
    cbv iota. change (Z.to_nat 5) with 5%nat. fold HS.
    rewrite length_firstn, HlenH. reflexivity. }
  split; [rewrite length_firstn, HlenH; reflexivity |].
  split.
  { rewrite Forall_forall. intros b Hb. apply in_tier_true.
    assert (In b HS) by (rewrite <- Hsplit; apply in_or_app; now left).
    apply (Permutation_in _ HpH) in H. now apply filter_In in H. }
  split; [now rewrite Hsplit |].
  split; [rewrite Hsplit; apply sort_by_idx_sorted |].
  intros Hord. subst HS. now rewrite sort_by_idx_id by now apply input_ordered_tier.
Qed.

Lemma scenario_selection_witness :
  scenario scenario_pool
  /\ exists sel,
       select_from_pool scenario_pool = Ok sel
       /\ sel_targets sel = [("WHAT", 5); ("HOW", 3); ("SURE", 2); ("CYDI", 1)]%string
       /\ get "WHAT" (sel_selected sel) = Ok (entries "WHAT" 5 5 0).
Proof.
  split; [exact scenario_pool_scenario |].
  destruct (scenario_selection scenario_pool scenario_pool_scenario)
    as (sel & taken & x & Hrun & _ & Ht & _).
  exists sel. split; [exact Hrun |]. split; [exact Ht |].
  vm_compute in Hrun. injection Hrun as <-. reflexivity.
Defined.

Import PyStr PyFloat Lit Dict Quota Build Spec.
Import DictFacts QuotaFacts QuotaFacts2 QuotaFacts3 IntFacts.
Import RoundFacts4 RoundFacts5 OrderFacts ErrorFacts ShareFacts.

Lemma sum_Z_nonneg (l : list Z) : Forall (fun a => 0 <= a) l -> 0 <= sum_Z l.
Proof. induction 1; cbn [sum_Z fold_right]; [lia |]. fold (sum_Z l). lia. Qed.

Lemma sum_Z_ge (l : list Z) (a : Z) :
  Forall (fun a => 0 <= a) l -> In a l -> a <= sum_Z l.
Proof.
  induction 1 as [| b l Hb Hl IH]; [contradiction |].
  cbn [sum_Z fold_right]. fold (sum_Z l).
  pose proof (sum_Z_nonneg l Hl).
  intros [-> | Hin]; [lia |]. specialize (IH Hin). lia.
Qed.

(** Ratios that are not negative and add up to 1.0 in double
    precision: each is finite, and their exact sum is within
    [n * 2^-52] of one. *)
Lemma ratio_sum_one (ratios : dict float) :
  Forall (fun kv => valid (snd kv) = true /\ leb f0_0 (snd kv) = true) ratios ->
  ratio_sum ratios = f1_0 ->
  Forall (fun kv => nonneg (snd kv) /\ is_finite (snd kv) = true) ratios
  /\ Z.abs (unit_one - exact_sum ratios) * 2 ^ 52
       <= Z.of_nat (List.length ratios) * unit_one.
Proof.
  intros Hall Hsum. unfold ratio_sum in Hsum.
  assert (Hvals : Forall (fun r => valid r = true /\ nonneg r) (values ratios)).
  { unfold values. rewrite Forall_map. eapply Forall_impl; [| exact Hall].
    intros kv [V L]. split; [exact V | now apply leb_zero_nonneg]. }
  pose proof (fold_add_data (values ratios) f0_0 eq_refl I Hvals) as H.
  cbv zeta in H. rewrite Hsum in H.
  destruct (H eq_refl) as (_ & _ & _ & Hfin & Herr).
  rewrite ival_one in Herr. change (ival f0_0) with 0 in Herr.
  rewrite Z.add_0_l in Herr. unfold values in Herr at 2.
  rewrite length_map in Herr.
  split; [| exact Herr].
  unfold values in Hfin, Hvals. rewrite Forall_map in Hfin, Hvals.
  rewrite Forall_forall in *. intros kv Hkv.
  split; [apply (Hvals kv Hkv) | apply (Hfin kv Hkv)].
Qed.

(** On the inputs the allocator is meant for, a total that is not
    negative and small against 2^52 and ratios that are not negative
    and add up to 1.0, the floors exist and leave a remainder of at
    most one unit per category. *)
Lemma floors_of_unit_ratios (total : Z) (ratios : dict float) :
  0 <= total ->
  total * (Z.of_nat (List.length ratios) + 2) <= 2 ^ 52 ->
  Forall (fun kv => valid (snd kv) = true /\ leb f0_0 (snd kv) = true) ratios ->
  ratio_sum ratios = f1_0 ->
  exists floors,
    floors_of total ratios = Ok floors
    /\ 0 <= total - sum_Z (values floors) <= Z.of_nat (List.length ratios).
Proof.
  intros Ht Hsmall Hall Hsum.
  destruct (ratio_sum_one ratios Hall Hsum) as [Hnf Herr].
  set (n := Z.of_nat (List.length ratios)) in *.
  pose proof unit_one_pos as HU.
  assert (Hn : 0 <= n) by (subst n; lia).
  assert (Hvals : Forall (fun a => 0 <= a) (map ival (values ratios))).
  { unfold values. rewrite !Forall_map. eapply Forall_impl; [| exact Hnf].
    intros kv [N _]. now apply nonneg_ival. }
  pose proof (sum_Z_nonneg _ Hvals) as HA. fold (exact_sum ratios) in HA.
  assert (HT53 : total < 2 ^ 53) by nia.
  assert (Hdata : Forall (fun kv => valid (snd kv) = true /\ nonneg (snd kv)
                            /\ is_finite (snd kv) = true
                            /\ total * ival (snd kv) < 2 ^ 2000) ratios).
  { rewrite Forall_forall. intros kv Hkv.
    destruct (proj1 (Forall_forall _ _) Hall kv Hkv) as [V _].
    destruct (proj1 (Forall_forall _ _) Hnf kv Hkv) as [N F].
    repeat split; try assumption.
    destruct (Z.eq_dec total 0) as [-> | Hne]; [reflexivity |].
    assert (Ha : ival (snd kv) <= exact_sum ratios).
    { apply sum_Z_ge; [assumption |]. unfold values. rewrite map_map.
      apply in_map_iff. now exists kv. }
    pose proof (nonneg_ival _ N) as Ha0.
    assert (HnE : n + 2 <= 2 ^ 52) by nia.
    assert (HA2 : exact_sum ratios <= 2 * unit_one) by nia.
    assert (total * ival (snd kv) <= 2 ^ 53 * (2 * unit_one)).
    { apply Z.mul_le_mono_nonneg; lia. }
    unfold unit_one in *. lia. }
  destruct (floors_of_data total ratios ltac:(lia) Hdata) as (fl & Hfl & Hup & Hlow).
  fold n in Hlow.
  exists fl. split; [exact Hfl |].
  destruct (Z.eq_dec total 0) as [-> | Hne].
  - rewrite !Z.mul_0_l in Hup, Hlow.
    assert (0 < unit_one * 2 ^ 52) by nia.
    split; nia.
  - apply (share_sum_bounds total n unit_one (exact_sum ratios)); try assumption; lia.
Qed.




Import PyStr PyFloat Lit Dict Quota Build Spec.
Import DictFacts QuotaFacts QuotaFacts2 QuotaFacts3 IntFacts KeptFacts.
Import RoundFacts4 RoundFacts5 OrderFacts ErrorFacts ShareFacts.

(** X2: with no category at all, target_counts returns the empty
    mapping for a total that is zero or negative, and raises
    ZeroDivisionError for a positive one (the index is taken modulo
    the number of categories). *)
Theorem target_counts_no_ratios (total : Z) :
  target_counts total [] =
    if 0 <? total then Raise ZeroDivisionError else Ok [].
Proof.
  unfold target_counts. cbn [mapM bind keys map values sum_Z fold_right sorted_reverse].
  rewrite Z.sub_0_r.
  destruct (Z.ltb_spec 0 total) as [Hpos | Hle].
  - destruct (Z.to_nat total) as [| n] eqn:E; [lia | reflexivity].
  - replace (Z.to_nat total) with 0%nat by lia. reflexivity.
Qed.

(** X3: when the floors already add up to the total or more, the
    loop over the remainder does not run and target_counts returns
    the floors as they are: it never takes a unit away, so the caps
    may exceed the total. *)
Theorem target_counts_keeps_floors (total : Z) (ratios : dict float)
    (floors : dict Z) :
  Forall (fun kv => valid (snd kv) = true) ratios ->
  floors_of total ratios = Ok floors ->
  total <= sum_Z (values floors) ->
  target_counts total ratios = Ok floors.
Proof.
  intros Hvalid Hfl Hle.
  destruct (floors_of_split total ratios Hvalid floors Hfl)
    as (raw & Hraw & Hfloors & Hk1 & Hk2 & Hconv).
  destruct (fracs_total raw floors (keys ratios)) as (fr & Hfr & _).
  { intros k Hk. now rewrite Hk1, Hk2. }
  { assumption. }
  unfold target_counts. fold (raw_entry total). rewrite Hraw. cbn [bind].
  fold floor_entry. rewrite Hfloors. cbn [bind].
  fold (frac_entry raw floors). rewrite Hfr. cbn [bind].
  replace (Z.to_nat (total - sum_Z (values floors))) with 0%nat by lia.
  reflexivity.
Qed.

Lemma target_counts_keeps_floors_witness :
  target_counts 1 two_wholes = Ok [("a"%string, 1); ("b"%string, 1)].
Proof.
  apply target_counts_keeps_floors.
  - repeat constructor.
  - reflexivity.
  - vm_compute. discriminate.
Defined.

Lemma mapM_raises {A B : Type} (f : A -> result B) (l : list A) (x : A) :
  In x l -> raises (f x) -> raises (mapM f l).
Proof.
  induction l as [| y l IH]; [contradiction |].
  intros [-> | Hin] Hx; cbn [mapM].
  - destruct (f x); [contradiction | exact I].
  - destruct (f y); [| exact I]. cbn [bind].
    specialize (IH Hin Hx). destruct (mapM f l); [contradiction | exact I].
Qed.

Lemma mul_not_finite (t v : float) :
  is_finite v = false -> is_finite (mul t v) = false.
Proof.
  destruct t as [st | st | | st mt et], v as [sv | sv | | sv mv ev];
    intros H; try discriminate H; reflexivity.
Qed.

Lemma floor_raises (x : float) : is_finite x = false -> raises (floor x).
Proof. destruct x; intros H; try discriminate H; exact I. Qed.

(** X4: a ratio that is infinite or not a number makes target_counts
    raise, whatever the total and the other ratios are: its share has
    no floor. *)
Theorem target_counts_rejects_nonfinite (total : Z) (ratios : dict float)
    (k : string) (v : float) :
  In (k, v) ratios -> is_finite v = false ->
  raises (target_counts total ratios).
Proof.
  intros Hin Hv. unfold target_counts.
  destruct (mapM _ ratios) as [raw |] eqn:Hraw; [| exact I]. cbn [bind].
  apply mapM_Forall2 in Hraw.
  assert (Hx : exists kx, In kx raw /\ is_finite (snd kx) = false).
  { clear - Hraw Hin Hv.
    induction Hraw as [| kv kx ratios raw Hhd _ IH]; [contradiction |].
    destruct Hin as [-> | Hin].
    - exists kx. split; [now left |]. cbn [snd fst] in Hhd.
      unfold int_mul in Hhd.
      destruct (of_int total) as [t |]; cbn [bind] in Hhd; [| discriminate].
      injection Hhd as <-. cbn [snd]. now apply mul_not_finite.
    - destruct (IH Hin) as (kx' & Hin' & Hfin). exists kx'. split; [now right | exact Hfin]. }
  destruct Hx as (kx & Hkx & Hfin).
  assert (Hfl : raises (mapM (fun kx => n <- floor (snd kx) ;; Ok (fst kx, n)) raw)).
  { apply (mapM_raises _ raw kx Hkx).
    pose proof (floor_raises _ Hfin) as Hr.
    destruct (floor (snd kx)); [contradiction | exact I]. }
  destruct (mapM _ raw); [contradiction | exact I].
Qed.

Lemma target_counts_rejects_nonfinite_witness :
  target_counts 3 [("a"%string, f0_5); ("b"%string, S754_nan)] = Raise ValueError.
Proof.
  pose proof (target_counts_rejects_nonfinite 3
                [("a"%string, f0_5); ("b"%string, S754_nan)] "b" S754_nan
                ltac:(right; left; reflexivity) eq_refl) as H.
  destruct (target_counts 3 [("a"%string, f0_5); ("b"%string, S754_nan)])
    as [caps | e] eqn:E; [contradiction |].
  vm_compute in E. injection E as <-. reflexivity.
Defined.

Lemma half_even_bounds (n : Z) :
  0 <= n -> n - 1 <= 2 * half_even n <= n + 1
            /\ (Z.even n = true -> 2 * half_even n = n).
Proof.
  intros Hn. unfold half_even.
  pose proof (Z.div_mod n 2 ltac:(lia)) as Hdm.
  pose proof (Z.mod_pos_bound n 2 ltac:(lia)) as Hmod.
  rewrite Zmod_even in Hdm, Hmod.
  destruct (Z.even n).
  - split; [lia |]. intros _. lia.
  - split; [| discriminate]. destruct (Z.even (n / 2)); lia.
Qed.

(** X5: for a pool of n entries (n below 2^53), kept_total is at
    least 1; for a pool that is not empty it is at most n, and for
    n >= 2 it is within half a unit of n / 2, exactly n / 2 when n is
    even. *)
Theorem kept_total_bounds (pool : list bullet) :
  let n := Z.of_nat (List.length pool) in
  n < 2 ^ 53 ->
  exists k,
    kept_total_of pool = Ok k
    /\ 1 <= k
    /\ (1 <= n -> k <= n)
    /\ (2 <= n -> n - 1 <= 2 * k <= n + 1)
    /\ (2 <= n -> Z.even n = true -> 2 * k = n).
Proof.
  intros n Hn. exists (Z.max 1 (half_even n)).
  split; [now apply kept_total_of_length |].
  destruct (half_even_bounds n ltac:(subst n; lia)) as [Hb He].
  split; [lia |]. split; [lia |]. split; [lia |].
  intros H2 Hev. specialize (He Hev). lia.
Qed.

Lemma kept_total_bounds_witness :
  exists k, kept_total_of (entries "HOW" 3 4 0) = Ok k /\ 2 * k = 4.
Proof.
  destruct (kept_total_bounds (entries "HOW" 3 4 0)) as (k & Hk & _ & _ & _ & He).
  - reflexivity.
  - exists k. split; [exact Hk |]. apply He; [vm_compute; discriminate | reflexivity].
Defined.

Import PyStr PyFloat Lit Dict Quota Build Spec.
Import DictFacts SelectFacts SelectFacts2 SelectFacts3 KeptFacts.

(** ** The selection as a whole *)

Lemma select_loop_keys (by_cat : dict tiers) (targets : dict Z) :
  forall selected selected' : dict (list bullet),
    Forall (fun kc => In (fst kc) (keys selected)) targets ->
    select_loop by_cat targets selected = Ok selected' ->
    keys selected' = keys selected.
Proof.
  induction targets as [| [c cap] targets IH]; intros selected selected' Hall; simpl.
  - now intros [= <-].
  - inversion Hall as [| ? ? Hc Hrest]; subst. simpl in Hc.
    destruct (get c by_cat) as [t |]; simpl; [| discriminate].
    intros Hrun.
    assert (Hall' : Forall (fun kc => In (fst kc) (keys (set c (take_for t cap) selected)))
                     targets) by (rewrite keys_set_In by assumption; assumption).
    rewrite (IH _ _ Hall' Hrun).
    now apply keys_set_In.
Qed.

(** The selection of every category, chosen by the targets or not. *)
Lemma select_full (pool : list bullet) (targets : dict Z) :
  Forall (fun b => In (category b) CATEGORIES) pool ->
  NoDup (keys targets) ->
  Forall (fun kc => In (fst kc) CATEGORIES) targets ->
  exists selected,
    select pool targets = Ok selected
    /\ keys selected = CATEGORIES
    /\ (forall c cap, In (c, cap) targets ->
          get c selected =
            Ok (take_for (sort_by_idx (filter (in_tier c true) pool),
                          sort_by_idx (filter (in_tier c false) pool)) cap))
    /\ (forall c, In c CATEGORIES -> ~ In c (keys targets) -> get c selected = Ok []).
Proof.
  intros Hpool Hnd Hkeys.
  destruct (split_pool_get pool by_cat_init Hpool) as (d & Hrun & Hk & Hget).
  assert (Hk' : keys (sort_tiers d) = CATEGORIES).
  { transitivity (keys d); [| now rewrite Hk].
    unfold sort_tiers, keys. now rewrite map_map. }
  destruct (select_loop_get (sort_tiers d) targets selected_init Hnd)
    as (sel & Hsel & Hin & Hout).
  { now rewrite Hk'. }
  exists sel. unfold select. rewrite Hrun. simpl. split; [assumption |].
  split; [| split].
  - change CATEGORIES with (keys selected_init) at 1.
    apply (select_loop_keys (sort_tiers d) targets selected_init sel);
      [exact Hkeys | exact Hsel].
  - intros c cap Hc. destruct (Hin c cap Hc) as (t & Ht & Hs).
    rewrite Hs. f_equal. f_equal.
    rewrite get_sort_tiers in Ht.
    rewrite Forall_forall in Hkeys. specialize (Hkeys _ Hc). simpl in Hkeys.
    rewrite (Hget c _ (get_by_cat_init c Hkeys)) in Ht. simpl in Ht.
    now injection Ht as <-.
  - intros c Hc Hnot. rewrite (Hout c Hnot). simpl in Hc.
    destruct Hc as [<- | [<- | [<- | [<- | []]]]]; reflexivity.
Qed.

Lemma take_for_incl (h m : list bullet) (cap : Z) (b : bullet) :
  In b (take_for (h, m) cap) -> In b h \/ In b m.
Proof.
  unfold take_for, slice_to. cbn [fst snd].
  destruct (_ <? cap).
  - intros H. apply in_app_or in H. destruct H as [H | H].
    + left. destruct (0 <=? cap); eapply In_firstn; exact H.
    + right. destruct (0 <=? _); eapply In_firstn; exact H.
  - intros H. left. destruct (0 <=? cap); eapply In_firstn; exact H.
Qed.

Lemma NoDup_firstn {A : Type} (n : nat) (l : list A) : NoDup l -> NoDup (firstn n l).
Proof.
  intros H. rewrite <- (firstn_skipn n l) in H. now apply NoDup_app_remove_r in H.
Qed.

Lemma take_for_NoDup (h m : list bullet) (cap : Z) :
  NoDup h -> NoDup m -> (forall b, In b h -> In b m -> False) ->
  NoDup (take_for (h, m) cap).
Proof.
  intros Hh Hm Hdis. unfold take_for, slice_to. cbn [fst snd].
  assert (Hsub : forall n k, NoDup (firstn n h ++ firstn k m)).
  { intros n k. apply NoDup_app; [now apply NoDup_firstn | now apply NoDup_firstn |].
    intros b H1 H2. apply In_firstn in H1, H2. eauto. }
  destruct (_ <? cap).
  - destruct (0 <=? cap), (0 <=? _); apply Hsub.
  - destruct (0 <=? cap); now apply NoDup_firstn.
Qed.

Lemma take_for_length_le (t : tiers) (cap : Z) :
  0 <= cap -> Z.of_nat (List.length (take_for t cap)) <= cap.
Proof.
  intros Hcap. destruct t as [h m]. rewrite take_for_firstn by assumption.
  rewrite length_app, !length_firstn. lia.
Qed.

(** X8: for a pool whose categories are the four known ones and
    targets on some of them, the selection has the four categories
    as its keys, and under each key only entries of the pool, of
    that category, none of them twice when the pool lists none
    twice. *)
Theorem select_sound (pool : list bullet) (targets : dict Z) :
  Forall (fun b => In (category b) CATEGORIES) pool ->
  NoDup (keys targets) ->
  Forall (fun kc => In (fst kc) CATEGORIES) targets ->
  exists selected,
    select pool targets = Ok selected
    /\ keys selected = CATEGORIES
    /\ forall c l, get c selected = Ok l ->
         Forall (fun b => In b pool /\ category b = c) l
         /\ (NoDup pool -> NoDup l).
Proof.
  intros Hpool Hnd Hkeys.
  destruct (select_full pool targets Hpool Hnd Hkeys) as (sel & Hrun & Hk & Hin & Hout).
  exists sel. split; [assumption |]. split; [assumption |].
  intros c l Hl.
  assert (Hc : In c CATEGORIES).
  { rewrite <- Hk. change c with (fst (c, l)). apply in_map.
    now apply get_Ok_In. }
  destruct (in_dec string_dec c (keys targets)) as [Hyes | Hno].
  - destruct (get_In _ _ Hyes) as [cap Hcap]. apply get_Ok_In in Hcap.
    rewrite (Hin c cap Hcap) in Hl. injection Hl as <-.
    set (HS := sort_by_idx (filter (in_tier c true) pool)).
    set (MS := sort_by_idx (filter (in_tier c false) pool)).
    assert (HpH : Permutation HS (filter (in_tier c true) pool))
      by apply sort_by_idx_perm.
    assert (HpM : Permutation MS (filter (in_tier c false) pool))
      by apply sort_by_idx_perm.
    split.
    + rewrite Forall_forall. intros b Hb. apply take_for_incl in Hb.
      destruct Hb as [Hb | Hb].
      * apply (Permutation_in _ HpH) in Hb. apply filter_In in Hb.
        destruct Hb as [Hb Ht]. apply in_tier_true in Ht. tauto.
      * apply (Permutation_in _ HpM) in Hb. apply filter_In in Hb.
        destruct Hb as [Hb Ht]. apply in_tier_false in Ht. tauto.
    + intros Hnp. apply take_for_NoDup.
      * eapply Permutation_NoDup; [symmetry; exact HpH |]. now apply NoDup_filter.
      * eapply Permutation_NoDup; [symmetry; exact HpM |]. now apply NoDup_filter.
      * intros b H1 H2.
        apply (Permutation_in _ HpH) in H1. apply (Permutation_in _ HpM) in H2.
        apply filter_In in H1, H2. destruct H1 as [_ H1], H2 as [_ H2].
        apply in_tier_true in H1. apply in_tier_false in H2. lia.
  - rewrite (Hout c Hc Hno) in Hl. injection Hl as <-.
    split; constructor.
Qed.

Lemma select_sound_witness :
  exists selected,
    select [demo_bullet 3 0; demo_bullet 5 1; demo_bullet 5 2]
           [("WHAT"%string, 2)] = Ok selected
    /\ keys selected = CATEGORIES.
Proof.
  destruct (select_sound [demo_bullet 3 0; demo_bullet 5 1; demo_bullet 5 2]
              [("WHAT"%string, 2)]) as (selected & Hrun & Hk & _).
  - repeat constructor; simpl; tauto.
  - repeat constructor. simpl. tauto.
  - repeat constructor; simpl; tauto.
  - exists selected. split; assumption.
Defined.

(** ** The pool *)

Lemma In_collect_from (items : list item) (cat : string) (lf : bool) (b : bullet) :
  forall i0,
    In b (collect_from i0 items cat lf) <->
    exists j it, nth_error items j = Some it
                 /\ b = bullet_of cat lf (i0 + Z.of_nat j) it.
Proof.
  induction items as [| x items IH]; intros i0; cbn [collect_from In].
  - split; [contradiction |]. intros (j & it & Hj & _). destruct j; discriminate.
  - rewrite IH. split.
    + intros [<- | (j & it & Hj & ->)].
      * exists 0%nat, x. split; [reflexivity |]. unfold bullet_of.
        now rewrite Z.add_0_r.
      * exists (S j), it. split; [exact Hj |]. f_equal. lia.
    + intros ([| j] & it & Hj & ->).
      * left. injection Hj as ->. unfold bullet_of. now rewrite Z.add_0_r.
      * right. exists j, it. split; [exact Hj |]. f_equal. lia.
Qed.

Lemma truthy_true (s : str) : truthy s = true <-> s <> [].
Proof. destruct s; simpl; split; congruence. Qed.

(** X9: the pool holds exactly the rows of the four editors whose
    text is not blank and whose priority is above 0, each with its
    text stripped, the category of its editor, its row number as idx,
    and a link only for SURE. *)
Theorem pool_entries (what_items how_items sure_items cydi_items : list item)
    (b : bullet) :
  In b (make_pool (collect what_items how_items sure_items cydi_items)) <->
  exists cat linkflag items i it,
    In (cat, linkflag, items) (editors what_items how_items sure_items cydi_items)
    /\ nth_error items i = Some it
    /\ b = bullet_of cat linkflag (Z.of_nat i) it
    /\ strip (it_text it) <> []
    /\ 0 < it_priority it.
Proof.
  unfold make_pool, collect, editors. rewrite filter_In, !in_app_iff.
  rewrite !In_collect_from, andb_true_iff, truthy_true, Z.ltb_lt.
  split.
  - intros [Hin [Ht Hp]].
    destruct Hin as [H | [H | [H | H]]]; destruct H as (j & it & Hj & ->);
      cbn [bullet_of text priority] in Ht, Hp.
    + exists "WHAT"%string, false, what_items, j, it. simpl. tauto.
    + exists "HOW"%string, false, how_items, j, it. simpl. tauto.
    + exists "SURE"%string, true, sure_items, j, it. simpl. tauto.
    + exists "CYDI"%string, false, cydi_items, j, it. simpl. tauto.
  - intros (cat & lf & items & i & it & Hed & Hi & -> & Ht & Hp).
    cbn [bullet_of text priority]. split; [| tauto].
    cbn [In] in Hed.
    destruct Hed as [[= <- <- <-] | [[= <- <- <-] | [[= <- <- <-] | [[= <- <- <-] | []]]]];
      [left | right; left | right; right; left | right; right; right];
      exists i, it; (split; [exact Hi | reflexivity]).
Qed.

(** ** The handler, steps 1 to 5 *)

Lemma sum_lengths_le (caps : dict Z) :
  forall selected : dict (list bullet),
    keys selected = keys caps -> NoDup (keys caps) ->
    (forall c cap, In (c, cap) caps ->
       exists l, get c selected = Ok l /\ Z.of_nat (List.length l) <= cap) ->
    sum_Z (map (fun cs => Z.of_nat (List.length (snd cs))) selected)
      <= sum_Z (values caps).
Proof.
  induction caps as [| [c cap] caps IH]; intros selected Hk Hnd Hall.
  - destruct selected; [simpl; lia | discriminate].
  - destruct selected as [| [c' l'] selected]; [discriminate |].
    cbn [keys map fst] in Hk. injection Hk as -> Hk.
    inversion Hnd as [| ? ? Hnotin Hnd']; subst.
    cbn [map values snd sum_Z fold_right].
    fold (values caps). fold (sum_Z (values caps)).
    fold (sum_Z (map (fun cs => Z.of_nat (List.length (snd cs))) selected)).
    destruct (Hall c cap (or_introl eq_refl)) as (l & Hl & Hle).
    cbn [get] in Hl. rewrite String.eqb_refl in Hl. injection Hl as ->.
    assert (IH' := IH selected Hk Hnd').
    enough (sum_Z (map (fun cs => Z.of_nat (List.length (snd cs))) selected)
            <= sum_Z (values caps)) by lia.
    apply IH'. intros c2 cap2 Hin.
    destruct (Hall c2 cap2 (or_intror Hin)) as (l2 & Hl2 & Hle2).
    exists l2. split; [| assumption].
    cbn [get] in Hl2. destruct (String.eqb c c2) eqn:E; [| assumption].
    apply String.eqb_eq in E. subst c2. exfalso. apply Hnotin.
    change c with (fst (c, cap2)). now apply in_map.
Qed.

Lemma whac_unit : ratio_sum WHAC_RATIOS = f1_0.
Proof. vm_compute. reflexivity. Qed.

(** What the handler computes for a pool of a size that a deck can
    have. *)
Lemma build_data (what_items how_items sure_items cydi_items : list item) :
  let pool := make_pool (collect what_items how_items sure_items cydi_items) in
  let n := Z.of_nat (List.length pool) in
  6 * n <= 2 ^ 52 ->
  exists caps selected,
    build what_items how_items sure_items cydi_items =
      Ok {| sel_pool := pool;
            sel_kept_total := Z.max 1 (half_even n);
            sel_targets := caps;
            sel_selected := selected |}
    /\ keys caps = CATEGORIES
    /\ Forall (fun kc => 0 <= snd kc) caps
    /\ sum_Z (values caps) = Z.max 1 (half_even n)
    /\ keys selected = CATEGORIES
    /\ (forall c cap, In (c, cap) caps ->
         get c selected =
           Ok (firstn (Z.to_nat cap) (filter (in_tier c true) pool)
               ++ firstn (Z.to_nat cap - List.length (filter (in_tier c true) pool))
                    (filter (in_tier c false) pool)))
    /\ sum_Z (map (fun cs => Z.of_nat (List.length (snd cs))) selected)
         <= Z.max 1 (half_even n).
Proof.
  intros pool n Hn.
  pose proof (half_even_bounds n ltac:(subst n; lia)) as [Hb _].
  set (kept := Z.max 1 (half_even n)).
  assert (Hq : quota_guarantee kept WHAC_RATIOS).
  { destruct (floors_of_unit_ratios kept WHAC_RATIOS) as (floors & Hfl & Hrem).
    - subst kept. lia.
    - change (Z.of_nat (List.length WHAC_RATIOS) + 2) with 6. subst kept. lia.
    - repeat constructor.
    - exact whac_unit.
    - apply (quota_guarantee_of_remainder kept WHAC_RATIOS floors);
        [subst kept; lia | | repeat constructor | exact Hfl | exact Hrem].
      repeat constructor; simpl; intuition discriminate. }
  destruct Hq as (floors & caps & _ & Hcaps & Hk & Hnn & Hsum & _).
  change (keys WHAC_RATIOS) with CATEGORIES in Hk.
  assert (Hcat : Forall (fun b => In (category b) CATEGORIES) pool).
  { apply make_pool_categories, collect_categories. }
  assert (Hord : input_ordered pool).
  { apply make_pool_input_ordered, collect_input_ordered. }
  assert (Hkc : Forall (fun kc => In (fst kc) CATEGORIES) caps).
  { rewrite Forall_forall. intros kc Hkc. rewrite <- Hk. now apply in_map. }
  destruct (select_full pool caps Hcat) as (selected & Hrun & Hks & Hin & _).
  { rewrite Hk. repeat constructor; simpl; intuition discriminate. }
  { assumption. }
  exists caps, selected. split.
  { unfold build. fold pool. unfold select_from_pool.
    rewrite kept_total_of_length by (fold n; lia). fold n. fold kept.
    cbn [bind]. rewrite Hcaps. cbn [bind]. rewrite Hrun. reflexivity. }
  split; [assumption |]. split; [assumption |]. split; [assumption |].
  split; [assumption |].
  assert (Hget : forall c cap, In (c, cap) caps ->
            get c selected =
              Ok (firstn (Z.to_nat cap) (filter (in_tier c true) pool)
                  ++ firstn (Z.to_nat cap - List.length (filter (in_tier c true) pool))
                       (filter (in_tier c false) pool))).
  { intros c cap Hc. rewrite (Hin c cap Hc). f_equal.
    rewrite Forall_forall in Hnn. specialize (Hnn _ Hc). simpl in Hnn.
    rewrite take_for_firstn by assumption.
    now rewrite !sort_by_idx_id by now apply input_ordered_tier. }
  split; [exact Hget |].
  fold kept. rewrite <- Hsum. apply sum_lengths_le.
  - congruence.
  - rewrite Hk. repeat constructor; simpl; intuition discriminate.
  - intros c cap Hc. eexists. split; [apply (Hget c cap Hc) |].
    rewrite Forall_forall in Hnn. specialize (Hnn _ Hc). simpl in Hnn.
    rewrite length_app, !length_firstn. lia.
Qed.

(** X6: for rows that leave a pool of n entries, 6 * n <= 2^52, the
    handler's steps 1 to 5 return: kept_total is at least 1 and at
    most max(1, n), so 1 for the empty pool and at most n for every
    other; the caps, one for each of
    WHAT, HOW, SURE and CYDI, are not negative and sum to kept_total
    exactly; and the bullets selected over all categories are at most
    kept_total. *)
Theorem build_returns (what_items how_items sure_items cydi_items : list item) :
  let pool := make_pool (collect what_items how_items sure_items cydi_items) in
  let n := Z.of_nat (List.length pool) in
  6 * n <= 2 ^ 52 ->
  exists sel,
    build what_items how_items sure_items cydi_items = Ok sel
    /\ sel_pool sel = pool
    /\ 1 <= sel_kept_total sel <= Z.max 1 n
    /\ (1 <= n -> sel_kept_total sel <= n)
    /\ keys (sel_targets sel) = CATEGORIES
    /\ Forall (fun kc => 0 <= snd kc) (sel_targets sel)
    /\ sum_Z (values (sel_targets sel)) = sel_kept_total sel
    /\ keys (sel_selected sel) = CATEGORIES
    /\ sum_Z (map (fun cs => Z.of_nat (List.length (snd cs))) (sel_selected sel))
         <= sel_kept_total sel.
Proof.
  intros pool n Hn.
  destruct (build_data what_items how_items sure_items cydi_items Hn)
    as (caps & selected & Hrun & Hk & Hnn & Hsum & Hks & Hget & Hle).
  pose proof (half_even_bounds n ltac:(subst n; lia)) as [Hb _].
  subst n pool.
  eexists. split; [exact Hrun |].
  cbn [sel_pool sel_kept_total sel_targets sel_selected].
  split; [reflexivity |]. split; [lia |]. split; [lia |].
  split; [assumption |]. split; [assumption |]. split; [assumption |].
  split; assumption.
Qed.

Lemma build_returns_witness :
  exists sel,
    build [med_item; high_item; muted_item; high_item] [med_item] [] [blank_item] = Ok sel
    /\ sel_kept_total sel = 2
    /\ sel_targets sel = [("WHAT", 1); ("HOW", 1); ("SURE", 0); ("CYDI", 0)]%string.
Proof.
  destruct (build_returns [med_item; high_item; muted_item; high_item] [med_item] []
              [blank_item]) as (sel & Hrun & _).
  - vm_compute. discriminate.
  - exists sel. split; [exact Hrun |].
    vm_compute in Hrun. injection Hrun as <-. split; reflexivity.
Defined.

(** X7: in the handler the sort by idx changes nothing, because the
    pool lists each editor's rows in order: under each category the
    selection is the first HIGH rows of that editor's pool entries,
    up to the cap, then the first MEDIUM rows for what the cap still
    leaves. *)
Theorem build_selection_in_editor_order
    (what_items how_items sure_items cydi_items : list item) :
  let pool := make_pool (collect what_items how_items sure_items cydi_items) in
  6 * Z.of_nat (List.length pool) <= 2 ^ 52 ->
  exists sel,
    build what_items how_items sure_items cydi_items = Ok sel
    /\ forall c cap, get c (sel_targets sel) = Ok cap ->
         0 <= cap
         /\ get c (sel_selected sel) =
              Ok (firstn (Z.to_nat cap) (filter (in_tier c true) pool)
                  ++ firstn (Z.to_nat cap - List.length (filter (in_tier c true) pool))
                       (filter (in_tier c false) pool)).
Proof.
  intros pool Hn.
  destruct (build_data what_items how_items sure_items cydi_items Hn)
    as (caps & selected & Hrun & Hk & Hnn & Hsum & Hks & Hget & _).
  eexists. split; [exact Hrun |].
  cbn [sel_targets sel_selected]. intros c cap Hc. apply get_Ok_In in Hc.
  split; [| now apply Hget].
  rewrite Forall_forall in Hnn. apply (Hnn _ Hc).
Qed.

Lemma build_selection_in_editor_order_witness :
  exists sel,
    build [med_item; high_item; muted_item; high_item] [med_item] [] [blank_item] = Ok sel
    /\ get "WHAT" (sel_selected sel) = Ok [bullet_of "WHAT" false 1 high_item].
Proof.
  destruct (build_selection_in_editor_order
              [med_item; high_item; muted_item; high_item] [med_item] []
              [blank_item]) as (sel & Hrun & Hget).
  - vm_compute. discriminate.
  - exists sel. split; [exact Hrun |].
    destruct (Hget "WHAT"%string 1) as [_ H].
    + vm_compute in Hrun. injection Hrun as <-. reflexivity.
    + rewrite H. reflexivity.
Defined.

(** ** Caps and keys that the handler never passes *)

(** X22: with a negative cap the slice [:cap] drops entries from the
    end instead of taking none: the selection of that category is its
    HIGH entries without the last -cap of them, and no MEDIUM entry. *)
Theorem select_negative_cap (pool : list bullet) (targets : dict Z)
    (c : string) (cap : Z) :
  Forall (fun b => In (category b) CATEGORIES) pool ->
  NoDup (keys targets) ->
  Forall (fun kc => In (fst kc) CATEGORIES) targets ->
  In (c, cap) targets -> cap < 0 ->
  exists selected,
    select pool targets = Ok selected
    /\ get c selected =
         Ok (firstn (List.length (filter (in_tier c true) pool) - Z.to_nat (- cap))
               (sort_by_idx (filter (in_tier c true) pool))).
Proof.
  intros Hpool Hnd Hkeys Hc Hneg.
  destruct (select_full pool targets Hpool Hnd Hkeys) as (sel & Hrun & _ & Hin & _).
  exists sel. split; [assumption |]. rewrite (Hin c cap Hc). f_equal.
  unfold take_for, slice_to. cbn [fst snd].
  rewrite (proj2 (Z.leb_gt _ _)) by lia.
  rewrite (proj2 (Z.ltb_ge _ _)) by lia.
  f_equal. rewrite (Permutation_length (sort_by_idx_perm _)). lia.
Qed.

Lemma select_negative_cap_witness :
  exists selected,
    select [demo_bullet 5 0; demo_bullet 5 1; demo_bullet 3 2]
           [("WHAT"%string, -1)] = Ok selected
    /\ get "WHAT" selected = Ok [demo_bullet 5 0].
Proof.
  destruct (select_negative_cap [demo_bullet 5 0; demo_bullet 5 1; demo_bullet 3 2]
              [("WHAT"%string, -1)] "WHAT" (-1)) as (selected & Hrun & Hget).
  - repeat constructor; simpl; tauto.
  - repeat constructor. simpl. tauto.
  - repeat constructor; simpl; tauto.
  - now left.
  - lia.
  - exists selected. split; [exact Hrun |]. rewrite Hget. reflexivity.
Defined.

Lemma by_cat_append_unknown (b : bullet) (d : dict tiers) :
  ~ In (category b) (keys d) -> by_cat_append b d = Raise KeyError.
Proof.
  induction d as [| [c [h m]] d IH]; intros Hnot; cbn [by_cat_append]; [reflexivity |].
  cbn [keys map fst In] in Hnot.
  destruct (String.eqb c (category b)) eqn:E.
  - apply String.eqb_eq in E. tauto.
  - rewrite IH by tauto. reflexivity.
Qed.

Lemma split_pool_unknown (pool : list bullet) :
  forall d : dict tiers,
    Exists (fun b => ~ In (category b) (keys d)) pool ->
    split_pool pool d = Raise KeyError.
Proof.
  induction pool as [| b pool IH]; intros d Hex; [inversion Hex |].
  cbn [split_pool].
  destruct (in_dec string_dec (category b) (keys d)) as [Hin | Hnot].
  - destruct (by_cat_append_get b d Hin) as (d' & Hrun & Hk & _).
    rewrite Hrun. cbn [bind]. apply IH.
    inversion Hex as [? ? Hb | ? ? Hrest]; subst; [contradiction |].
    now rewrite Hk.
  - now rewrite by_cat_append_unknown.
Qed.

Lemma select_loop_unknown (by_cat : dict tiers) (targets : dict Z) :
  forall selected : dict (list bullet),
    Exists (fun kc => ~ In (fst kc) (keys by_cat)) targets ->
    select_loop by_cat targets selected = Raise KeyError.
Proof.
  induction targets as [| [c cap] targets IH]; intros selected Hex; [inversion Hex |].
  cbn [select_loop].
  destruct (get c by_cat) as [t | e] eqn:E.
  - cbn [bind]. apply IH.
    inversion Hex as [? ? Hc | ? ? Hrest]; subst; [| assumption].
    exfalso. apply Hc. cbn [fst]. apply get_Ok_In in E.
    change c with (fst (c, t)). now apply in_map.
  - cbn [bind]. clear - E. f_equal.
    induction by_cat as [| [k v] by_cat IH]; cbn [get] in E; [now injection E |].
    destruct (String.eqb k c); [discriminate | auto].
Qed.

(** X23: an entry of the pool or a key of the targets outside WHAT,
    HOW, SURE and CYDI makes the selection raise KeyError. *)
Theorem select_unknown_category (pool : list bullet) (targets : dict Z) :
  Exists (fun b => ~ In (category b) CATEGORIES) pool
  \/ Exists (fun kc => ~ In (fst kc) CATEGORIES) targets ->
  select pool targets = Raise KeyError.
Proof.
  intros H. unfold select.
  destruct (split_pool pool by_cat_init) as [d | e] eqn:Hsplit.
  - cbn [bind]. apply select_loop_unknown.
    destruct H as [Hpool | Htargets].
    + rewrite (split_pool_unknown pool by_cat_init Hpool) in Hsplit. discriminate.
    + assert (Hk : keys (sort_tiers d) = CATEGORIES).
      { destruct (Exists_dec (fun b => ~ In (category b) CATEGORIES) pool) as [Hex | Hall].
        - intros b. destruct (in_dec string_dec (category b) CATEGORIES); [right | left]; tauto.
        - rewrite (split_pool_unknown pool by_cat_init Hex) in Hsplit. discriminate.
        - assert (Hpool : Forall (fun b => In (category b) CATEGORIES) pool).
          { rewrite Forall_forall. intros b Hb.
            destruct (in_dec string_dec (category b) CATEGORIES) as [Hin | Hnot];
              [assumption |].
            exfalso. apply Hall. apply Exists_exists. now exists b. }
          destruct (split_pool_get pool by_cat_init Hpool) as (d' & Hrun & Hk & _).
          rewrite Hrun in Hsplit. injection Hsplit as <-.
          unfold sort_tiers, keys. rewrite map_map. exact Hk. }
      now rewrite Hk.
  - destruct H as [Hpool | Htargets].
    + rewrite (split_pool_unknown pool by_cat_init Hpool) in Hsplit.
      now injection Hsplit as <-.
    + cbn [bind]. f_equal.
      destruct (Exists_dec (fun b => ~ In (category b) CATEGORIES) pool) as [Hex | Hall].
      * intros b. destruct (in_dec string_dec (category b) CATEGORIES); [right | left]; tauto.
      * rewrite (split_pool_unknown pool by_cat_init Hex) in Hsplit.
        now injection Hsplit as <-.
      * assert (Hpool : Forall (fun b => In (category b) CATEGORIES) pool).
        { rewrite Forall_forall. intros b Hb.
          destruct (in_dec string_dec (category b) CATEGORIES) as [Hin | Hnot];
            [assumption |].
          exfalso. apply Hall. apply Exists_exists. now exists b. }
        destruct (split_pool_get pool by_cat_init Hpool) as (d' & Hrun & _).
        rewrite Hrun in Hsplit. discriminate.
Qed.

Lemma select_unknown_category_witness :
  select [] [("WHY"%string, 1)] = Raise KeyError.
Proof.
  apply select_unknown_category. right. constructor. simpl.
  intuition discriminate.
Defined.

Import PyStr PyFloat Lit Dict Quota Build Spec Payload.
Import DictFacts SelectFacts SelectFacts2 SelectFacts3 KeptFacts.

(** ** The payload *)

Lemma str_eqb_eq (a b : str) : str_eqb a b = true <-> a = b.
Proof.
  revert b. induction a as [| x a IH]; intros [| y b]; cbn [str_eqb];
    try (split; [discriminate | discriminate]); [tauto |].
  rewrite andb_true_iff, N.eqb_eq, IH. split.
  - intros [-> ->]. reflexivity.
  - intros [= -> ->]. auto.
Qed.

Lemma contains_In (l : list str) (u : str) : contains l u = true <-> In u l.
Proof.
  unfold contains. rewrite existsb_exists. split.
  - intros (x & Hx & He). apply str_eqb_eq in He. now subst.
  - intros H. exists u. split; [assumption | now apply str_eqb_eq].
Qed.

Lemma strip_nil : strip [] = [].
Proof. reflexivity. Qed.

(** One step of the loop over the selected SURE bullets. *)
Lemma add_link_spec (acc : list str) (b : bullet) :
  let u := strip (link b) in
  (u <> [] /\ ~ In u acc /\ add_link acc b = acc ++ [u])
  \/ ((u = [] \/ In u acc) /\ add_link acc b = acc).
Proof.
  cbv zeta. unfold add_link.
  destruct (truthy (link b)) eqn:Elink.
  - destruct (truthy (strip (link b))) eqn:Et; cbn [andb].
    + destruct (contains acc (strip (link b))) eqn:Ec; cbn [negb].
      * right. split; [| reflexivity]. right. now apply contains_In.
      * left. repeat split; auto.
        -- now apply truthy_true.
        -- intros H. apply contains_In in H. congruence.
    + right. split; [| reflexivity]. left.
      destruct (strip (link b)); [reflexivity | discriminate].
  - right. split; [| reflexivity]. left.
    destruct (link b); [reflexivity | discriminate].
Qed.

Lemma sure_links_from (sure : list bullet) :
  forall acc : list str,
    NoDup acc ->
    exists tail,
      fold_left add_link sure acc = acc ++ tail
      /\ NoDup (acc ++ tail)
      /\ (List.length tail <= List.length sure)%nat
      /\ forall u, In u tail <->
           (u <> [] /\ ~ In u acc /\ exists b, In b sure /\ u = strip (link b)).
Proof.
  induction sure as [| b sure IH]; intros acc Hnd.
  - exists []. cbn [fold_left]. rewrite app_nil_r.
    repeat split; auto; try contradiction.
    intros (_ & _ & b & [] & _).
  - cbn [fold_left].
    destruct (add_link_spec acc b) as [(Hne & Hnew & ->) | (Hold & ->)].
    + destruct (IH (acc ++ [strip (link b)])) as (tail & Hrun & Hnd' & Hlen & Hin).
      { apply NoDup_app; [assumption | repeat constructor; intros [] |].
        intros x Hx [<- | []]. contradiction. }
      exists (strip (link b) :: tail).
      rewrite Hrun, <- !app_assoc in *. cbn [app] in *.
      split; [reflexivity |]. split; [assumption |].
      split; [simpl; lia |].
      intros u. cbn [In]. rewrite Hin. split.
      * intros [<- | (Hu & Hnot & b' & Hb' & ->)].
        -- split; [assumption |]. split; [assumption |].
           exists b. split; [now left | reflexivity].
        -- split; [assumption |]. split.
           ++ intros H. apply Hnot. apply in_or_app. now left.
           ++ exists b'. split; [now right | reflexivity].
      * intros (Hu & Hnot & b' & [<- | Hb'] & ->); [now left |].
        destruct (list_eq_dec N.eq_dec (strip (link b)) (strip (link b')))
          as [Heq | Hneq]; [now left | right].
        split; [assumption |]. split; [| now exists b'].
        intros H. apply in_app_or in H. destruct H as [H | [H | []]];
          [contradiction | congruence].
    + destruct (IH acc Hnd) as (tail & Hrun & Hnd' & Hlen & Hin).
      exists tail. split; [assumption |]. split; [assumption |].
      split; [simpl; lia |].
      intros u. rewrite Hin. split.
      * intros (Hu & Hnot & b' & Hb' & ->).
        split; [assumption |]. split; [assumption |].
        exists b'. split; [now right | reflexivity].
      * intros (Hu & Hnot & b' & [<- | Hb'] & ->).
        -- destruct Hold; contradiction.
        -- split; [assumption |]. split; [assumption |]. now exists b'.
Qed.

(** X14: the footer links of the SURE slide are the links of the
    selected SURE bullets, stripped, without the empty ones and
    without repetition: no link is listed twice, every link that is
    not blank is listed, and reading more bullets only appends. *)
Theorem sure_links_distinct (sure : list bullet) :
  NoDup (sure_links_of sure)
  /\ (forall u, In u (sure_links_of sure) <->
        (u <> [] /\ exists b, In b sure /\ u = strip (link b)))
  /\ (List.length (sure_links_of sure) <= List.length sure)%nat
  /\ forall pre post, sure = pre ++ post ->
       exists tail, sure_links_of sure = sure_links_of pre ++ tail.
Proof.
  unfold sure_links_of.
  destruct (sure_links_from sure [] ltac:(constructor))
    as (tail & Hrun & Hnd & Hlen & Hin).
  cbn [app] in *. rewrite Hrun.
  split; [assumption |]. split; [| split; [assumption |]].
  - intros u. rewrite Hin. split.
    + intros (Hu & _ & H). auto.
    + intros (Hu & H). repeat split; auto.
  - intros pre post ->. rewrite <- Hrun, fold_left_app.
    destruct (sure_links_from pre [] ltac:(constructor)) as (t1 & Hr1 & Hn1 & _).
    cbn [app] in *. rewrite Hr1.
    destruct (sure_links_from post t1 Hn1) as (t2 & Hr2 & _).
    exists t2. exact Hr2.
Qed.

(** X15: the downsides slide never comes out empty and never holds
    more than three lines: it shows the first three texts that are
    not blank, or the one default line when there is none. *)
Theorem downsides_bounds (downsides_items : list item) :
  let kept := map it_text
                (filter (fun x => truthy (strip (it_text x))) downsides_items) in
  let d := downsides_of downsides_items in
  (1 <= List.length d <= 3)%nat
  /\ (kept = [] -> d = [default_downside])
  /\ (kept <> [] -> d = firstn 3 kept).
Proof.
  cbv zeta. unfold downsides_of, slice_to.
  change (0 <=? 3) with true. cbv iota. change (Z.to_nat 3) with 3%nat.
  generalize (map it_text
                (filter (fun x => truthy (strip (it_text x))) downsides_items)).
  intros kept.
  destruct kept as [| a [| b [| c rest]]]; cbn [firstn List.length];
    (split; [lia |]); split; intros H; try reflexivity; congruence.
Qed.

Lemma get_keys_head {V : Type} (d : dict V) (ks : list string) :
  keys d = ks -> NoDup ks ->
  forall k, In k ks -> exists v, get k d = Ok v /\ In (k, v) d.
Proof.
  intros Hk _ k Hin. rewrite <- Hk in Hin.
  destruct (get_In _ _ Hin) as [v Hv]. exists v. split; [assumption |].
  now apply get_Ok_In.
Qed.

(** A selection with the four keys is four lists. *)
Lemma selection_shape (selected : dict (list bullet)) :
  keys selected = CATEGORIES ->
  exists w h s y,
    selected = [("WHAT"%string, w); ("HOW"%string, h);
                ("SURE"%string, s); ("CYDI"%string, y)].
Proof.
  intros Hk.
  destruct selected as [| [k1 w] [| [k2 h] [| [k3 s] [| [k4 y] [| ? ?]]]]];
    try discriminate.
  cbn in Hk. injection Hk as -> -> -> ->. now exists w, h, s, y.
Qed.

(** X16: for rows that leave a pool of n entries, 6 * n <= 2^52, the
    handler reaches the payload without an exception; the WHAT slide
    takes the first three selected WHAT texts and what_rest the
    others; and the bullet texts of the payload, over the four
    categories, are at most kept_total. *)
Theorem build_slides_returns
    (what_items how_items sure_items cydi_items downsides_items : list item) :
  let pool := make_pool (collect what_items how_items sure_items cydi_items) in
  6 * Z.of_nat (List.length pool) <= 2 ^ 52 ->
  exists sel sl what,
    build what_items how_items sure_items cydi_items = Ok sel
    /\ build_slides what_items how_items sure_items cydi_items downsides_items = Ok sl
    /\ get "WHAT" (sel_selected sel) = Ok what
    /\ what_top3 sl = firstn 3 (map text what)
    /\ what_top3 sl ++ what_rest sl = map text what
    /\ Z.of_nat (List.length (what_top3 sl ++ what_rest sl) + List.length (how sl)
                 + List.length (sure_texts sl) + List.length (cydi sl))
         <= sel_kept_total sel.
Proof.
  intros pool Hn.
  destruct (build_data what_items how_items sure_items cydi_items Hn)
    as (caps & selected & Hrun & _ & _ & _ & Hks & _ & Hle).
  destruct (selection_shape selected Hks) as (w & h & s & y & ->).
  eexists. eexists. exists w.
  split; [exact Hrun |].
  split; [unfold build_slides; rewrite Hrun; reflexivity |].
  cbn [sel_selected sel_kept_total what_top3 what_rest how sure_texts sure_links
       cydi downsides].
  split; [reflexivity |]. split; [reflexivity |].
  split; [apply firstn_skipn |].
  change (slice_to (map text w) 3) with (firstn 3 (map text w)).
  rewrite firstn_skipn, !length_map.
  cbn [map snd sum_Z fold_right] in Hle. lia.
Qed.

Lemma build_slides_returns_witness :
  exists sl,
    build_slides [med_item; high_item; muted_item; high_item] [med_item] []
      [blank_item] [] = Ok sl
    /\ what_top3 sl = [[72%N]]
    /\ downsides sl = [default_downside].
Proof.
  destruct (build_slides_returns [med_item; high_item; muted_item; high_item]
              [med_item] [] [blank_item] [])
    as (sel & sl & what & _ & Hrun & _).
  - vm_compute. discriminate.
  - exists sl. split; [exact Hrun |].
    vm_compute in Hrun. injection Hrun as <-. split; reflexivity.
Defined.

Import PyStr Dict Build Editor.
Import DictFacts SelectFacts SelectFacts2 SelectFacts3.

(** ** Stripping *)

Lemma lstrip_head (s : str) :
  lstrip s = [] \/ exists c r, lstrip s = c :: r /\ isspace c = false.
Proof.
  induction s as [| c s IH]; [now left |].
  cbn [lstrip]. destruct (isspace c) eqn:E; [exact IH |].
  right. now exists c, s.
Qed.

Lemma lstrip_fixed (c : N) (r : str) : isspace c = false -> lstrip (c :: r) = c :: r.
Proof. intros H. cbn [lstrip]. now rewrite H. Qed.

Lemma lstrip_idem (s : str) : lstrip (lstrip s) = lstrip s.
Proof.
  destruct (lstrip_head s) as [-> | (c & r & -> & Hc)]; [reflexivity |].
  now apply lstrip_fixed.
Qed.

Lemma lstrip_snoc (y : str) (c : N) :
  isspace c = false -> exists v, lstrip (y ++ [c]) = v ++ [c].
Proof.
  intros Hc. induction y as [| d y IH].
  - exists []. cbn [app lstrip]. now rewrite Hc.
  - cbn [app lstrip]. destruct (isspace d); [exact IH |].
    now exists (d :: y).
Qed.

Lemma strip_idem (s : str) : strip (strip s) = strip s.
Proof.
  unfold strip.
  destruct (lstrip_head s) as [-> | (c & r & -> & Hc)]; [reflexivity |].
  cbn [rev].
  destruct (lstrip_snoc (rev r) c Hc) as [v Hv].
  assert (Hfix : lstrip (v ++ [c]) = v ++ [c])
    by (rewrite <- Hv; apply lstrip_idem).
  rewrite Hv, rev_app_distr. cbn [rev app].
  rewrite (lstrip_fixed c (rev v) Hc).
  cbn [rev]. rewrite rev_involutive, Hfix, rev_app_distr. reflexivity.
Qed.

(** ** The items of an editor *)

(** X17: make_editor returns at most one item per row, in row order;
    every item has a text that is not empty and already stripped, a
    priority of 5, 3 or 0 (5 whenever High is ticked), and no link
    unless the editor has the link column. *)
Theorem make_editor_items (include_link : bool) (rows : list row) :
  let items := make_editor include_link rows in
  (List.length items <= List.length rows)%nat
  /\ items = map (fun r =>
               {| it_text := strip (or_empty (bullet_cell r));
                  it_priority := if high_cell r then 5
                                 else if med_cell r then 3 else 0;
                  it_link := if include_link then strip (or_empty (link_cell r))
                             else [] |})
               (filter (fun r => truthy (strip (or_empty (bullet_cell r)))) rows)
  /\ Forall (fun it =>
       it_text it <> []
       /\ strip (it_text it) = it_text it
       /\ In (it_priority it) [5; 3; 0]
       /\ (include_link = false -> it_link it = [])) items.
Proof.
  cbv zeta. unfold make_editor.
  induction rows as [| r rows (IHlen & IHeq & IHall)];
    [split; [simpl; lia | split; [reflexivity | constructor]] |].
  cbn [flat_map filter]. unfold row_items in *. cbv zeta in *.
  destruct (truthy (strip (or_empty (bullet_cell r)))) eqn:Et.
  - cbn [app List.length map]. split; [lia |]. split; [now rewrite <- IHeq |].
    constructor; [| exact IHall]. cbn [it_text it_priority it_link].
    split; [intros H; rewrite H in Et; discriminate |].
    split; [apply strip_idem |]. split.
    + unfold priority_of. destruct (high_cell r), (med_cell r); simpl; auto.
    + intros ->. reflexivity.
  - cbn [app List.length]. split; [lia |]. split; assumption.
Qed.

Lemma collect_from_app (l1 l2 : list item) (cat : string) (lf : bool) :
  forall i,
    collect_from i (l1 ++ l2) cat lf =
      collect_from i l1 cat lf ++ collect_from (i + Z.of_nat (List.length l1)) l2 cat lf.
Proof.
  induction l1 as [| x l1 IH]; intros i; cbn [app collect_from List.length].
  - now rewrite Z.add_0_r.
  - rewrite IH. do 3 f_equal. lia.
Qed.

Lemma pool_of_rows (lf : bool) (cat : string) (rows : list row) :
  forall i,
    map text (make_pool (collect_from i (make_editor lf rows) cat lf))
      = kept_texts rows
    /\ Forall (fun b => priority b = 5 \/ priority b = 3)
         (make_pool (collect_from i (make_editor lf rows) cat lf)).
Proof.
  unfold make_editor, kept_texts, make_pool.
  induction rows as [| r rows IH]; intros i; [split; [reflexivity | constructor] |].
  cbn [flat_map filter]. rewrite collect_from_app, filter_app, map_app.
  destruct (IH (i + Z.of_nat (List.length (row_items lf r)))) as [IHt IHp].
  rewrite IHt. clear IHt IH. unfold row_items, ticked in *. cbv zeta in *.
  destruct (truthy (strip (or_empty (bullet_cell r)))) eqn:Et; cbn [andb].
  - cbn [collect_from filter text priority it_text it_priority].
    rewrite strip_idem, Et. cbn [andb]. unfold priority_of.
    destruct (high_cell r), (med_cell r); cbn [orb Z.ltb Z.compare filter map app];
      (split; [reflexivity |]); try (constructor; [simpl; tauto |]); assumption.
  - cbn [collect_from filter map app]. split; [reflexivity | assumption].
Qed.

(** X18: fed with the rows of the four editors, the pool's texts are
    the stripped bullets of the rows whose bullet is not blank and
    that have High or Med ticked, editor by editor in row order;
    every pool entry has priority 5 or 3.  The None column is never
    read: a row with nothing ticked is dropped like one with None
    ticked. *)
Theorem pool_of_editor_rows (what_rows how_rows sure_rows cydi_rows : list row) :
  let pool := make_pool (collect (make_editor false what_rows)
                           (make_editor false how_rows)
                           (make_editor true sure_rows)
                           (make_editor false cydi_rows)) in
  map text pool = kept_texts what_rows ++ kept_texts how_rows
                  ++ kept_texts sure_rows ++ kept_texts cydi_rows
  /\ Forall (fun b => priority b = 5 \/ priority b = 3) pool.
Proof.
  cbv zeta. unfold collect.
  destruct (pool_of_rows false "WHAT" what_rows 0) as [Hw Pw].
  destruct (pool_of_rows false "HOW" how_rows 0) as [Hh Ph].
  destruct (pool_of_rows true "SURE" sure_rows 0) as [Hs Ps].
  destruct (pool_of_rows false "CYDI" cydi_rows 0) as [Hy Py].
  unfold make_pool in *. rewrite !filter_app, !map_app, Hw, Hh, Hs, Hy.
  split; [reflexivity |].
  repeat (apply Forall_app; split); assumption.
Qed.

Import PyStr PyFloat Lit Layout BuildPpt.
Import SiteFacts.

(** ** The runs of the text blocks *)

Lemma wrap_chars_nonempty (text : str) (max_chars : Z) :
  wrap_chars text max_chars <> [].
Proof.
  unfold wrap_chars. destruct (split text); [discriminate |].
  destruct (wrap_chars_loop _ _ _ _) as [lines cur].
  now destruct lines.
Qed.

Lemma wrap_chars_dash (max_chars : Z) : wrap_chars em_dash max_chars = [em_dash].
Proof. reflexivity. Qed.

Lemma bullet_runs_marks (chunks : list str) :
  chunks <> [] ->
  List.length (filter (starts_with bullet_prefix) (bullet_runs chunks)) = 1%nat
  /\ List.length (bullet_runs chunks) = List.length chunks
  /\ Forall (fun r => starts_with bullet_prefix r = true
                      \/ starts_with indent_prefix r = true) (bullet_runs chunks).
Proof.
  destruct chunks as [| c rest]; [contradiction |]. intros _.
  cbn [bullet_runs].
  assert (Hrest : filter (starts_with bullet_prefix)
                    (map (fun x => indent_prefix ++ x) rest) = []
                  /\ Forall (fun r => starts_with bullet_prefix r = true
                                      \/ starts_with indent_prefix r = true)
                       (map (fun x => indent_prefix ++ x) rest)).
  { induction rest as [| x rest [IH1 IH2]]; [split; [reflexivity | constructor] |].
    cbn [map filter]. split.
    - change (starts_with bullet_prefix (indent_prefix ++ x)) with false.
      exact IH1.
    - constructor; [| exact IH2]. right. unfold indent_prefix. cbn [app starts_with].
      rewrite !N.eqb_refl. reflexivity. }
  destruct Hrest as [Hf Hall].
  cbn [filter].
  assert (Hb : starts_with bullet_prefix (bullet_prefix ++ c) = true).
  { unfold bullet_prefix. cbn [app starts_with]. rewrite !N.eqb_refl. reflexivity. }
  rewrite Hb, Hf. split; [reflexivity |]. split.
  - cbn [List.length]. now rewrite length_map.
  - constructor; [now left | exact Hall].
Qed.

Lemma bullet_block_marks (limit : Z) (items : list str) :
  let runs := List.concat (map bullet_runs (map (fun l => wrap_chars l limit) items)) in
  List.length (filter (starts_with bullet_prefix) runs) = List.length items
  /\ Z.of_nat (List.length runs)
       = sum_Z (map (fun w => Z.of_nat (List.length w))
                  (map (fun l => wrap_chars l limit) items))
  /\ Forall (fun r => starts_with bullet_prefix r = true
                      \/ starts_with indent_prefix r = true) runs.
Proof.
  cbv zeta. induction items as [| l items (IH1 & IH2 & IH3)];
    [split; [reflexivity | split; [reflexivity | constructor]] |].
  cbn [map List.concat sum_Z fold_right].
  destruct (bullet_runs_marks (wrap_chars l limit) (wrap_chars_nonempty l limit))
    as (H1 & H2 & H3).
  rewrite filter_app, !length_app, H1, IH1, H2.
  split; [reflexivity |]. split.
  - fold (sum_Z (map (fun w => Z.of_nat (List.length w))
                   (map (fun l => wrap_chars l limit) items))).
    rewrite <- IH2. lia.
  - apply Forall_app. split; assumption.
Qed.

Lemma nonblank_lines_cases (lines : list str) :
  let shown := filter (fun l => truthy (strip l)) lines in
  (shown = [] /\ nonblank_lines lines = [em_dash])
  \/ (shown <> [] /\ nonblank_lines lines = shown).
Proof.
  cbv zeta. unfold nonblank_lines. destruct lines as [| l lines]; [now left |].
  destruct (filter _ (l :: lines)) as [| x shown]; [now left |].
  right. split; [discriminate | reflexivity].
Qed.

(** X19: the bullets block drops the lines that are blank and shows
    a single dash when none is left; otherwise it writes one run
    marked with the bullet per remaining line, followed by that
    line's continuation runs, which are indented by two spaces; and
    the content height it is placed by is the line height times the
    number of runs written. *)
Theorem bullets_block_runs (prs : presentation) (lines : list str) (font_pt : Z)
    (left_in right_margin_in top_in bottom_in uplift_ratio : float)
    (wrap_chars_limit : Z) (tb : textbox) :
  add_left_bullets_vert_center prs lines font_pt left_in right_margin_in
    top_in bottom_in uplift_ratio wrap_chars_limit = Ok tb ->
  let shown := filter (fun l => truthy (strip l)) lines in
  (shown = [] -> tb_runs tb = [bullet_prefix ++ em_dash])
  /\ (shown <> [] ->
        List.length (filter (starts_with bullet_prefix) (tb_runs tb))
          = List.length shown)
  /\ Forall (fun r => starts_with bullet_prefix r = true
                      \/ starts_with indent_prefix r = true) (tb_runs tb)
  /\ (1 <= List.length (tb_runs tb))%nat
  /\ exists pt,
       int_mul font_pt f1_35 = Ok pt
       /\ int_mul (Z.of_nat (List.length (tb_runs tb))) (div pt f72_0)
            = Ok (tb_content_h tb).
Proof.
  intros H shown. unfold add_left_bullets_vert_center in H. cbv beta zeta in H.
  destruct (bullet_block_marks wrap_chars_limit (nonblank_lines lines))
    as (Hmarks & Hcount & Hall).
  cbv zeta in Hmarks, Hcount, Hall.
  set (runs := List.concat (map bullet_runs
                (map (fun l => wrap_chars l wrap_chars_limit) (nonblank_lines lines)))) in *.
  rewrite <- Hcount in H.
  apply bind_Ok in H. destruct H as (pt & Hpt & H).
  apply bind_Ok in H. destruct H as (h & Hh & H).
  apply bind_Ok in H. destruct H as (sz & _ & H).
  apply Ok_inj in H. subst tb. cbn [tb_runs tb_content_h].
  assert (Hlen : (1 <= List.length runs)%nat).
  { assert (List.length (nonblank_lines lines) <= List.length runs)%nat.
    { rewrite <- Hmarks. apply filter_length_le. }
    destruct (nonblank_lines_cases lines) as [[_ Hn] | [Hne Hn]];
      cbv zeta in *; rewrite Hn in *; [simpl in *; lia |].
    destruct (filter _ lines); [contradiction | simpl in *; lia]. }
  split; [| split; [| split; [exact Hall | split; [exact Hlen |]]]].
  - intros Hnil. subst runs.
    destruct (nonblank_lines_cases lines) as [[_ Hn] | [Hne _]];
      [| contradiction].
    rewrite Hn. cbn [map]. rewrite wrap_chars_dash. reflexivity.
  - intros Hne. rewrite Hmarks.
    destruct (nonblank_lines_cases lines) as [[Hnil _] | [_ Hn]];
      [contradiction | now rewrite Hn].
  - exists pt. split; [exact Hpt |].
    rewrite Z.max_r in Hh by lia. exact Hh.
Qed.

Lemma bullets_block_runs_witness :
  exists tb,
    add_left_bullets_vert_center default_slide [of_string " "; of_string "one two"] 28
      f0_9 f0_9 f2_0 f6_5 f0_2 4 = Ok tb
    /\ List.length (filter (starts_with bullet_prefix) (tb_runs tb)) = 1%nat
    /\ (1 <= List.length (tb_runs tb))%nat.
Proof.
  destruct (add_left_bullets_vert_center default_slide
              [of_string " "; of_string "one two"] 28
              f0_9 f0_9 f2_0 f6_5 f0_2 4) as [tb |] eqn:E;
    [| vm_compute in E; discriminate].
  exists tb. split; [reflexivity |].
  destruct (bullets_block_runs _ _ _ _ _ _ _ _ _ _ E) as (_ & Hmarks & _ & Hlen & _).
  split; [| exact Hlen]. apply Hmarks. discriminate.
Defined.

(** X21: the centred paragraph shows the dash only for the empty
    text; a text of white space alone gives one empty run; any other
    text gives its wrapped lines, at least one; and the content
    height it is placed by is the line height times the number of
    runs written. *)
Theorem paragraph_runs (prs : presentation) (text : str) (font_pt : Z)
    (box_width_in : option float)
    (left_in right_margin_in top_in bottom_in uplift_ratio : float)
    (wrap_chars_limit : Z) (tb : textbox) :
  add_center_paragraph prs text font_pt box_width_in left_in right_margin_in
    top_in bottom_in uplift_ratio wrap_chars_limit = Ok tb ->
  (text = [] -> tb_runs tb = [em_dash])
  /\ (text <> [] -> tb_runs tb = wrap_chars text wrap_chars_limit)
  /\ (text <> [] -> split text = [] -> tb_runs tb = [[]])
  /\ (1 <= List.length (tb_runs tb))%nat
  /\ exists pt,
       int_mul font_pt f1_35 = Ok pt
       /\ int_mul (Z.of_nat (List.length (tb_runs tb))) (div pt f72_0)
            = Ok (tb_content_h tb).
Proof.
  intros H. unfold add_center_paragraph in H. cbv beta zeta in H.
  apply bind_Ok in H. destruct H as (pt & Hpt & H).
  apply bind_Ok in H. destruct H as (h & Hh & H).
  apply bind_Ok in H. destruct H as (sz & _ & H).
  apply Ok_inj in H. subst tb. cbn [tb_runs tb_content_h].
  set (chunks := wrap_chars match text with [] => em_dash | _ :: _ => text end
                   wrap_chars_limit) in *.
  assert (Hlen : (1 <= List.length chunks)%nat).
  { pose proof (wrap_chars_nonempty match text with [] => em_dash | _ :: _ => text end
                  wrap_chars_limit) as Hne.
    fold chunks in Hne. destruct chunks; [contradiction | simpl; lia]. }
  split; [| split; [| split; [| split; [exact Hlen |]]]].
  - intros ->. reflexivity.
  - intros Hne. subst chunks. destruct text; [contradiction | reflexivity].
  - intros Hne Hsp. subst chunks. destruct text as [| c text]; [contradiction |].
    unfold wrap_chars. now rewrite Hsp.
  - exists pt. split; [exact Hpt |]. rewrite Z.max_r in Hh by lia. exact Hh.
Qed.

Lemma paragraph_runs_witness :
  exists tb,
    add_center_paragraph default_slide (of_string "  ") 32 (Some f9_5)
      f0_9 f0_9 f2_0 f6_5 f0_2 20 = Ok tb
    /\ tb_runs tb = [[]].
Proof.
  destruct (add_center_paragraph default_slide (of_string "  ") 32 (Some f9_5)
              f0_9 f0_9 f2_0 f6_5 f0_2 20) as [tb |] eqn:E;
    [| vm_compute in E; discriminate].
  exists tb. split; [reflexivity |].
  apply (paragraph_runs _ _ _ _ _ _ _ _ _ _ _ E); [discriminate | reflexivity].
Defined.

(** ** Pictures *)

Lemma int_truediv_zero : int_truediv 0 EMU_PER_INCH = Ok (S754_zero false).
Proof. vm_compute. reflexivity. Qed.

(** X20: a picture that reports a width or a height of zero makes the
    scaling of the mission image and of the team image raise (the
    scale divides by the picture's size in inches) instead of placing
    anything. *)
Theorem zero_sized_picture (prs : presentation) (w0 h0 : Z) :
  w0 = 0 \/ h0 = 0 ->
  raises (mission_image prs w0 h0) /\ raises (team_image w0 h0).
Proof.
  intros Hz. split.
  - unfold mission_image.
    destruct (slide_size_in prs) as [sz |]; cbn [bind]; [| exact I].
    destruct Hz as [-> | ->].
    + rewrite int_truediv_zero. cbn [bind].
      destruct (int_truediv h0 EMU_PER_INCH) as [y |]; cbn [bind]; [| exact I].
      exact I.
    + destruct (int_truediv w0 EMU_PER_INCH) as [x |]; cbn [bind]; [| exact I].
      rewrite int_truediv_zero. cbn [bind].
      destruct (truediv _ x) as [sw |]; cbn [bind]; [| exact I].
      exact I.
  - unfold team_image. cbv zeta.
    destruct Hz as [-> | ->].
    + rewrite int_truediv_zero. cbn [bind].
      destruct (int_truediv h0 EMU_PER_INCH) as [y |]; cbn [bind]; [| exact I].
      exact I.
    + destruct (int_truediv w0 EMU_PER_INCH) as [x |]; cbn [bind]; [| exact I].
      rewrite int_truediv_zero. cbn [bind].
      destruct (truediv _ x) as [sw |]; cbn [bind]; [| exact I].
      exact I.
Qed.

Lemma zero_sized_picture_witness :
  mission_image default_slide 0 placeholder_side = Raise ZeroDivisionError
  /\ team_image placeholder_side 0 = Raise ZeroDivisionError.
Proof.
  destruct (zero_sized_picture default_slide 0 placeholder_side (or_introl eq_refl))
    as [H1 _].
  destruct (zero_sized_picture default_slide placeholder_side 0 (or_intror eq_refl))
    as [_ H2].
  split.
  - destruct (mission_image default_slide 0 placeholder_side) as [p | e] eqn:E;
      [contradiction |].
    vm_compute in E. injection E as <-. reflexivity.
  - destruct (team_image placeholder_side 0) as [p | e] eqn:E; [contradiction |].
    vm_compute in E. injection E as <-. reflexivity.
Defined.

Import PyStr PyFloat Lit Layout BuildPpt Footer.
Import PlaceFacts SiteFacts.

(** ** The footer links *)

Lemma count_from_succ (i : Z) (n : nat) :
  count_from i (S n) = i :: count_from (i + 1) n.
Proof.
  unfold count_from. cbn [seq map]. rewrite Z.add_0_r. f_equal.
  rewrite <- seq_shift, map_map. apply map_ext. intros k. lia.
Qed.

Lemma of_string_inj (s t : string) : of_string s = of_string t -> s = t.
Proof.
  revert t. induction s as [| a s IH]; intros [| b t]; cbn [of_string];
    try discriminate; [reflexivity |].
  intros [= Hab Hst]. f_equal; [| now apply IH].
  rewrite <- (ascii_N_embedding a), <- (ascii_N_embedding b). now f_equal.
Qed.

Lemma to_int_not_nil (i : Z) :
  Z.to_int i <> Decimal.Pos Decimal.Nil /\ Z.to_int i <> Decimal.Neg Decimal.Nil.
Proof.
  split; intros H; pose proof (f_equal Z.of_int H) as H';
    rewrite of_to in H'; cbn in H'; subst i; discriminate H.
Qed.

Lemma label_inj (i j : Z) : label i = label j -> i = j.
Proof.
  unfold label. intros H. apply of_string_inj in H.
  cbn [String.append] in H. injection H as H.
  assert (Hs : NilZero.string_of_int (Z.to_int i) = NilZero.string_of_int (Z.to_int j)).
  { revert H. generalize (NilZero.string_of_int (Z.to_int i)) as s.
    generalize (NilZero.string_of_int (Z.to_int j)) as t.
    intros t s. revert t. induction s as [| a s IH]; intros [| b t]; cbn [String.append].
    - reflexivity.
    - intros [= <- Ht]. destruct t; discriminate.
    - intros [= -> Hs]. destruct s; discriminate.
    - intros [= -> Hst]. f_equal. now apply IH. }
  destruct (to_int_not_nil i) as [Hi1 Hi2], (to_int_not_nil j) as [Hj1 Hj2].
  pose proof (NilZero.isi _ Hi1 Hi2) as Ei. pose proof (NilZero.isi _ Hj1 Hj2) as Ej.
  rewrite Hs, Ej in Ei. injection Ei as Ei. now apply DecimalZ.to_int_inj.
Qed.

Lemma link_runs_spec (links : list str) :
  forall i, 1 <= i ->
    map run_address (link_labels (link_runs i links)) = map Some links
    /\ map run_text (link_labels (link_runs i links))
         = map label (count_from i (List.length links))
    /\ Z.of_nat (List.length (link_runs i links))
         = 2 * Z.of_nat (List.length links)
           - (if (i =? 1) && negb (Nat.eqb (List.length links) 0) then 1 else 0).
Proof.
  induction links as [| url links IH]; intros i Hi.
  - cbn. rewrite andb_false_r. repeat split; reflexivity.
  - destruct (IH (i + 1) ltac:(lia)) as (IH1 & IH2 & IH3).
    replace (i + 1 =? 1) with false in IH3 by (symmetry; apply Z.eqb_neq; lia).
    cbn [andb] in IH3.
    cbn [link_runs List.length]. rewrite count_from_succ.
    unfold link_labels in *. rewrite filter_app, !map_app, length_app.
    cbn [filter run_address map List.length Nat.eqb negb].
    rewrite IH1, IH2, andb_true_r.
    destruct (Z.ltb_spec 1 i) as [Hlt | Hge].
    + replace (i =? 1) with false by (symmetry; apply Z.eqb_neq; lia).
      cbn [filter run_address map app List.length run_text].
      repeat split; try reflexivity. lia.
    + replace (i =? 1) with true by (symmetry; apply Z.eqb_eq; lia).
      cbn [filter map app List.length].
      repeat split; try reflexivity. lia.
Qed.

Lemma NoDup_map_inj {A B : Type} (f : A -> B) (l : list A) :
  (forall a b, f a = f b -> a = b) -> NoDup l -> NoDup (map f l).
Proof.
  intros Hf. induction 1 as [| x l Hx _ IH]; cbn [map]; constructor; [| exact IH].
  intros Hin. apply in_map_iff in Hin. destruct Hin as (y & Hy & Hin).
  apply Hf in Hy. now subst y.
Qed.

Lemma count_from_NoDup (i : Z) (n : nat) : NoDup (count_from i n).
Proof.
  unfold count_from. apply NoDup_map_inj; [| apply seq_NoDup].
  intros a b H. lia.
Qed.

Lemma link_runs_later (links : list str) :
  forall i k url, 1 < i -> nth_error links k = Some url ->
    nth_error (link_runs i links) (2 * k) = Some separator
    /\ nth_error (link_runs i links) (2 * k + 1)
         = Some {| run_text := label (i + Z.of_nat k); run_address := Some url |}.
Proof.
  induction links as [| u links IH]; intros i k url Hi Hk;
    [destruct k; discriminate |].
  cbn [link_runs]. rewrite (proj2 (Z.ltb_lt 1 i) Hi). cbn [app].
  destruct k as [| k].
  - injection Hk as ->. cbn [Nat.mul Nat.add nth_error].
    rewrite Z.add_0_r. split; reflexivity.
  - cbn [nth_error] in Hk.
    replace (2 * S k)%nat with (S (S (2 * k))) by lia.
    replace (S (S (2 * k)) + 1)%nat with (S (S (2 * k + 1))) by lia.
    cbn [nth_error].
    destruct (IH (i + 1) k url ltac:(lia) Hk) as [H1 H2].
    split; [exact H1 |]. rewrite H2. do 3 f_equal. lia.
Qed.

Lemma link_runs_places (links : list str) :
  (forall k url, nth_error links k = Some url ->
     nth_error (link_runs 1 links) (2 * k)
       = Some {| run_text := label (Z.of_nat k + 1); run_address := Some url |})
  /\ (forall k, (k + 1 < List.length links)%nat ->
        nth_error (link_runs 1 links) (2 * k + 1) = Some separator).
Proof.
  destruct links as [| u links].
  - split; [intros [| k] url H; discriminate | cbn; intros; lia].
  - cbn [link_runs]. change (1 <? 1) with false. change (1 + 1) with 2.
    cbn [app]. split.
    + intros [| k] url Hk.
      * injection Hk as ->. reflexivity.
      * cbn [nth_error] in Hk.
        replace (2 * S k)%nat with (S (2 * k + 1)) by lia. cbn [nth_error].
        destruct (link_runs_later links 2 k url ltac:(lia) Hk) as [_ H].
        rewrite H. do 3 f_equal. lia.
    + intros k Hk. cbn [List.length] in Hk.
      replace (2 * k + 1)%nat with (S (2 * k)) by lia. cbn [nth_error].
      destruct (nth_error links k) as [url |] eqn:E.
      * now destruct (link_runs_later links 2 k url ltac:(lia) E) as [H _].
      * apply nth_error_None in E. lia.
Qed.

(** X24: add_footer_links_right adds nothing for an empty list of
    links; for n >= 1 links it writes 2n - 1 runs: the run at the even
    place 2k is the label [k + 1] with the link at place k as its
    address, the run at every odd place between two labels is two
    spaces without an address; so the labels [1] to [n] stand in
    order, separated by two spaces, and no two labels read the same. *)
Theorem footer_labels (prs : presentation) (links : list str)
    (right_margin_in bottom_in : float) :
  add_footer_links_right prs [] right_margin_in bottom_in = Ok None
  /\ forall ft,
       add_footer_links_right prs links right_margin_in bottom_in = Ok (Some ft) ->
       links <> []
       /\ Z.of_nat (List.length (ft_runs ft)) = 2 * Z.of_nat (List.length links) - 1
       /\ map run_address (link_labels (ft_runs ft)) = map Some links
       /\ map run_text (link_labels (ft_runs ft))
            = map label (count_from 1 (List.length links))
       /\ NoDup (map run_text (link_labels (ft_runs ft)))
       /\ Forall (fun r => run_address r = None -> run_text r = [space; space])
            (ft_runs ft)
       /\ (forall k url, nth_error links k = Some url ->
             nth_error (ft_runs ft) (2 * k)
               = Some {| run_text := label (Z.of_nat k + 1);
                         run_address := Some url |})
       /\ (forall k, (k + 1 < List.length links)%nat ->
             nth_error (ft_runs ft) (2 * k + 1)
               = Some {| run_text := [space; space]; run_address := None |}).
Proof.
  split; [reflexivity |].
  intros ft H. destruct links as [| url links]; [discriminate |].
  unfold add_footer_links_right in H.
  apply bind_Ok in H. destruct H as (sz & _ & H). cbv beta zeta in H.
  apply Ok_inj in H. injection H as <-. cbn [ft_runs].
  destruct (link_runs_spec (url :: links) 1 ltac:(lia)) as (H1 & H2 & H3).
  split; [discriminate |]. split; [exact H3 |]. split; [exact H1 |].
  split; [exact H2 |]. split; [| split; [| split]].
  - change (NoDup (map run_text (link_labels (link_runs 1 (url :: links))))).
    rewrite H2. apply NoDup_map_inj; [| apply count_from_NoDup].
    intros a b. apply label_inj.
  - change (Forall (fun r => run_address r = None -> run_text r = [space; space])
              (link_runs 1 (url :: links))).
    generalize 1. generalize (url :: links). clear.
    induction l as [| u l IH]; intros i; cbn [link_runs]; [constructor |].
    apply Forall_app. split.
    + destruct (1 <? i); repeat constructor.
    + constructor; [discriminate | apply IH].
  - exact (proj1 (link_runs_places (url :: links))).
  - exact (proj2 (link_runs_places (url :: links))).
Qed.

(** ** Widths *)

(** X25: no text box is narrower than one inch, however narrow the
    slide: the bullets block, the paragraph without a box width, the
    team text and the footer all take at least 1.0 inch; a paragraph
    with a box width takes that width and starts at least 0.5 inch
    from the left edge. *)
Theorem text_width_floor :
  (forall prs lines font_pt left_in right_margin_in top_in bottom_in
          uplift_ratio wrap_chars_limit tb,
      add_left_bullets_vert_center prs lines font_pt left_in right_margin_in
        top_in bottom_in uplift_ratio wrap_chars_limit = Ok tb ->
      leb f1_0 (tb_width tb) = true /\ tb_left tb = left_in)
  /\ (forall prs text font_pt left_in right_margin_in top_in bottom_in
             uplift_ratio wrap_chars_limit tb,
        add_center_paragraph prs text font_pt None left_in right_margin_in
          top_in bottom_in uplift_ratio wrap_chars_limit = Ok tb ->
        leb f1_0 (tb_width tb) = true /\ tb_left tb = left_in)
  /\ (forall prs text font_pt w left_in right_margin_in top_in bottom_in
             uplift_ratio wrap_chars_limit tb,
        box_width_set (Some w) = Some w ->
        add_center_paragraph prs text font_pt (Some w) left_in right_margin_in
          top_in bottom_in uplift_ratio wrap_chars_limit = Ok tb ->
        tb_width tb = w /\ leb f0_5 (tb_left tb) = true)
  /\ (forall prs pic2 text tb,
        team_text_block prs pic2 text = Ok tb -> leb f1_0 (tb_width tb) = true)
  /\ (forall prs links right_margin_in bottom_in ft,
        add_footer_links_right prs links right_margin_in bottom_in = Ok (Some ft) ->
        leb f1_0 (ft_width ft) = true).
Proof.
  split; [| split; [| split; [| split]]].
  - intros prs lines font_pt left_in right_margin_in top_in bottom_in
      uplift_ratio wrap_chars_limit tb H.
    unfold add_left_bullets_vert_center in H. cbv beta zeta in H.
    apply bind_Ok in H. destruct H as (pt & _ & H).
    apply bind_Ok in H. destruct H as (h & _ & H).
    apply bind_Ok in H. destruct H as (sz & _ & H).
    apply Ok_inj in H. subst tb. cbn [tb_width tb_left].
    split; [now apply max2_ge | reflexivity].
  - intros prs text font_pt left_in right_margin_in top_in bottom_in
      uplift_ratio wrap_chars_limit tb H.
    unfold add_center_paragraph in H. cbv beta zeta in H.
    apply bind_Ok in H. destruct H as (pt & _ & H).
    apply bind_Ok in H. destruct H as (h & _ & H).
    apply bind_Ok in H. destruct H as (sz & _ & H).
    apply Ok_inj in H. subst tb. cbn [tb_width tb_left box_width_set].
    split; [now apply max2_ge | reflexivity].
  - intros prs text font_pt w left_in right_margin_in top_in bottom_in
      uplift_ratio wrap_chars_limit tb Hw H.
    unfold add_center_paragraph in H. cbv beta zeta in H.
    apply bind_Ok in H. destruct H as (pt & _ & H).
    apply bind_Ok in H. destruct H as (h & _ & H).
    apply bind_Ok in H. destruct H as (sz & _ & H).
    apply Ok_inj in H. subst tb. cbn [tb_width tb_left]. rewrite Hw.
    split; [reflexivity | now apply max2_ge].
  - intros prs pic2 text tb H.
    unfold team_text_block in H. cbv beta zeta in H.
    apply bind_Ok in H. destruct H as (sz & _ & H).
    apply bind_Ok in H. destruct H as (l_in & _ & H).
    apply bind_Ok in H. destruct H as (w_in & _ & H).
    apply bind_Ok in H. destruct H as (pt & _ & H).
    apply bind_Ok in H. destruct H as (h & _ & H).
    apply Ok_inj in H. subst tb. cbn [tb_width]. now apply max2_ge.
  - intros prs links right_margin_in bottom_in ft H.
    destruct links as [| url links]; [discriminate |].
    unfold add_footer_links_right in H.
    apply bind_Ok in H. destruct H as (sz & _ & H). cbv beta zeta in H.
    apply Ok_inj in H. apply (f_equal (fun o => match o with
                                                 | Some f => ft_width f
                                                 | None => f1_0
                                                 end)) in H.
    cbn [ft_width] in H. rewrite <- H. now apply max2_ge.
Qed.
